(** * Simulador financeiro: the numeric core

    A shallow embedding of the four numeric functions of
    [Sim_Investimentos_VersãoWeb.py]

      - [calcular_ir_regressivo]           (regressive income tax),
      - [simular_investimento_detalhado]   (monthly growth of an investment),
      - [calcular_sac]                     (constant-amortization schedule),
      - [calcular_price]                   (constant-payment schedule),

    followed by the properties of the specification that concern them,
    and of what surrounds them in the file:

      - [get_cdi], [get_poupanca]          (the reference rates, as
                                            functions of the Selic),
      - [format_brl]                       (money, the Brazilian way),
      - the period and rate converters and the caller of the simulator
        (module-level code of the tabs),

    with further properties of all of these.

    The Python code is written against whatever number the caller passes
    (in practice binary64 floats coming from the form widgets).  The
    embedding keeps that: every function is written once, over an interface
    [Arith] of the operations the source uses, and is then read in two
    arithmetics:

      - [QA],  exact rational arithmetic, in which the algebraic
               properties are proved;
      - [B64], IEEE 754 binary64 ([PrimFloat]), the arithmetic the
               interpreter really runs, in which concrete runs are
               evaluated.

    Properties that only depend on the control flow are proved for every
    arithmetic at once. *)

From Stdlib Require Import String ZArith QArith Qabs Qround Qpower List Bool Lia Lqa.
From Stdlib Require Import PrimFloat.
From Stdlib Require Uint63.
Import ListNotations.

Set Warnings "-inexact-float,-notation-for-abbreviation".

Open Scope Z_scope.

(* ================================================================== *)
(** ** Exceptions *)

(** The exceptions that matter to the functions below.  [KeyError] comes
    from the label lookup of pandas, [ZeroDivisionError] and
    [OverflowError] from float arithmetic.  [ValueError] marks a power of
    a negative base with a fractional exponent (see [Q_pow]).
    [ValidationError] is the error of the specification's taxonomy; it is
    listed so that statements can name it, and nothing below raises it. *)
Inductive exn : Set :=
| KeyError
| ZeroDivisionError
| OverflowError
| ValueError
| ValidationError.

Inductive result (T : Type) : Type :=
| Ok (v : T)
| Raise (e : exn).

Arguments Ok {T} v.
Arguments Raise {T} e.

Definition bind {T U : Type} (r : result T) (k : T -> result U) : result U :=
  match r with
  | Ok v => k v
  | Raise e => Raise e
  end.

Notation "x <- r ;; k" := (bind r (fun x => k))
  (at level 61, r at next level, right associativity).

(** A [for] loop whose body may raise. *)
Fixpoint for_each {S I : Type} (body : S -> I -> result S) (l : list I) (s : S)
  : result S :=
  match l with
  | [] => Ok s
  | i :: l' => s' <- body s i ;; for_each body l' s'
  end.

(** [range(lo, hi)]. *)
Definition py_range (lo hi : Z) : list Z :=
  map (fun i => lo + Z.of_nat i) (seq 0 (Z.to_nat (hi - lo))).

(** [m in lista] for a list of integers. *)
Definition py_in (m : Z) (lista : list Z) : bool := existsb (Z.eqb m) lista.

(* ================================================================== *)
(** ** The arithmetic interface *)

(** The operations the source applies to its numbers.  [of_Z] embeds a
    Python [int] that meets a float, [dec] reads a decimal literal such as
    [0.225] (and the constant quotient [1/12]).  [div] is Python's [/],
    which raises [ZeroDivisionError] on a zero divisor.  [pow] is [**]
    with a float exponent and [powi] is [**] with an [int] exponent; both
    are delegated by the interpreter to the C library and may raise. *)
Record Arith : Type := {
  num  : Type;
  of_Z : Z -> num;
  dec  : Q -> num;
  add  : num -> num -> num;
  sub  : num -> num -> num;
  mul  : num -> num -> num;
  div  : num -> num -> result num;
  pow  : num -> num -> result num;
  powi : num -> Z -> result num;
  leb  : num -> num -> bool;
  ltb  : num -> num -> bool
}.

Arguments of_Z {a}.
Arguments dec {a}.
Arguments add {a}.
Arguments sub {a}.
Arguments mul {a}.
Arguments div {a}.
Arguments pow {a}.
Arguments powi {a}.
Arguments leb {a}.
Arguments ltb {a}.

(* ================================================================== *)
(** ** The records of the tables *)

(** The rows and loop variables, over the type [N] of the numbers. *)

(** One row of [dados_mensais]. *)
Record Registro (N : Type) : Type := {
  Mes : Z;
  Aporte : N;
  Juros : N;
  Saldo_Bruto : N;
  Capital_Acumulado : N
}.

(** The variables the loop updates. *)
Record Estado (N : Type) : Type := {
  saldo : N;
  capital_total : N;
  taxa_mensal : N;
  dados_mensais : list (Registro N)
}.

(** What the function returns (a tuple in the source). *)
Record Simulacao (N : Type) : Type := {
  saldo_bruto : N;
  ir_pago : N;
  saldo_liquido : N;
  df_detalhado : list (Registro N);
  capital_investido : N
}.

(** One row of [tabela], for both methods. *)
Record Linha (N : Type) : Type := {
  L_Mes : Z;
  L_Juros : N;
  L_Amortizacao : N;
  L_Parcela : N;
  L_Saldo_Devedor : N
}.

(** The variables of the amortization loops. *)
Record Financiamento (N : Type) : Type := {
  saldo_devedor : N;
  juros_total : N;
  parcela_total : N;
  tabela : list (Linha N)
}.

Arguments Mes {N} r.
Arguments Aporte {N} r.
Arguments Juros {N} r.
Arguments Saldo_Bruto {N} r.
Arguments Capital_Acumulado {N} r.
Arguments saldo {N} e.
Arguments capital_total {N} e.
Arguments taxa_mensal {N} e.
Arguments dados_mensais {N} e.
Arguments saldo_bruto {N} s.
Arguments ir_pago {N} s.
Arguments saldo_liquido {N} s.
Arguments df_detalhado {N} s.
Arguments capital_investido {N} s.
Arguments L_Mes {N} l.
Arguments L_Juros {N} l.
Arguments L_Amortizacao {N} l.
Arguments L_Parcela {N} l.
Arguments L_Saldo_Devedor {N} l.
Arguments saldo_devedor {N} f.
Arguments juros_total {N} f.
Arguments parcela_total {N} f.
Arguments tabela {N} f.
Arguments Build_Registro {N}.
Arguments Build_Estado {N}.
Arguments Build_Simulacao {N}.
Arguments Build_Linha {N}.
Arguments Build_Financiamento {N}.

(* ================================================================== *)
(** ** The four functions, over any arithmetic *)

Section Core.

Variable A : Arith.
Notation num := (num A).

(** *** calcular_ir_regressivo *)

Definition aliquota (meses : Z) : Q :=
  if meses <=? 6 then 225 # 1000
  else if meses <=? 12 then 20 # 100
  else if meses <=? 24 then 175 # 1000
  else 15 # 100.

Definition calcular_ir_regressivo (meses : Z) (rendimento : num) : num :=
  mul rendimento (dec (aliquota meses)).

(** *** simular_investimento_detalhado *)

(** [aportes_customizados.get(mes, 0)], the dictionary being given by its
    entries. *)
Fixpoint dict_get (d : list (Z * num)) (k : Z) (default : num) : num :=
  match d with
  | [] => default
  | (k', v) :: d' => if k =? k' then v else dict_get d' k default
  end.

Definition aporte_do_mes (tipo_aporte : string) (aporte_mensal_base variacao_aporte : num)
    (aportes_customizados : list (Z * num)) (mes : Z) : result num :=
  if (tipo_aporte =? "Fixo")%string then
    Ok aporte_mensal_base
  else if (tipo_aporte =? "Variação Linear")%string then
    Ok (add aporte_mensal_base (mul (of_Z (mes - 1)) variacao_aporte))
  else if (tipo_aporte =? "Variação Percentual")%string then
    p <- powi (add (of_Z 1) variacao_aporte) ((mes - 1) / 12) ;;
    Ok (mul aporte_mensal_base p)
  else if (tipo_aporte =? "Aportes Customizados")%string then
    Ok (add aporte_mensal_base (dict_get aportes_customizados mes (of_Z 0)))
  else
    Ok aporte_mensal_base.

(** The body of the [for mes in range(1, meses + 1)] loop. *)
Definition simular_mes (tipo_aporte : string) (aporte_mensal_base variacao_aporte : num)
    (aportes_customizados : list (Z * num)) (variacao_taxa_mensal : num)
    (st : Estado num) (mes : Z) : result (Estado num) :=
  aporte <- aporte_do_mes tipo_aporte aporte_mensal_base variacao_aporte
              aportes_customizados mes ;;
  let juros_do_mes := mul (saldo st) (taxa_mensal st) in
  let saldo' := add (saldo st) (add juros_do_mes aporte) in
  let capital' := add (capital_total st) aporte in
  Ok {| saldo := saldo';
        capital_total := capital';
        taxa_mensal := mul (taxa_mensal st) (add (of_Z 1) variacao_taxa_mensal);
        dados_mensais := dados_mensais st ++
          [ {| Mes := mes; Aporte := aporte; Juros := juros_do_mes;
               Saldo_Bruto := saldo'; Capital_Acumulado := capital' |} ] |}.

(** [df.loc[k, coluna]] on a frame built from a list of rows: the index is
    [0 .. len-1], and a label outside it raises [KeyError]. *)
Definition df_loc {R : Type} (df : list R) (k : Z) : result R :=
  if k <? 0 then Raise KeyError
  else match nth_error df (Z.to_nat k) with
       | Some r => Ok r
       | None => Raise KeyError
       end.

(** [df[coluna].sum()]. *)
Definition col_sum {R : Type} (col : R -> num) (df : list R) : num :=
  fold_left (fun acc r => add acc (col r)) df (of_Z 0).

Definition simular_investimento_detalhado
    (valor_inicial : num) (tipo_aporte : string)
    (aporte_mensal_base variacao_aporte : num)
    (aportes_customizados : list (Z * num))
    (taxa_anual_base variacao_taxa_mensal : num)
    (meses : Z) (incide_ir : bool) : result (Simulacao num) :=
  raiz <- pow (add (of_Z 1) taxa_anual_base) (dec (1 # 12)) ;;
  let inicio := {| saldo := valor_inicial;
                   capital_total := valor_inicial;
                   taxa_mensal := sub raiz (of_Z 1);
                   dados_mensais := [] |} in
  fim <- for_each (simular_mes tipo_aporte aporte_mensal_base variacao_aporte
                     aportes_customizados variacao_taxa_mensal)
           (py_range 1 (meses + 1)) inicio ;;
  let df := dados_mensais fim in
  ultimo <- df_loc df (meses - 1) ;;
  let bruto := Saldo_Bruto ultimo in
  let investido := add valor_inicial (col_sum Aporte df) in
  let rendimento_bruto := sub bruto investido in
  let ir := if incide_ir then calcular_ir_regressivo meses rendimento_bruto
            else dec 0 in
  Ok {| saldo_bruto := bruto;
        ir_pago := ir;
        saldo_liquido := sub bruto ir;
        df_detalhado := df;
        capital_investido := investido |}.

(** *** The amortization tables *)

Definition linha_zerada (mes : Z) : Linha num :=
  {| L_Mes := mes; L_Juros := of_Z 0; L_Amortizacao := of_Z 0;
     L_Parcela := of_Z 0; L_Saldo_Devedor := of_Z 0 |}.

(** [amort_extra_valor if mes in meses_extra_amort else 0]. *)
Definition extra_do_mes (amort_extra_valor : num) (meses_extra_amort : list Z)
    (mes : Z) : num :=
  if py_in mes meses_extra_amort then amort_extra_valor else of_Z 0.

(** *** calcular_sac *)

Definition sac_mes (taxa amortizacao_fixa amort_extra_valor : num)
    (meses_extra_amort : list Z) (st : Financiamento num) (mes : Z) : Financiamento num :=
  if leb (saldo_devedor st) (of_Z 0) then
    {| saldo_devedor := saldo_devedor st;
       juros_total := juros_total st;
       parcela_total := parcela_total st;
       tabela := tabela st ++ [linha_zerada mes] |}
  else
    let juros := mul (saldo_devedor st) taxa in
    let amortizacao_mes :=
      if py_in mes meses_extra_amort then add amortizacao_fixa amort_extra_valor
      else amortizacao_fixa in
    let parcela := add amortizacao_mes juros in
    let saldo_devedor_anterior := saldo_devedor st in
    let novo_saldo := sub (saldo_devedor st) amortizacao_mes in
    if ltb novo_saldo (of_Z 0) then
      let amortizacao_final :=
        add (sub saldo_devedor_anterior
               (extra_do_mes amort_extra_valor meses_extra_amort mes)) juros in
      let parcela_final := add amortizacao_final juros in
      {| saldo_devedor := of_Z 0;
         juros_total := add (juros_total st) juros;
         parcela_total := add (parcela_total st) parcela_final;
         tabela := tabela st ++
           [ {| L_Mes := mes; L_Juros := juros; L_Amortizacao := amortizacao_final;
                L_Parcela := parcela_final; L_Saldo_Devedor := of_Z 0 |} ] |}
    else
      {| saldo_devedor := novo_saldo;
         juros_total := add (juros_total st) juros;
         parcela_total := add (parcela_total st) parcela;
         tabela := tabela st ++
           [ {| L_Mes := mes; L_Juros := juros; L_Amortizacao := amortizacao_mes;
                L_Parcela := parcela; L_Saldo_Devedor := novo_saldo |} ] |}.

Definition financiamento_inicial (principal : num) : Financiamento num :=
  {| saldo_devedor := principal; juros_total := of_Z 0;
     parcela_total := of_Z 0; tabela := [] |}.

(** The state of the SAC loop after the months [1 .. k]. *)
Definition sac_ate (principal taxa amortizacao_fixa amort_extra_valor : num)
    (meses_extra_amort : list Z) (k : Z) : Financiamento num :=
  fold_left (sac_mes taxa amortizacao_fixa amort_extra_valor meses_extra_amort)
    (py_range 1 (k + 1)) (financiamento_inicial principal).

Definition calcular_sac (principal taxa : num) (meses : Z) (amort_extra_valor : num)
    (meses_extra_amort : list Z) : result (list (Linha num) * num * num) :=
  amortizacao_fixa <- div principal (of_Z meses) ;;
  let fim := sac_ate principal taxa amortizacao_fixa amort_extra_valor
               meses_extra_amort meses in
  Ok (tabela fim, juros_total fim, parcela_total fim).

(** *** calcular_price *)

(** The [try ... except ZeroDivisionError] block that computes the fixed
    instalment.  Any other exception goes through. *)
Definition calcular_parcela_fixa (principal taxa : num) (meses : Z) : result num :=
  let formula :=
    p1 <- powi (add (of_Z 1) taxa) meses ;;
    p2 <- powi (add (of_Z 1) taxa) meses ;;
    div (mul principal (mul p1 taxa)) (sub p2 (of_Z 1)) in
  match formula with
  | Raise ZeroDivisionError => Ok (of_Z 0)
  | r => r
  end.

Definition price_mes (taxa parcela_fixa amort_extra_valor : num)
    (meses_extra_amort : list Z) (st : Financiamento num) (mes : Z) : Financiamento num :=
  if leb (saldo_devedor st) (of_Z 0) then
    {| saldo_devedor := saldo_devedor st;
       juros_total := juros_total st;
       parcela_total := parcela_total st;
       tabela := tabela st ++ [linha_zerada mes] |}
  else
    let juros := mul (saldo_devedor st) taxa in
    let amortizacao := sub parcela_fixa juros in
    let saldo_devedor_anterior := saldo_devedor st in
    let saldo_apos_extra :=
      if py_in mes meses_extra_amort then sub (saldo_devedor st) amort_extra_valor
      else saldo_devedor st in
    let novo_saldo := sub saldo_apos_extra amortizacao in
    let pago := add parcela_fixa
                  (extra_do_mes amort_extra_valor meses_extra_amort mes) in
    if ltb novo_saldo (of_Z 0) then
      let amortizacao_final :=
        add (sub saldo_devedor_anterior
               (extra_do_mes amort_extra_valor meses_extra_amort mes)) juros in
      {| saldo_devedor := of_Z 0;
         juros_total := add (juros_total st) juros;
         parcela_total := add (parcela_total st) pago;
         tabela := tabela st ++
           [ {| L_Mes := mes; L_Juros := juros; L_Amortizacao := amortizacao_final;
                L_Parcela := parcela_fixa; L_Saldo_Devedor := of_Z 0 |} ] |}
    else
      {| saldo_devedor := novo_saldo;
         juros_total := add (juros_total st) juros;
         parcela_total := add (parcela_total st) pago;
         tabela := tabela st ++
           [ {| L_Mes := mes; L_Juros := juros; L_Amortizacao := amortizacao;
                L_Parcela := parcela_fixa; L_Saldo_Devedor := novo_saldo |} ] |}.

(** The state of the Price loop after the months [1 .. k]. *)
Definition price_ate (principal taxa parcela_fixa amort_extra_valor : num)
    (meses_extra_amort : list Z) (k : Z) : Financiamento num :=
  fold_left (price_mes taxa parcela_fixa amort_extra_valor meses_extra_amort)
    (py_range 1 (k + 1)) (financiamento_inicial principal).

Definition calcular_price (principal taxa : num) (meses : Z) (amort_extra_valor : num)
    (meses_extra_amort : list Z) : result (list (Linha num) * num * num) :=
  parcela_fixa <- calcular_parcela_fixa principal taxa meses ;;
  let fim := price_ate principal taxa parcela_fixa amort_extra_valor
               meses_extra_amort meses in
  Ok (tabela fim, juros_total fim, parcela_total fim).

End Core.


(* ================================================================== *)
(** ** Exact rational arithmetic *)

(** The largest [r >= 0] with [r ^ k <= a], found bit by bit from the top. *)
Fixpoint Zroot_bits (k : positive) (a : Z) (bits : nat) (r : Z) : Z :=
  match bits with
  | O => r
  | S b =>
      let r' := r + 2 ^ Z.of_nat b in
      Zroot_bits k a b (if r' ^ Zpos k <=? a then r' else r)
  end.

Definition Zroot (k : positive) (a : Z) : Z :=
  Zroot_bits k a (Z.to_nat (Z.log2 a / Zpos k + 1)) 0.

(** [x ** n] for an integer [n]: exact, and [0 ** n] raises for [n < 0]. *)
Definition Q_powi (x : Q) (n : Z) : result Q :=
  if Qeq_bool x 0 && (n <? 0) then Raise ZeroDivisionError
  else Ok (Qred (Qpower x n)).

(** [x ** y] for a rational [y = p/q].  An integer exponent is exact.  A
    fractional one is the [q]-th root of [x ** p] cut after 15 decimal
    places (the root is irrational in general, and binary64 carries about
    as many digits); it is exact whenever the root has at most 15
    decimals, in particular at [x = 0] and [x = 1].  For a negative base
    Python 2 raised [ValueError] and Python 3 answers with a complex
    number; neither is a number of this model, and the specification puts
    such rates (below -100 %) out of contract. *)
Definition Q_pow (x y : Q) : result Q :=
  let y' := Qred y in
  match Qden y' with
  | 1%positive => Q_powi x (Qnum y')
  | q =>
      if negb (Qle_bool 0 x) then Raise ValueError
      else
        xp <- Q_powi x (Qnum y') ;;
        let escala := 10 ^ 15 in
        Ok (Qred (Qmake (Zroot q (Qfloor (xp * inject_Z (escala ^ Zpos q))))
                        (Z.to_pos escala)))
  end.

Definition Q_div (x y : Q) : result Q :=
  if Qeq_bool y 0 then Raise ZeroDivisionError else Ok (x / y)%Q.

Definition QA : Arith := {|
  num := Q;
  of_Z := inject_Z;
  dec := fun q => q;
  add := Qplus;
  sub := Qminus;
  mul := Qmult;
  div := Q_div;
  pow := Q_pow;
  powi := Q_powi;
  leb := Qle_bool;
  ltb := fun x y => negb (Qle_bool y x)
|}.

(** A row of a loan that does not move: no interest, no amortization, no
    payment, and the whole principal still due. *)
Definition linha_parada (principal : Q) (l : Linha Q) : Prop :=
  (L_Juros l == 0 /\ L_Amortizacao l == 0 /\ L_Parcela l == 0 /\
   L_Saldo_Devedor l == principal)%Q.

(* ================================================================== *)
(** ** IEEE 754 binary64 *)

(** A Python [int] as a float: exact below 2^53 in absolute value, which
    covers the month numbers and the integer literals of the source. *)
Definition b64_of_Z (z : Z) : PrimFloat.float :=
  match z with
  | Z0 => 0%float
  | Zpos _ => PrimFloat.of_uint63 (Uint63.of_Z z)
  | Zneg p => (- PrimFloat.of_uint63 (Uint63.of_Z (Zpos p)))%float
  end.

(** A decimal literal is read as the float nearest to it; for a literal
    whose numerator and denominator are exact floats, the rounded quotient
    is that float. *)
Definition b64_dec (q : Q) : PrimFloat.float :=
  (b64_of_Z (Qnum q) / b64_of_Z (Zpos (Qden q)))%float.

Definition b64_finite (x : PrimFloat.float) : bool :=
  negb (PrimFloat.is_nan x) && negb (PrimFloat.is_infinity x).

(** Python raises [OverflowError] when a power of finite numbers is not
    finite. *)
Definition b64_checked (x r : PrimFloat.float) : result PrimFloat.float :=
  if b64_finite x && negb (b64_finite r) then Raise OverflowError else Ok r.

Definition b64_div (x y : PrimFloat.float) : result PrimFloat.float :=
  if (y =? 0)%float then Raise ZeroDivisionError else Ok (x / y)%float.

(** [x ** n] by repeated multiplication (the C library's [pow] may differ
    from it in the last bits; the two agree at the bases 0 and 1). *)
Definition b64_powi (x : PrimFloat.float) (n : Z) : result PrimFloat.float :=
  match n with
  | Z0 => Ok 1%float
  | Zpos p => b64_checked x (Pos.iter (fun r => (r * x)%float) 1%float p)
  | Zneg p =>
      if (x =? 0)%float then Raise ZeroDivisionError
      else b64_checked x (1 / Pos.iter (fun r => (r * x)%float) 1%float p)%float
  end.

(** [x ** y] for [0 <= y < 1], from the binary digits of [y]: [x ** y] is
    the product of the roots [x ** (1/2^i)] whose digit is set, and [r]
    runs through these roots. *)
Fixpoint b64_pow_frac (digits : nat) (r acc y : PrimFloat.float) : PrimFloat.float :=
  match digits with
  | O => acc
  | S d =>
      let r' := PrimFloat.sqrt r in
      let y2 := (y * 2)%float in
      if (1 <=? y2)%float then b64_pow_frac d r' (acc * r')%float (y2 - 1)%float
      else b64_pow_frac d r' acc y2
  end.

(** An exponent of 1 or more is halved until it is below 1 ... *)
Fixpoint b64_halve (fuel : nat) (y : PrimFloat.float) (k : nat) : PrimFloat.float * nat :=
  match fuel with
  | O => (y, k)
  | S f => if (y <? 1)%float then (y, k) else b64_halve f (y / 2)%float (S k)
  end.

(** ... and the power for the halved exponent is squared as many times. *)
Fixpoint b64_square (k : nat) (r : PrimFloat.float) : PrimFloat.float :=
  match k with
  | O => r
  | S k' => b64_square k' (r * r)%float
  end.

(** [x ** y] for [0 <= y]. *)
Definition b64_pow_pos (x y : PrimFloat.float) : PrimFloat.float :=
  let (f, k) := b64_halve 1100 y 0 in
  b64_square k (b64_pow_frac 1100 x 1 f).

(** [x ** y] for a finite float exponent (the source only raises to
    [1/12]).  As for [b64_powi], the C library may differ in the last bits,
    and agrees at the bases 0 and 1.  A negative base with a fractional
    exponent gives NaN here, where Python 3 answers with a complex
    number. *)
Definition b64_pow (x y : PrimFloat.float) : result PrimFloat.float :=
  if (y =? 0)%float then Ok 1%float
  else if (y <? 0)%float then
    (if (x =? 0)%float then Raise ZeroDivisionError
     else b64_checked x (1 / b64_pow_pos x (- y))%float)
  else b64_checked x (b64_pow_pos x y).

Definition B64 : Arith := {|
  num := PrimFloat.float;
  of_Z := b64_of_Z;
  dec := b64_dec;
  add := PrimFloat.add;
  sub := PrimFloat.sub;
  mul := PrimFloat.mul;
  div := b64_div;
  pow := b64_pow;
  powi := b64_powi;
  leb := PrimFloat.leb;
  ltb := PrimFloat.ltb
|}.

(* ================================================================== *)
(** ** The reference rates *)

(** [get_selic] asks the central bank over the network (and answers 13 %
    when that fails); the two rates derived from it are functions of the
    rate it returned, [selic = get_selic()[0]]. *)

(** [get_cdi]: 99.75 % of the Selic. *)
Definition get_cdi (A : Arith) (selic : num A) : num A :=
  mul selic (dec (9975 # 10000)).

(** [get_poupanca]: 0.5 % a month, compounded over twelve months, when the
    Selic is above 8.5 % a year, and 70 % of the Selic otherwise. *)
Definition get_poupanca (A : Arith) (selic_anual : num A) : result (num A) :=
  if ltb (dec (85 # 1000)) selic_anual then
    p <- powi (add (of_Z 1) (dec (5 # 1000))) 12 ;;
    Ok (sub p (of_Z 1))
  else
    Ok (mul selic_anual (dec (70 # 100))).

(* ================================================================== *)
(** ** The period converter *)

(** The conversion of the tab "Conversor de Períodos": the three integer
    inputs are tried in the order years, months, days, the first positive
    one is converted, and the result is [(anos_result, meses_result,
    dias_result)]. *)
Definition conversor_de_periodos (A : Arith) (anos_input meses_input dias_input : Z)
    : result (num A * num A * num A) :=
  if anos_input >? 0 then
    Ok (of_Z anos_input, of_Z (anos_input * 12),
        mul (of_Z anos_input) (dec (36525 # 100)))
  else if meses_input >? 0 then
    anos_result <- div (of_Z meses_input) (of_Z 12) ;;
    Ok (anos_result, of_Z meses_input, of_Z (meses_input * 30))
  else if dias_input >? 0 then
    meses_result <- div (of_Z dias_input) (of_Z 30) ;;
    anos_result <- div meses_result (of_Z 12) ;;
    Ok (anos_result, meses_result, of_Z dias_input)
  else
    Ok (dec 0, dec 0, dec 0).

(* ================================================================== *)
(** ** The rate converter *)

(** The two conversions of the tab "Conversor de Taxas de Juros", each
    from a percentage to a fraction; a conversion is shown only for a
    positive input ([None] otherwise). *)
Definition taxa_anual_para_mensal (A : Arith) (taxa_anual_input : num A)
    : result (option (num A)) :=
  if ltb (of_Z 0) taxa_anual_input then
    taxa_anual_decimal <- div taxa_anual_input (of_Z 100) ;;
    raiz <- pow (add (of_Z 1) taxa_anual_decimal) (dec (1 # 12)) ;;
    Ok (Some (sub raiz (of_Z 1)))
  else Ok None.

Definition taxa_mensal_para_anual (A : Arith) (taxa_mensal_input : num A)
    : result (option (num A)) :=
  if ltb (of_Z 0) taxa_mensal_input then
    taxa_mensal_decimal <- div taxa_mensal_input (of_Z 100) ;;
    p <- powi (add (of_Z 1) taxa_mensal_decimal) 12 ;;
    Ok (Some (sub p (of_Z 1)))
  else Ok None.

(* ================================================================== *)
(** ** The caller of the simulator *)


(* ================================================================== *)
(** ** Formatting money *)

(** The character of a one-character literal. *)
Definition car (s : string) : Ascii.ascii :=
  match s with
  | String c _ => c
  | EmptyString => Ascii.zero
  end.

(** [s.replace(velho, novo)] for one-character [velho] and [novo]. *)
Fixpoint replace (velho novo : Ascii.ascii) (s : string) : string :=
  match s with
  | EmptyString => EmptyString
  | String c s' =>
      String (if Ascii.eqb c velho then novo else c) (replace velho novo s')
  end.

(** [format_brl]: the number is written the American way by the format
    [",.2f"] (here [formatar], the interpreter's), after "R$ ", and the
    three replacements then turn the text into the Brazilian way. *)
Definition format_brl {N : Type} (formatar : N -> string) (val : N) : string :=
  replace (car "X") (car ".")
    (replace (car ".") (car ",")
       (replace (car ",") (car "X") ("R$ " ++ formatar val)%string)).

(** The exchange of the two separators. *)
Definition troca (c : Ascii.ascii) : Ascii.ascii :=
  if Ascii.eqb c (car ",") then car "."
  else if Ascii.eqb c (car ".") then car ","
  else c.

Fixpoint mapear (f : Ascii.ascii -> Ascii.ascii) (s : string) : string :=
  match s with
  | EmptyString => EmptyString
  | String c s' => String (f c) (mapear f s')
  end.

Fixpoint contem (c : Ascii.ascii) (s : string) : bool :=
  match s with
  | EmptyString => false
  | String c' s' => Ascii.eqb c' c || contem c s'
  end.

(* ================================================================== *)
(** ** Reading a ledger *)

(** The balance a ledger shows before its row [i] (counted from 0): the
    initial amount before the first row, the gross balance of the row
    before otherwise. *)
Definition saldo_antes {N : Type} (valor_inicial : N) (df : list (Registro N))
    (i : nat) : N :=
  match i with
  | O => valor_inicial
  | S j => match nth_error df j with
           | Some r => Saldo_Bruto r
           | None => valor_inicial
           end
  end.

(** The books of the loop in exact arithmetic.  After the months [1 .. k]:
    the capital is the initial amount plus the contributions, the balance
    is the capital plus the interest, the rate is the initial monthly rate
    times [(1 + drift) ^ k], the last row shows the balance and the
    capital, and every row obeys the recurrence of its month. *)
Definition livro_em_dia (valor_inicial taxa0 drift : Q) (k : Z) (st : Estado Q) : Prop :=
  length (dados_mensais st) = Z.to_nat k /\
  (capital_total st == valor_inicial + col_sum QA Aporte (dados_mensais st))%Q /\
  (saldo st == capital_total st + col_sum QA Juros (dados_mensais st))%Q /\
  (taxa_mensal st == taxa0 * (1 + drift) ^ k)%Q /\
  saldo_antes valor_inicial (dados_mensais st) (Z.to_nat k) = saldo st /\
  (forall r, nth_error (dados_mensais st) (Z.to_nat (k - 1)) = Some r -> 0 < k ->
     Capital_Acumulado r = capital_total st) /\
  (forall i r, nth_error (dados_mensais st) i = Some r ->
     (Juros r == saldo_antes valor_inicial (dados_mensais st) i
                 * (taxa0 * (1 + drift) ^ Z.of_nat i))%Q /\
     (Saldo_Bruto r == saldo_antes valor_inicial (dados_mensais st) i
                       + (Juros r + Aporte r))%Q).

(* ================================================================== *)
(** ** What the two amortization loops share *)

(** One month of an amortization table, as both [calcular_sac] and
    [calcular_price] write it: the month appends one row for itself; on a
    closed balance ([saldo_devedor <= 0]) the row is the zero row and
    nothing else changes; on an open balance the new balance is the one
    of the row, the interest of the row is added to the total, and the
    balance of the row is either the literal 0 of the clamp or a value
    that passed the test [saldo_devedor < 0]. *)
Definition passo_de_tabela (A : Arith)
    (f : Financiamento (num A) -> Z -> Financiamento (num A)) : Prop :=
  forall st mes, exists l,
    tabela (f st mes) = tabela st ++ [l] /\
    L_Mes l = mes /\
    (leb (saldo_devedor st) (of_Z 0) = true ->
       l = linha_zerada A mes /\
       saldo_devedor (f st mes) = saldo_devedor st /\
       juros_total (f st mes) = juros_total st /\
       parcela_total (f st mes) = parcela_total st) /\
    (leb (saldo_devedor st) (of_Z 0) = false ->
       saldo_devedor (f st mes) = L_Saldo_Devedor l /\
       juros_total (f st mes) = add (juros_total st) (L_Juros l) /\
       (L_Saldo_Devedor l = of_Z 0 \/
        ltb (L_Saldo_Devedor l) (of_Z 0) = false)).

(* ================================================================== *)
(** ** The textbook tables *)

(** The row of month [L_Mes l] of a SAC table of [meses] months that runs
    its regular course with the fixed amortization [fixa]: the balance
    left is [meses - mes] shares, the interest is charged on the
    [meses - mes + 1] shares open at the start of the month. *)
Definition linha_sac_regular (meses : Z) (fixa taxa : Q) (l : Linha Q) : Prop :=
  (L_Amortizacao l == fixa)%Q /\
  (L_Saldo_Devedor l == inject_Z (meses - L_Mes l) * fixa)%Q /\
  (L_Juros l == inject_Z (meses - L_Mes l + 1) * fixa * taxa)%Q /\
  (L_Parcela l == fixa + L_Juros l)%Q.

(** The row of month [L_Mes l] of a Price table of [meses] months at the
    monthly rate [taxa > 0] that runs its regular course with the
    instalment [pf]: with [q = 1 + taxa], the balance left after month [m]
    is [principal * (q^meses - q^m) / (q^meses - 1)], the interest is
    charged on the balance left by the month before, and the amortization
    is the rest of the instalment. *)
Definition linha_price_regular (principal taxa pf : Q) (meses : Z) (l : Linha Q) : Prop :=
  let q := (1 + taxa)%Q in
  (L_Parcela l == pf)%Q /\
  (L_Juros l == principal * (q ^ meses - q ^ (L_Mes l - 1)) / (q ^ meses - 1) * taxa)%Q /\
  (L_Amortizacao l == pf - L_Juros l)%Q /\
  (L_Saldo_Devedor l == principal * (q ^ meses - q ^ L_Mes l) / (q ^ meses - 1))%Q.

(** Equations between injected integers, by computation on numerators. *)
Ltac inj_Z :=
  unfold Qeq, Qminus, Qplus, Qopp, Qmult, inject_Z; cbn [Qnum Qden Pos.mul]; lia.

(* ================================================================== *)
(** ** Loops *)

Lemma py_range_nil (lo hi : Z) : hi <= lo -> py_range lo hi = [].
Proof.
  intros H. unfold py_range.
  replace (Z.to_nat (hi - lo)) with 0%nat by lia. reflexivity.
Qed.

Lemma py_range_snoc (k : Z) :
  0 <= k -> py_range 1 (k + 1 + 1) = py_range 1 (k + 1) ++ [k + 1].
Proof.
  intros H. unfold py_range.
  replace (Z.to_nat (k + 1 + 1 - 1)) with (S (Z.to_nat k)) by lia.
  replace (Z.to_nat (k + 1 - 1)) with (Z.to_nat k) by lia.
  rewrite seq_S, map_app. cbn [map]. f_equal. f_equal. lia.
Qed.

Lemma py_range_length (k : Z) : length (py_range 1 (k + 1)) = Z.to_nat k.
Proof.
  unfold py_range. rewrite length_map, length_seq. f_equal. lia.
Qed.

Lemma for_each_app {S I : Type} (body : S -> I -> result S) (l1 l2 : list I) (s : S) :
  for_each body (l1 ++ l2) s = (s' <- for_each body l1 s ;; for_each body l2 s').
Proof.
  revert s. induction l1 as [|i l1 IH]; intros s; simpl; [reflexivity|].
  destruct (body s i) as [s'|e]; simpl; [apply IH | reflexivity].
Qed.

Lemma for_each_ext {S I : Type} (f g : S -> I -> result S) (l : list I) (s : S) :
  (forall s' i, f s' i = g s' i) -> for_each f l s = for_each g l s.
Proof.
  intros H. revert s. induction l as [|i l IH]; intros s; simpl; [reflexivity|].
  rewrite H. destruct (g s i); simpl; [apply IH | reflexivity].
Qed.

(** Induction over the number of months already processed. *)
Lemma meses_ind (P : Z -> Prop) :
  P 0 -> (forall k, 0 <= k -> P k -> P (k + 1)) -> forall k, 0 <= k -> P k.
Proof.
  intros H0 HS k Hk. apply natlike_ind; [exact H0| |exact Hk].
  intros x Hx Px. apply HS; assumption.
Qed.

(* ================================================================== *)
(** ** The tax table *)

(** C6.  The regressive table is exact at its bracket boundaries: the tax
    on a yield [Y] held 6 months is 0.225 Y, held 7 or 12 months 0.20 Y,
    held 13 or 24 months 0.175 Y, and held 25 months 0.15 Y. *)
Theorem ir_regressivo_nas_fronteiras (Y : Q) :
  (calcular_ir_regressivo QA 6 Y == 0.225 * Y /\
   calcular_ir_regressivo QA 7 Y == 0.20 * Y /\
   calcular_ir_regressivo QA 12 Y == 0.20 * Y /\
   calcular_ir_regressivo QA 13 Y == 0.175 * Y /\
   calcular_ir_regressivo QA 24 Y == 0.175 * Y /\
   calcular_ir_regressivo QA 25 Y == 0.15 * Y)%Q.
Proof.
  unfold calcular_ir_regressivo, aliquota; cbn [Z.leb Z.compare Pos.compare
    Pos.compare_cont mul dec QA].
  repeat split; ring.
Qed.

(** The table for every arithmetic: the tax is the product of the yield
    with the literal of the bracket, in this order. *)
Lemma ir_regressivo_produto (A : Arith) (meses : Z) (Y : num A) :
  calcular_ir_regressivo A meses Y = mul Y (dec (aliquota meses)).
Proof. reflexivity. Qed.

(** The same boundaries in binary64, for every float [Y]: the tax is the
    rounded product of [Y] with the float nearest to the bracket's rate. *)
Lemma ir_regressivo_nas_fronteiras_b64 (Y : PrimFloat.float) :
  calcular_ir_regressivo B64 6 Y = (Y * 0.225)%float /\
  calcular_ir_regressivo B64 7 Y = (Y * 0.20)%float /\
  calcular_ir_regressivo B64 12 Y = (Y * 0.20)%float /\
  calcular_ir_regressivo B64 13 Y = (Y * 0.175)%float /\
  calcular_ir_regressivo B64 24 Y = (Y * 0.175)%float /\
  calcular_ir_regressivo B64 25 Y = (Y * 0.15)%float.
Proof.
  rewrite !ir_regressivo_produto. cbn [mul dec B64].
  repeat split; f_equal; vm_compute; reflexivity.
Qed.

(* ================================================================== *)
(** ** The growth simulator: control flow *)

Section Simulador.

Variable A : Arith.

Lemma df_loc_vazio {R : Type} (k : Z) : df_loc (@nil R) k = Raise KeyError.
Proof.
  unfold df_loc. destruct (k <? 0); [reflexivity|].
  destruct (Z.to_nat k); reflexivity.
Qed.

(** C2, as the code has it.  With [meses <= 0] the simulator never returns
    a result.  It first converts the annual rate, then runs the loop over
    the empty range, and fails when it looks up row [meses - 1] of the
    empty frame: the error is the [KeyError] of that lookup (or whatever
    the rate conversion raised before it), never a validation error. *)
Theorem simular_sem_meses_KeyError
    (valor_inicial : num A) (tipo_aporte : string)
    (aporte_mensal_base variacao_aporte : num A)
    (aportes_customizados : list (Z * num A))
    (taxa_anual_base variacao_taxa_mensal : num A)
    (meses : Z) (incide_ir : bool) :
  meses <= 0 ->
  simular_investimento_detalhado A valor_inicial tipo_aporte aporte_mensal_base
    variacao_aporte aportes_customizados taxa_anual_base variacao_taxa_mensal
    meses incide_ir
  = match pow (add (of_Z 1) taxa_anual_base) (dec (1 # 12)) with
    | Ok _ => Raise KeyError
    | Raise e => Raise e
    end.
Proof.
  intros Hm. unfold simular_investimento_detalhado.
  destruct (pow (add (of_Z 1) taxa_anual_base) (dec (1 # 12))) as [raiz|e];
    [|reflexivity].
  cbn [bind]. rewrite py_range_nil by lia. cbn [for_each bind dados_mensais].
  rewrite df_loc_vazio. reflexivity.
Qed.

(** A tag outside the four known ones falls to the last [else]. *)
Lemma aporte_do_mes_desconhecido (tipo_aporte : string) (base variacao : num A)
    (custom : list (Z * num A)) (mes : Z) :
  tipo_aporte <> "Fixo"%string ->
  tipo_aporte <> "Variação Linear"%string ->
  tipo_aporte <> "Variação Percentual"%string ->
  tipo_aporte <> "Aportes Customizados"%string ->
  aporte_do_mes A tipo_aporte base variacao custom mes = Ok base.
Proof.
  intros H1 H2 H3 H4. unfold aporte_do_mes.
  apply String.eqb_neq in H1, H2, H3, H4. rewrite H1, H2, H3, H4. reflexivity.
Qed.

(** The loop goes through whenever the contribution of each month is
    computed without an exception, and appends one row per month. *)
Lemma simular_laco_total (tipo_aporte : string) (base variacao : num A)
    (custom : list (Z * num A)) (drift : num A) (l : list Z) :
  (forall mes, In mes l ->
     exists a, aporte_do_mes A tipo_aporte base variacao custom mes = Ok a) ->
  forall st, exists fim,
    for_each (simular_mes A tipo_aporte base variacao custom drift) l st = Ok fim /\
    length (dados_mensais fim) = (length (dados_mensais st) + length l)%nat.
Proof.
  induction l as [|mes l IH]; intros Hap st.
  - exists st. split; [reflexivity | cbn; lia].
  - destruct (Hap mes (or_introl eq_refl)) as [a Ha].
    cbn [for_each]. unfold simular_mes at 1. rewrite Ha. cbn [bind].
    match goal with |- context [for_each _ l ?s] =>
      destruct (IH (fun m Hm => Hap m (or_intror Hm)) s) as [fim [Hf Hl]] end.
    exists fim. split; [exact Hf|].
    rewrite Hl. cbn [dados_mensais]. rewrite length_app. cbn. lia.
Qed.

(** Every row of a run under the fixed policy carries the base amount. *)
Lemma simular_laco_fixo_aportes (base variacao : num A)
    (custom : list (Z * num A)) (drift : num A) (l : list Z) :
  forall st fim,
    for_each (simular_mes A "Fixo" base variacao custom drift) l st = Ok fim ->
    Forall (fun r => Aporte r = base) (dados_mensais st) ->
    Forall (fun r => Aporte r = base) (dados_mensais fim).
Proof.
  induction l as [|mes l IH]; intros st fim Hf Hst.
  - cbn in Hf. injection Hf as <-. exact Hst.
  - cbn [for_each] in Hf. unfold simular_mes at 1 in Hf. cbn [aporte_do_mes] in Hf.
    change ("Fixo" =? "Fixo")%string with true in Hf. cbn [bind] in Hf.
    eapply IH; [exact Hf|]. cbn [dados_mensais].
    apply Forall_app. split; [exact Hst|]. constructor; [reflexivity|constructor].
Qed.

(** What the code after the loop does with the frame, once the loop has
    produced one row per month. *)
Lemma simular_apos_laco
    (valor_inicial : num A) (tipo_aporte : string)
    (base variacao : num A) (custom : list (Z * num A))
    (taxa_anual_base drift : num A) (meses : Z) (incide_ir : bool)
    (raiz : num A) (fim : Estado (num A)) :
  0 < meses ->
  pow (add (of_Z 1) taxa_anual_base) (dec (1 # 12)) = Ok raiz ->
  for_each (simular_mes A tipo_aporte base variacao custom drift)
    (py_range 1 (meses + 1))
    {| saldo := valor_inicial; capital_total := valor_inicial;
       taxa_mensal := sub raiz (of_Z 1); dados_mensais := [] |} = Ok fim ->
  length (dados_mensais fim) = Z.to_nat meses ->
  exists ultimo,
    nth_error (dados_mensais fim) (Z.to_nat (meses - 1)) = Some ultimo /\
    let investido := add valor_inicial (col_sum A Aporte (dados_mensais fim)) in
    let ir := if incide_ir
              then calcular_ir_regressivo A meses (sub (Saldo_Bruto ultimo) investido)
              else dec 0 in
    simular_investimento_detalhado A valor_inicial tipo_aporte base variacao custom
      taxa_anual_base drift meses incide_ir
    = Ok {| saldo_bruto := Saldo_Bruto ultimo;
            ir_pago := ir;
            saldo_liquido := sub (Saldo_Bruto ultimo) ir;
            df_detalhado := dados_mensais fim;
            capital_investido := investido |}.
Proof.
  intros Hm Hpow Hlaco Hlen.
  destruct (nth_error (dados_mensais fim) (Z.to_nat (meses - 1))) as [ultimo|] eqn:Hn.
  - exists ultimo. split; [reflexivity|].
    unfold simular_investimento_detalhado. rewrite Hpow. cbn [bind].
    rewrite Hlaco. cbn [bind]. unfold df_loc.
    replace (meses - 1 <? 0) with false by (symmetry; apply Z.ltb_ge; lia).
    rewrite Hn. reflexivity.
  - apply nth_error_None in Hn. lia.
Qed.

(** C9.  A contribution tag that is none of the four known ones is not
    rejected: the run is the run of the fixed policy, with the base amount
    in every row, and it returns a result whenever there is at least one
    month and the rate conversion goes through. *)
Theorem simular_tipo_desconhecido_e_fixo
    (valor_inicial : num A) (tipo_aporte : string)
    (base variacao : num A) (custom : list (Z * num A))
    (taxa_anual_base drift : num A) (meses : Z) (incide_ir : bool) :
  tipo_aporte <> "Fixo"%string ->
  tipo_aporte <> "Variação Linear"%string ->
  tipo_aporte <> "Variação Percentual"%string ->
  tipo_aporte <> "Aportes Customizados"%string ->
  simular_investimento_detalhado A valor_inicial tipo_aporte base variacao custom
    taxa_anual_base drift meses incide_ir
  = simular_investimento_detalhado A valor_inicial "Fixo" base variacao custom
      taxa_anual_base drift meses incide_ir
  /\ (forall r,
        simular_investimento_detalhado A valor_inicial tipo_aporte base variacao
          custom taxa_anual_base drift meses incide_ir = Ok r ->
        Forall (fun reg => Aporte reg = base) (df_detalhado r))
  /\ (0 < meses ->
      (exists raiz, pow (add (of_Z 1) taxa_anual_base) (dec (1 # 12)) = Ok raiz) ->
      exists r,
        simular_investimento_detalhado A valor_inicial tipo_aporte base variacao
          custom taxa_anual_base drift meses incide_ir = Ok r /\
        length (df_detalhado r) = Z.to_nat meses).
Proof.
  intros H1 H2 H3 H4.
  assert (Heq : simular_investimento_detalhado A valor_inicial tipo_aporte base
                  variacao custom taxa_anual_base drift meses incide_ir
                = simular_investimento_detalhado A valor_inicial "Fixo" base
                    variacao custom taxa_anual_base drift meses incide_ir).
  { unfold simular_investimento_detalhado.
    destruct (pow (add (of_Z 1) taxa_anual_base) (dec (1 # 12))) as [raiz|e];
      [|reflexivity].
    cbn [bind]. erewrite for_each_ext; [reflexivity|].
    intros st mes. unfold simular_mes.
    rewrite aporte_do_mes_desconhecido by assumption. reflexivity. }
  split; [exact Heq|]. rewrite Heq. split.
  - intros r Hr. unfold simular_investimento_detalhado in Hr.
    destruct (pow (add (of_Z 1) taxa_anual_base) (dec (1 # 12))) as [raiz|e];
      [|discriminate].
    cbn [bind] in Hr.
    destruct (for_each _ _ _) as [fim|e] eqn:Hlaco; [|discriminate].
    cbn [bind] in Hr.
    destruct (df_loc _ _) as [ultimo|e]; [|discriminate].
    cbn [bind] in Hr. injection Hr as <-. cbn [df_detalhado].
    eapply simular_laco_fixo_aportes; [exact Hlaco|]. constructor.
  - intros Hm [raiz Hpow].
    destruct (simular_laco_total "Fixo" base variacao custom drift
                (py_range 1 (meses + 1))
                (fun mes _ => ex_intro _ base eq_refl)
                {| saldo := valor_inicial; capital_total := valor_inicial;
                   taxa_mensal := sub raiz (of_Z 1); dados_mensais := [] |})
      as [fim [Hlaco Hlen]].
    cbn [dados_mensais length] in Hlen. rewrite py_range_length in Hlen.
    destruct (simular_apos_laco valor_inicial "Fixo" base variacao custom
                taxa_anual_base drift meses incide_ir raiz fim Hm Hpow Hlaco Hlen)
      as [ultimo [_ Hr]].
    eexists. split; [exact Hr|]. exact Hlen.
Qed.

End Simulador.

(* ================================================================== *)
(** ** The growth simulator in exact arithmetic *)

Lemma py_range_desde_1 (mes hi : Z) : In mes (py_range 1 hi) -> 1 <= mes.
Proof.
  unfold py_range. intros H. apply in_map_iff in H. destruct H as [i [<- _]]. lia.
Qed.

(** The twelfth root of a non-negative rational is defined. *)
Lemma Q_pow_twelfth (x : Q) : (0 <= x)%Q -> exists r, Q_pow x (1 # 12) = Ok r.
Proof.
  intros Hx. unfold Q_pow.
  change (Qred (1 # 12)) with (1 # 12)%Q. cbn [Qden Qnum].
  apply Qle_bool_iff in Hx. rewrite Hx. cbn [negb].
  unfold Q_powi. change (1 <? 0) with false. rewrite andb_false_r.
  cbn [bind]. eexists. reflexivity.
Qed.

(** In exact arithmetic no contribution policy raises from month 1 on. *)
Lemma aporte_do_mes_QA_total (tipo_aporte : string) (base variacao : Q)
    (custom : list (Z * Q)) (mes : Z) :
  1 <= mes -> exists a, aporte_do_mes QA tipo_aporte base variacao custom mes = Ok a.
Proof.
  intros Hm. unfold aporte_do_mes.
  destruct (tipo_aporte =? "Fixo")%string; [eexists; reflexivity|].
  destruct (tipo_aporte =? "Variação Linear")%string; [eexists; reflexivity|].
  destruct (tipo_aporte =? "Variação Percentual")%string.
  - cbn [powi QA]. unfold Q_powi.
    replace ((mes - 1) / 12 <? 0) with false.
    + rewrite andb_false_r. cbn [bind]. eexists. reflexivity.
    + symmetry. apply Z.ltb_ge. apply Z.div_pos; lia.
  - destruct (tipo_aporte =? "Aportes Customizados")%string; eexists; reflexivity.
Qed.

Lemma aliquota_positiva (meses : Z) : (0 < aliquota meses)%Q.
Proof.
  unfold aliquota.
  destruct (meses <=? 6); [reflexivity|].
  destruct (meses <=? 12); [reflexivity|].
  destruct (meses <=? 24); reflexivity.
Qed.


(** With a zero annual rate the monthly rate is zero. *)
Lemma Q_pow_um : Q_pow (inject_Z 1 + 0) (1 # 12) = Ok 1%Q.
Proof. vm_compute. reflexivity. Qed.

(** The loop of the fixed policy at rate zero and no drift: after [k]
    months the balance is [valor_inicial + c * k], and so is the balance
    recorded in row [k]. *)
Lemma simular_laco_fixo_taxa_zero (valor_inicial c variacao : Q)
    (custom : list (Z * Q)) (k : Z) :
  0 <= k ->
  exists st,
    for_each (simular_mes QA "Fixo" c variacao custom 0%Q) (py_range 1 (k + 1))
      (Build_Estado valor_inicial valor_inicial (1 - inject_Z 1)%Q []) = Ok st /\
    (saldo st == valor_inicial + c * inject_Z k)%Q /\
    (taxa_mensal st == 0)%Q /\
    length (dados_mensais st) = Z.to_nat k /\
    (forall i r, nth_error (dados_mensais st) i = Some r ->
       (Saldo_Bruto r == valor_inicial + c * inject_Z (Z.of_nat i + 1))%Q).
Proof.
  revert k. apply meses_ind.
  - eexists. split; [reflexivity|]. cbn [saldo taxa_mensal dados_mensais].
    split; [change (inject_Z 0) with 0%Q; ring|].
    split; [reflexivity|]. split; [reflexivity|].
    intros [|i] r Hr; discriminate.
  - intros k Hk [st [Hlaco [Hs [Ht [Hlen Hrows]]]]].
    rewrite py_range_snoc by exact Hk. rewrite for_each_app, Hlaco.
    cbn [bind for_each]. unfold simular_mes. cbn [aporte_do_mes].
    change ("Fixo" =? "Fixo")%string with true. cbn [bind].
    eexists. split; [reflexivity|].
    cbn [saldo taxa_mensal dados_mensais add mul of_Z QA].
    assert (Hs' : (saldo st + (saldo st * taxa_mensal st + c)
                   == valor_inicial + c * inject_Z (k + 1))%Q).
    { rewrite Ht, Hs, inject_Z_plus. change (inject_Z 1) with 1%Q. ring. }
    split; [exact Hs'|].
    split; [rewrite Ht; ring|].
    split; [rewrite length_app, Hlen; cbn; lia|].
    intros i r Hr.
    destruct (Nat.lt_ge_cases i (length (dados_mensais st))) as [Hi|Hi].
    + rewrite nth_error_app1 in Hr by exact Hi. exact (Hrows i r Hr).
    + rewrite nth_error_app2 in Hr by exact Hi.
      destruct (i - length (dados_mensais st))%nat as [|j] eqn:Hj.
      * cbn in Hr. injection Hr as <-. cbn [Saldo_Bruto].
        replace (Z.of_nat i + 1) with (k + 1) by lia. exact Hs'.
      * destruct j; discriminate.
Qed.

(** C8, in exact arithmetic.  Under the fixed policy, a zero annual rate
    and no drift, a run over [n >= 1] months returns a gross balance equal
    to [valor_inicial + c * n]. *)
Theorem simular_fixo_taxa_zero
    (valor_inicial c variacao : Q) (custom : list (Z * Q)) (n : Z)
    (incide_ir : bool) :
  1 <= n ->
  exists r,
    simular_investimento_detalhado QA valor_inicial "Fixo" c variacao custom
      0%Q 0%Q n incide_ir = Ok r /\
    (saldo_bruto r == valor_inicial + c * inject_Z n)%Q.
Proof.
  intros Hn.
  destruct (simular_laco_fixo_taxa_zero valor_inicial c variacao custom n)
    as [st [Hlaco [_ [_ [Hlen Hrows]]]]]; [lia|].
  destruct (simular_apos_laco QA valor_inicial "Fixo" c variacao custom
              0%Q 0%Q n incide_ir 1%Q st) as [ultimo [Hult Hr]];
    [lia | exact Q_pow_um | exact Hlaco | exact Hlen |].
  eexists. split; [exact Hr|]. cbn [saldo_bruto].
  rewrite (Hrows _ _ Hult). replace (Z.of_nat (Z.to_nat (n - 1)) + 1) with n by lia.
  reflexivity.
Qed.

(* ================================================================== *)
(** ** The amortization tables: control flow *)

Section Amortizacao.

Variable A : Arith.

Lemma sac_ate_passo (principal taxa fixa extra : num A) (lista : list Z) (k : Z) :
  0 <= k ->
  sac_ate A principal taxa fixa extra lista (k + 1)
  = sac_mes A taxa fixa extra lista (sac_ate A principal taxa fixa extra lista k) (k + 1).
Proof.
  intros Hk. unfold sac_ate. rewrite py_range_snoc by exact Hk.
  rewrite fold_left_app. reflexivity.
Qed.

Lemma price_ate_passo (principal taxa pf extra : num A) (lista : list Z) (k : Z) :
  0 <= k ->
  price_ate A principal taxa pf extra lista (k + 1)
  = price_mes A taxa pf extra lista (price_ate A principal taxa pf extra lista k) (k + 1).
Proof.
  intros Hk. unfold price_ate. rewrite py_range_snoc by exact Hk.
  rewrite fold_left_app. reflexivity.
Qed.

(** The clamp of [calcular_sac]: in a month whose balance is open and
    whose tentative balance is negative, the row records the previous
    balance minus the extra of the month PLUS the interest as the
    amortization, a zero balance, and that amortization plus the interest
    once more as the instalment. *)
Lemma sac_mes_ajuste (taxa fixa extra : num A) (lista : list Z)
    (st : Financiamento (num A)) (mes : Z) :
  leb (saldo_devedor st) (of_Z 0) = false ->
  ltb (sub (saldo_devedor st)
         (if py_in mes lista then add fixa extra else fixa)) (of_Z 0) = true ->
  let juros := mul (saldo_devedor st) taxa in
  let amortizacao :=
    add (sub (saldo_devedor st) (extra_do_mes A extra lista mes)) juros in
  let depois := sac_mes A taxa fixa extra lista st mes in
  tabela depois = tabela st ++
    [ {| L_Mes := mes; L_Juros := juros; L_Amortizacao := amortizacao;
         L_Parcela := add amortizacao juros; L_Saldo_Devedor := of_Z 0 |} ] /\
  saldo_devedor depois = of_Z 0.
Proof.
  intros Hab Hneg. cbv zeta. unfold sac_mes. rewrite Hab, Hneg.
  split; reflexivity.
Qed.

(** What one month of [calcular_price] records: a row for that month,
    which carries the fixed instalment when the balance is open, while
    the running total grows by the instalment plus the extra of the
    month; a closed balance gets the zero row and leaves the total. *)
Lemma price_mes_registra (taxa pf extra : num A) (lista : list Z)
    (st : Financiamento (num A)) (mes : Z) :
  exists l,
    tabela (price_mes A taxa pf extra lista st mes) = tabela st ++ [l] /\
    L_Mes l = mes /\
    (leb (saldo_devedor st) (of_Z 0) = false ->
       L_Parcela l = pf /\
       parcela_total (price_mes A taxa pf extra lista st mes)
       = add (parcela_total st) (add pf (extra_do_mes A extra lista mes))) /\
    (leb (saldo_devedor st) (of_Z 0) = true ->
       l = linha_zerada A mes /\
       parcela_total (price_mes A taxa pf extra lista st mes) = parcela_total st).
Proof.
  unfold price_mes.
  destruct (leb (saldo_devedor st) (of_Z 0)) eqn:Hab.
  - eexists. split; [reflexivity|]. split; [reflexivity|].
    split; [discriminate|]. intros _. split; reflexivity.
  - match goal with |- context [if ltb ?x ?y then _ else _] =>
      destruct (ltb x y) end;
      (eexists; split; [reflexivity|]; split; [reflexivity|];
       split; [intros _; split; reflexivity | discriminate]).
Qed.

Lemma price_tabela_length (principal taxa pf extra : num A) (lista : list Z) (k : Z) :
  0 <= k ->
  length (tabela (price_ate A principal taxa pf extra lista k)) = Z.to_nat k.
Proof.
  revert k. apply meses_ind; [reflexivity|].
  intros k Hk IH. rewrite price_ate_passo by exact Hk.
  destruct (price_mes_registra taxa pf extra lista
              (price_ate A principal taxa pf extra lista k) (k + 1))
    as [l [Htab _]].
  rewrite Htab, length_app, IH. cbn. lia.
Qed.

(** Rows are only appended: a row present after [k] months is still there
    after [k + d] months. *)
Lemma price_linha_estavel (principal taxa pf extra : num A) (lista : list Z)
    (k : Z) (i : nat) (l : Linha (num A)) :
  0 <= k ->
  nth_error (tabela (price_ate A principal taxa pf extra lista k)) i = Some l ->
  forall d, 0 <= d ->
    nth_error (tabela (price_ate A principal taxa pf extra lista (k + d))) i = Some l.
Proof.
  intros Hk Hl. apply meses_ind.
  - rewrite Z.add_0_r. exact Hl.
  - intros d Hd IH. rewrite Z.add_assoc, price_ate_passo by lia.
    destruct (price_mes_registra taxa pf extra lista
                (price_ate A principal taxa pf extra lista (k + d)) (k + d + 1))
      as [l' [Htab _]].
    rewrite Htab. rewrite nth_error_app1; [exact IH|].
    apply nth_error_Some. rewrite IH. discriminate.
Qed.

(** The row of month [mes] in the table after [meses] months, and the
    step of the running total in that month. *)
Lemma price_linha_do_mes (principal taxa pf extra : num A) (lista : list Z)
    (meses mes : Z) :
  1 <= mes <= meses ->
  let antes := price_ate A principal taxa pf extra lista (mes - 1) in
  let depois := price_ate A principal taxa pf extra lista mes in
  exists l,
    nth_error (tabela (price_ate A principal taxa pf extra lista meses))
      (Z.to_nat (mes - 1)) = Some l /\
    L_Mes l = mes /\
    (leb (saldo_devedor antes) (of_Z 0) = false ->
       L_Parcela l = pf /\
       parcela_total depois
       = add (parcela_total antes) (add pf (extra_do_mes A extra lista mes))) /\
    (leb (saldo_devedor antes) (of_Z 0) = true ->
       l = linha_zerada A mes /\ parcela_total depois = parcela_total antes).
Proof.
  intros Hmes. cbv zeta.
  assert (Hk : exists k, mes = k + 1 /\ 0 <= k) by (exists (mes - 1); lia).
  destruct Hk as [k [-> Hk]].
  replace (k + 1 - 1) with k by lia.
  rewrite price_ate_passo by exact Hk.
  destruct (price_mes_registra taxa pf extra lista
              (price_ate A principal taxa pf extra lista k) (k + 1))
    as [l [Htab [Hmesl [Hab Hfe]]]].
  exists l. split; [|split; [exact Hmesl|split; [exact Hab|exact Hfe]]].
  replace meses with (k + 1 + (meses - (k + 1))) by lia.
  apply price_linha_estavel; [lia| |lia].
  rewrite price_ate_passo by exact Hk. rewrite Htab.
  rewrite nth_error_app2 by (rewrite price_tabela_length by exact Hk; lia).
  rewrite price_tabela_length by exact Hk. rewrite Nat.sub_diag. reflexivity.
Qed.

End Amortizacao.

(* ================================================================== *)
(** ** The Price table in exact arithmetic *)

(** In exact arithmetic the only exception of the annuity formula is the
    division by zero, which the [except] clause turns into 0. *)
Lemma parcela_fixa_QA_total (principal taxa : Q) (meses : Z) :
  exists pf, calcular_parcela_fixa QA principal taxa meses = Ok pf.
Proof.
  unfold calcular_parcela_fixa. cbn [powi div QA]. unfold Q_powi, Q_div.
  destruct (Qeq_bool _ 0 && (meses <? 0)); cbn [bind]; [eexists; reflexivity|].
  destruct (Qeq_bool _ 0); eexists; reflexivity.
Qed.

(** At rate zero the denominator [(1 + 0) ** meses - 1] is zero, the
    division raises, and the instalment falls back to 0. *)
Lemma parcela_fixa_taxa_zero (principal : Q) (meses : Z) :
  (exists p, powi (a:=QA) (add (a:=QA) (of_Z 1) 0%Q) meses = Ok p /\
             div (a:=QA) (principal * (p * 0))%Q (p - inject_Z 1)%Q
             = Raise ZeroDivisionError) /\
  calcular_parcela_fixa QA principal 0%Q meses = Ok (inject_Z 0).
Proof.
  assert (Hden : Qeq_bool (Qred ((inject_Z 1 + 0) ^ meses) - inject_Z 1) 0 = true).
  { apply Qeq_bool_iff. rewrite Qred_correct.
    change (inject_Z 1 + 0)%Q with 1%Q. rewrite Qpower_1.
    change (inject_Z 1) with 1%Q. ring. }
  split.
  - eexists. cbn [powi add of_Z div QA]. unfold Q_powi, Q_div.
    change (Qeq_bool (inject_Z 1 + 0) 0) with false. cbn [andb].
    split; [reflexivity|]. rewrite Hden. reflexivity.
  - unfold calcular_parcela_fixa. cbn [powi add sub mul of_Z div QA].
    unfold Q_powi, Q_div.
    change (Qeq_bool (inject_Z 1 + 0) 0) with false. cbn [andb bind].
    rewrite Hden. reflexivity.
Qed.

(** C7.  With a monthly rate of zero the Price computation does not raise:
    the annuity formula divides by zero, the exception is caught, the
    instalment is set to 0, and the call returns a table with one row per
    month together with the two totals. *)
Theorem price_taxa_zero_nao_levanta
    (principal : Q) (meses : Z) (extra : Q) (lista : list Z) :
  (0 < principal)%Q ->
  0 < meses ->
  (exists p, powi (a:=QA) (add (a:=QA) (of_Z 1) 0%Q) meses = Ok p /\
             div (a:=QA) (principal * (p * 0))%Q (p - inject_Z 1)%Q
             = Raise ZeroDivisionError) /\
  calcular_parcela_fixa QA principal 0%Q meses = Ok 0%Q /\
  exists tab jt pt,
    calcular_price QA principal 0%Q meses extra lista = Ok (tab, jt, pt) /\
    length tab = Z.to_nat meses.
Proof.
  intros _ Hm.
  destruct (parcela_fixa_taxa_zero principal meses) as [Hdiv Hpf].
  split; [exact Hdiv|]. split; [exact Hpf|].
  unfold calcular_price. rewrite Hpf. cbn [bind].
  do 3 eexists. split; [reflexivity|].
  apply price_tabela_length. lia.
Qed.

(** C5.  [calcular_price] returns, and in its table every month whose
    balance was still open carries the fixed instalment as its payment,
    while the running total of that month grows by the instalment plus
    the extra amount when the month has an extra prepayment, and by the
    instalment alone when it has none.  A month whose balance was already
    closed gets the zero row and leaves the total unchanged. *)
Theorem price_parcela_e_total
    (principal taxa : Q) (meses : Z) (extra : Q) (lista : list Z) :
  exists pf tab jt pt,
    calcular_parcela_fixa QA principal taxa meses = Ok pf /\
    calcular_price QA principal taxa meses extra lista = Ok (tab, jt, pt) /\
    pt = parcela_total (price_ate QA principal taxa pf extra lista meses) /\
    forall mes, 1 <= mes <= meses ->
      let antes := price_ate QA principal taxa pf extra lista (mes - 1) in
      let depois := price_ate QA principal taxa pf extra lista mes in
      exists l,
        nth_error tab (Z.to_nat (mes - 1)) = Some l /\
        L_Mes l = mes /\
        (Qle_bool (saldo_devedor antes) 0 = false ->
           L_Parcela l = pf /\
           (py_in mes lista = true ->
              (parcela_total depois == parcela_total antes + (pf + extra))%Q) /\
           (py_in mes lista = false ->
              (parcela_total depois == parcela_total antes + pf)%Q)) /\
        (Qle_bool (saldo_devedor antes) 0 = true ->
           l = linha_zerada QA mes /\ parcela_total depois = parcela_total antes).
Proof.
  destruct (parcela_fixa_QA_total principal taxa meses) as [pf Hpf].
  exists pf. unfold calcular_price. rewrite Hpf. cbn [bind].
  do 3 eexists. split; [reflexivity|]. split; [reflexivity|]. split; [reflexivity|].
  intros mes Hmes. cbv zeta.
  destruct (price_linha_do_mes QA principal taxa pf extra lista meses mes Hmes)
    as [l [Hl [Hmesl [Hab Hfe]]]].
  exists l. split; [exact Hl|]. split; [exact Hmesl|]. split; [|exact Hfe].
  intros H. destruct (Hab H) as [Hp Hpt]. split; [exact Hp|].
  rewrite Hpt. unfold extra_do_mes. cbn [add of_Z QA].
  split; intros ->; [reflexivity|]. change (inject_Z 0) with 0%Q. ring.
Qed.

(** No extra prepayment: the amount is zero or no month is listed. *)
Lemma sem_extra (extra : Q) (lista : list Z) (mes : Z) :
  (extra == 0)%Q \/ lista = [] ->
  ((if py_in mes lista then extra else 0) == 0)%Q.
Proof.
  intros [H| ->]; [destruct (py_in mes lista); [exact H|reflexivity] | reflexivity].
Qed.

(** The Price loop at rate zero, instalment zero and no extra: nothing
    moves. *)
Lemma price_ate_parado (principal extra : Q) (lista : list Z) (k : Z) :
  (0 < principal)%Q ->
  (extra == 0)%Q \/ lista = [] ->
  0 <= k ->
  let st := price_ate QA principal 0%Q (inject_Z 0) extra lista k in
  (saldo_devedor st == principal)%Q /\
  (juros_total st == 0)%Q /\
  (parcela_total st == 0)%Q /\
  Forall (linha_parada principal) (tabela st).
Proof.
  intros Hp Hex. cbv zeta. revert k. apply meses_ind.
  - cbn. repeat split; try reflexivity. constructor.
  - intros k Hk [Hs [Hj [Hpt Hrows]]].
    rewrite price_ate_passo by exact Hk.
    set (st := price_ate QA principal 0%Q (inject_Z 0) extra lista k) in *.
    pose proof (sem_extra extra lista (k + 1) Hex) as Hsem.
    unfold price_mes, extra_do_mes. cbn [leb ltb add sub mul of_Z QA].
    change (inject_Z 0) with 0%Q.
    assert (Hab : Qle_bool (saldo_devedor st) 0 = false).
    { destruct (Qle_bool (saldo_devedor st) 0) eqn:E; [|reflexivity].
      apply Qle_bool_iff in E. lra. }
    rewrite Hab.
    assert (Hfim : forall saldo_apos_extra sem : Q,
      (saldo_apos_extra == saldo_devedor st)%Q -> (sem == 0)%Q ->
      let novo := (saldo_apos_extra - (0 - saldo_devedor st * 0))%Q in
      let pago := (parcela_total st + (0 + sem))%Q in
      Qle_bool 0 novo = true /\ (novo == principal)%Q /\ (pago == 0)%Q).
    { intros s0 e0 Hs0 He0. cbv zeta.
      split; [apply Qle_bool_iff; lra|]. split; lra. }
    destruct (py_in (k + 1) lista) eqn:Hin; cbv iota in Hsem.
    + destruct (Hfim (saldo_devedor st - extra)%Q extra) as [Hpos [Hnovo Hpago]];
        [lra | exact Hsem |].
      rewrite Hpos. cbn [negb saldo_devedor juros_total parcela_total tabela].
      split; [exact Hnovo|]. split; [lra|]. split; [exact Hpago|].
      apply Forall_app. split; [exact Hrows|].
      constructor; [|constructor]. unfold linha_parada.
      cbn [L_Juros L_Amortizacao L_Parcela L_Saldo_Devedor].
      repeat split; first [lra | exact Hnovo].
    + destruct (Hfim (saldo_devedor st) 0%Q) as [Hpos [Hnovo Hpago]];
        [reflexivity | reflexivity |].
      rewrite Hpos. cbn [negb saldo_devedor juros_total parcela_total tabela].
      split; [exact Hnovo|]. split; [lra|]. split; [exact Hpago|].
      apply Forall_app. split; [exact Hrows|].
      constructor; [|constructor]. unfold linha_parada.
      cbn [L_Juros L_Amortizacao L_Parcela L_Saldo_Devedor].
      repeat split; first [lra | exact Hnovo].
Qed.

(** C10.  With a monthly rate of zero and no extra prepayment (a zero
    amount or no listed month), the Price table of a positive principal
    over [meses > 0] months has exactly [meses] rows, each with interest,
    amortization and payment 0 and the whole principal as remaining
    balance, and both totals are 0: the loan is never paid off. *)
Theorem price_taxa_zero_nao_amortiza
    (principal : Q) (meses : Z) (extra : Q) (lista : list Z) :
  (0 < principal)%Q ->
  0 < meses ->
  (extra == 0)%Q \/ lista = [] ->
  exists tab jt pt,
    calcular_price QA principal 0%Q meses extra lista = Ok (tab, jt, pt) /\
    length tab = Z.to_nat meses /\
    Forall (fun l : Linha Q => (L_Juros l == 0 /\ L_Amortizacao l == 0 /\
                      L_Parcela l == 0 /\ L_Saldo_Devedor l == principal)%Q) tab /\
    (jt == 0)%Q /\ (pt == 0)%Q.
Proof.
  intros Hp Hm Hex.
  destruct (parcela_fixa_taxa_zero principal meses) as [_ Hpf].
  destruct (price_ate_parado principal extra lista meses Hp Hex)
    as [_ [Hj [Hpt Hrows]]]; [lia|].
  unfold calcular_price. rewrite Hpf. cbn [bind].
  do 3 eexists. split; [reflexivity|].
  split; [apply price_tabela_length; lia|].
  split; [exact Hrows|]. split; [exact Hj | exact Hpt].
Qed.

(* ================================================================== *)
(** ** The SAC table in exact arithmetic *)

Lemma col_sum_snoc {R : Type} (col : R -> Q) (df : list R) (r : R) :
  col_sum QA col (df ++ [r]) = (col_sum QA col df + col r)%Q.
Proof. unfold col_sum. rewrite fold_left_app. reflexivity. Qed.

(** The SAC loop without extra prepayment, in exact arithmetic: after
    [k <= meses] months the balance is the share [(meses - k) / meses] of
    the principal and the amortizations recorded so far sum to the rest,
    so the clamp never applies. *)
Lemma sac_ate_sem_extra (principal taxa extra : Q) (lista : list Z) (meses k : Z) :
  (0 < principal)%Q ->
  0 < meses ->
  (extra == 0)%Q \/ lista = [] ->
  0 <= k -> k <= meses ->
  let fixa := (principal / inject_Z meses)%Q in
  let st := sac_ate QA principal taxa fixa extra lista k in
  (saldo_devedor st == inject_Z (meses - k) * fixa)%Q /\
  (col_sum QA L_Amortizacao (tabela st) == inject_Z k * fixa)%Q /\
  length (tabela st) = Z.to_nat k.
Proof.
  intros Hp Hmeses Hex Hk Hkm. cbv zeta. revert k Hk Hkm.
  assert (Hm : (0 < inject_Z meses)%Q).
  { change 0%Q with (inject_Z 0). rewrite <- Zlt_Qlt. exact Hmeses. }
  apply (meses_ind (fun k => k <= meses -> _)).
  - intros _. cbn [sac_ate py_range Z.to_nat seq map fold_left
      financiamento_inicial saldo_devedor tabela col_sum length].
    replace (meses - 0) with meses by lia.
    split; [|split; [|reflexivity]].
    + change (principal == inject_Z meses * (principal / inject_Z meses))%Q.
      field. lra.
    + change (0 == 0 * (principal / inject_Z meses))%Q. ring.
  - intros k Hk IH Hkm. destruct IH as [Hs [Hsum Hlen]]; [lia|].
    rewrite sac_ate_passo by exact Hk.
    set (fixa := (principal / inject_Z meses)%Q) in *.
    set (st := sac_ate QA principal taxa fixa extra lista k) in *.
    assert (Hfixa : (0 < fixa)%Q).
    { unfold fixa. apply Qlt_shift_div_l; [exact Hm | lra]. }
    assert (Hresto : (inject_Z (meses - k) == inject_Z (meses - (k + 1)) + 1)%Q).
    { replace (meses - k) with (meses - (k + 1) + 1) by lia.
      rewrite inject_Z_plus. reflexivity. }
    assert (Hge : (0 <= inject_Z (meses - (k + 1)))%Q).
    { change 0%Q with (inject_Z 0). rewrite <- Zle_Qle. lia. }
    assert (Hprod : (0 <= inject_Z (meses - (k + 1)) * fixa)%Q).
    { apply Qmult_le_0_compat; [exact Hge | apply Qlt_le_weak; exact Hfixa]. }
    assert (Hab : Qle_bool (saldo_devedor st) 0 = false).
    { destruct (Qle_bool (saldo_devedor st) 0) eqn:E; [|reflexivity].
      apply Qle_bool_iff in E. rewrite Hs, Hresto in E.
      assert ((inject_Z (meses - (k + 1)) + 1) * fixa
              == inject_Z (meses - (k + 1)) * fixa + fixa)%Q by ring.
      lra. }
    pose proof (sem_extra extra lista (k + 1) Hex) as Hsem.
    assert (Hfim : forall am : Q, (am == fixa)%Q ->
      Qle_bool 0 (saldo_devedor st - am) = true /\
      (saldo_devedor st - am == inject_Z (meses - (k + 1)) * fixa)%Q /\
      (col_sum QA L_Amortizacao (tabela st) + am == inject_Z (k + 1) * fixa)%Q).
    { intros am Ham.
      assert (Hn : (saldo_devedor st - am == inject_Z (meses - (k + 1)) * fixa)%Q).
      { rewrite Hs, Hresto, Ham. ring. }
      split; [apply Qle_bool_iff; rewrite Hn; exact Hprod|].
      split; [exact Hn|].
      rewrite Hsum, Ham, inject_Z_plus. change (inject_Z 1) with 1%Q. ring. }
    unfold sac_mes. cbn [leb ltb add sub mul of_Z QA].
    change (inject_Z 0) with 0%Q. rewrite Hab.
    destruct (py_in (k + 1) lista) eqn:Hin; cbv iota in Hsem.
    + destruct (Hfim (fixa + extra)%Q) as [Hpos [Hn Hsum']]; [lra|].
      rewrite Hpos. cbn [negb saldo_devedor tabela].
      rewrite col_sum_snoc, length_app, Hlen. cbn [L_Amortizacao length].
      split; [exact Hn|]. split; [exact Hsum' | lia].
    + destruct (Hfim fixa) as [Hpos [Hn Hsum']]; [reflexivity|].
      rewrite Hpos. cbn [negb saldo_devedor tabela].
      rewrite col_sum_snoc, length_app, Hlen. cbn [L_Amortizacao length].
      split; [exact Hn|]. split; [exact Hsum' | lia].
Qed.

(** X21.  Without extra prepayment, and in exact arithmetic, the SAC table
    pays the loan off exactly: it has one row per month, its amortizations
    sum to the principal, and the final balance is zero. *)
Theorem sac_sem_extra_quita_o_principal
    (principal taxa : Q) (meses : Z) (extra : Q) (lista : list Z) :
  (0 < principal)%Q ->
  0 < meses ->
  (extra == 0)%Q \/ lista = [] ->
  exists tab jt pt,
    calcular_sac QA principal taxa meses extra lista = Ok (tab, jt, pt) /\
    length tab = Z.to_nat meses /\
    (col_sum QA L_Amortizacao tab == principal)%Q /\
    (saldo_devedor (sac_ate QA principal taxa (principal / inject_Z meses)%Q
                      extra lista meses) == 0)%Q.
Proof.
  intros Hp Hm Hex.
  assert (Hne : ~ (inject_Z meses == 0)%Q).
  { intros H. unfold Qeq in H. cbn in H. lia. }
  destruct (sac_ate_sem_extra principal taxa extra lista meses meses Hp Hm Hex)
    as [Hs [Hsum Hlen]]; [lia | lia |].
  unfold calcular_sac. cbn [div of_Z QA]. unfold Q_div.
  destruct (Qeq_bool (inject_Z meses) 0) eqn:E;
    [apply Qeq_bool_iff in E; contradiction|].
  cbn [bind]. do 3 eexists. split; [reflexivity|].
  split; [exact Hlen|]. split.
  - rewrite Hsum. field. exact Hne.
  - rewrite Hs, Z.sub_diag. change (inject_Z 0) with 0%Q. ring.
Qed.

(* ================================================================== *)
(** ** Concrete runs *)

(** C1, on a run.  A loan of 1200 at 1 % a month over 3 months with an
    extra 300 in month 1 enters month 3 with a balance of 100 and no extra.
    The tentative balance 100 - 400 is negative, so the clamp applies: the
    previous balance minus the extra is 100, the interest is 1.  The row
    records 101 as amortization (the interest is added to it) and 102 as
    instalment (the interest is added once more), with balance 0. *)
Theorem sac_ajuste_soma_juros_na_amortizacao :
  exists tab jt pt anterior ultima,
    calcular_sac QA 1200%Q (1 # 100)%Q 3 300%Q [1] = Ok (tab, jt, pt) /\
    nth_error tab 1 = Some anterior /\
    nth_error tab 2 = Some ultima /\
    (L_Saldo_Devedor anterior == 100)%Q /\
    py_in 3 [1] = false /\
    (L_Saldo_Devedor anterior - 1200 / 3 < 0)%Q /\
    (L_Juros ultima == 1)%Q /\
    (L_Amortizacao ultima == 101)%Q /\
    (L_Parcela ultima == 102)%Q /\
    (L_Saldo_Devedor ultima == 0)%Q.
Proof.
  do 5 eexists. split; [vm_compute; reflexivity|].
  split; [reflexivity|]. split; [reflexivity|].
  cbn [L_Saldo_Devedor L_Juros L_Amortizacao L_Parcela].
  repeat split; vm_compute; reflexivity.
Qed.

(** C4, on two runs.  In exact arithmetic, the loan of 1200 above records
    the amortizations 700, 400 and 101, which sum to 1201.  In binary64, a
    loan of 1000 at 1 % a month over 12 months with no extra at all ends
    below zero by rounding in month 12, the clamp adds that month's
    interest to the amortization, and the column sums to 1000.83. *)
Theorem sac_soma_das_amortizacoes_excede_principal :
  (exists tab jt pt,
     calcular_sac QA 1200%Q (1 # 100)%Q 3 300%Q [1] = Ok (tab, jt, pt) /\
     (col_sum QA L_Amortizacao tab == 1201)%Q /\
     ~ (Qabs (col_sum QA L_Amortizacao tab - 1200) <= 1 # 1000000)%Q) /\
  (exists tab jt pt,
     calcular_sac B64 1000%float 0.01%float 12 0%float [] = Ok (tab, jt, pt) /\
     col_sum B64 L_Amortizacao tab = 1000.8333333333333%float /\
     PrimFloat.leb (PrimFloat.abs (col_sum B64 L_Amortizacao tab - 1000)%float)
       0.000001%float = false).
Proof.
  split.
  - do 3 eexists. split; [vm_compute; reflexivity|].
    split; [vm_compute; reflexivity|].
    vm_compute. intros H. apply H. reflexivity.
  - do 3 eexists. split; [vm_compute; reflexivity|].
    split; vm_compute; reflexivity.
Qed.

(** The Price table in binary64.  At rate zero the instalment falls back
    to 0 and nothing is amortized; at 1 % a month over 12 months the
    instalment on 100000 is the 8884.88 of the annuity formula. *)
Example price_b64 :
  calcular_parcela_fixa B64 1000%float 0%float 3 = Ok 0%float /\
  calcular_price B64 1000%float 0%float 3 0%float []
  = Ok ([ {| L_Mes := 1; L_Juros := 0; L_Amortizacao := 0; L_Parcela := 0;
             L_Saldo_Devedor := 1000 |};
          {| L_Mes := 2; L_Juros := 0; L_Amortizacao := 0; L_Parcela := 0;
             L_Saldo_Devedor := 1000 |};
          {| L_Mes := 3; L_Juros := 0; L_Amortizacao := 0; L_Parcela := 0;
             L_Saldo_Devedor := 1000 |} ], 0, 0)%float /\
  exists pf,
    calcular_parcela_fixa B64 100000%float 0.01%float 12 = Ok pf /\
    PrimFloat.leb 8884.875%float pf = true /\
    PrimFloat.leb pf 8884.885%float = true.
Proof.
  split; [vm_compute; reflexivity|]. split; [vm_compute; reflexivity|].
  eexists. split; [vm_compute; reflexivity|].
  split; vm_compute; reflexivity.
Qed.

(** C2 fails as stated: with a horizon of 0 months the run ends in the
    [KeyError] of the lookup in the empty frame, not in a validation
    error. *)
Lemma simular_sem_meses_nao_e_ValidationError :
  simular_investimento_detalhado QA 1000%Q "Fixo" 100%Q 0%Q [] (1 # 10)%Q 0%Q 0 false
  = Raise KeyError /\
  simular_investimento_detalhado QA 1000%Q "Fixo" 100%Q 0%Q [] (1 # 10)%Q 0%Q 0 false
  <> Raise ValidationError.
Proof.
  assert (H : simular_investimento_detalhado QA 1000%Q "Fixo" 100%Q 0%Q []
                (1 # 10)%Q 0%Q 0 false = Raise KeyError)
    by (vm_compute; reflexivity).
  split; [exact H|]. rewrite H. discriminate.
Qed.

Lemma simular_sem_meses_KeyError_witness :
  -3 <= 0 /\
  simular_investimento_detalhado QA 1000%Q "Fixo" 100%Q 0%Q [] (1 # 10)%Q 0%Q (-3) true
  = match pow (a:=QA) (add (a:=QA) (of_Z 1) (1 # 10)%Q) (dec (a:=QA) (1 # 12)) with
    | Ok _ => Raise KeyError
    | Raise e => Raise e
    end.
Proof.
  split; [lia|].
  apply (simular_sem_meses_KeyError QA 1000%Q "Fixo" 100%Q 0%Q [] (1 # 10)%Q 0%Q
           (-3) true).
  lia.
Defined.



(** C8 fails as stated in the arithmetic the interpreter runs: ten monthly
    contributions of 0.1 on an empty account at rate zero add up, one
    rounded addition per month, to 0.9999999999999999, while
    [0 + 0.1 * 10] is 1.0.  (The rate conversion of this run raises 1.0 to
    the power 1/12, which is 1.0 whatever the implementation of the
    power.) *)
Lemma simular_fixo_taxa_zero_arredonda :
  exists r,
    simular_investimento_detalhado B64 0%float "Fixo" 0.1%float 0%float []
      0%float 0%float 10 false = Ok r /\
    saldo_bruto r = 0.9999999999999999%float /\
    (0 + 0.1 * 10)%float = 1%float /\
    PrimFloat.eqb (saldo_bruto r) (0 + 0.1 * 10)%float = false.
Proof.
  eexists. split; [vm_compute; reflexivity|].
  cbn [saldo_bruto]. repeat split; vm_compute; reflexivity.
Qed.

Lemma simular_fixo_taxa_zero_witness :
  1 <= 10 /\
  exists r,
    simular_investimento_detalhado QA 0%Q "Fixo" (1 # 10)%Q 0%Q [] 0%Q 0%Q 10 false
    = Ok r /\
    (saldo_bruto r == 0 + (1 # 10) * inject_Z 10)%Q.
Proof.
  split; [lia|].
  apply (simular_fixo_taxa_zero 0%Q (1 # 10)%Q 0%Q [] 10 false). lia.
Defined.

Lemma simular_tipo_desconhecido_e_fixo_witness :
  "Outro"%string <> "Fixo"%string /\
  "Outro"%string <> "Variação Linear"%string /\
  "Outro"%string <> "Variação Percentual"%string /\
  "Outro"%string <> "Aportes Customizados"%string /\
  simular_investimento_detalhado QA 1000%Q "Outro" 100%Q 10%Q [(2, 50%Q)]
    0%Q 0%Q 3 false
  = simular_investimento_detalhado QA 1000%Q "Fixo" 100%Q 10%Q [(2, 50%Q)]
      0%Q 0%Q 3 false.
Proof.
  assert (H1 : "Outro"%string <> "Fixo"%string) by discriminate.
  assert (H2 : "Outro"%string <> "Variação Linear"%string) by discriminate.
  assert (H3 : "Outro"%string <> "Variação Percentual"%string) by discriminate.
  assert (H4 : "Outro"%string <> "Aportes Customizados"%string) by discriminate.
  repeat (split; [assumption|]).
  exact (proj1 (simular_tipo_desconhecido_e_fixo QA 1000%Q "Outro" 100%Q 10%Q
                  [(2, 50%Q)] 0%Q 0%Q 3 false H1 H2 H3 H4)).
Defined.

Lemma price_taxa_zero_nao_levanta_witness :
  (0 < 100000)%Q /\ 0 < 12 /\
  calcular_parcela_fixa QA 100000%Q 0%Q 12 = Ok 0%Q /\
  exists tab jt pt,
    calcular_price QA 100000%Q 0%Q 12 500%Q [3; 6] = Ok (tab, jt, pt) /\
    length tab = Z.to_nat 12.
Proof.
  assert (Hp : (0 < 100000)%Q) by reflexivity.
  assert (Hm : 0 < 12) by lia.
  split; [exact Hp|]. split; [exact Hm|].
  exact (proj2 (price_taxa_zero_nao_levanta 100000%Q 12 500%Q [3; 6] Hp Hm)).
Defined.

Lemma price_taxa_zero_nao_amortiza_witness :
  (0 < 100000)%Q /\ 0 < 12 /\ ((0 == 0)%Q \/ [3; 6] = []) /\
  exists tab jt pt,
    calcular_price QA 100000%Q 0%Q 12 0%Q [3; 6] = Ok (tab, jt, pt) /\
    length tab = Z.to_nat 12 /\
    Forall (fun l : Linha Q => (L_Juros l == 0 /\ L_Amortizacao l == 0 /\
                                 L_Parcela l == 0 /\ L_Saldo_Devedor l == 100000)%Q)
      tab /\
    (jt == 0)%Q /\ (pt == 0)%Q.
Proof.
  assert (Hp : (0 < 100000)%Q) by reflexivity.
  assert (Hm : 0 < 12) by lia.
  assert (Hex : (0 == 0)%Q \/ [3; 6] = []) by (left; reflexivity).
  split; [exact Hp|]. split; [exact Hm|]. split; [exact Hex|].
  exact (price_taxa_zero_nao_amortiza 100000%Q 12 0%Q [3; 6] Hp Hm Hex).
Defined.

(* ================================================================== *)
(** * Further properties *)

(* ================================================================== *)
(** ** Loop invariants *)

(** Induction along a [for] loop over the months [1 .. k]: a property
    that holds before the loop and is kept by every month that does not
    raise holds of the state the loop ends in. *)
Lemma for_each_range_ind {S : Type} (body : S -> Z -> result S)
    (P : Z -> S -> Prop) (inicio : S) :
  P 0 inicio ->
  (forall k s s', 0 <= k -> P k s -> body s (k + 1) = Ok s' -> P (k + 1) s') ->
  forall k, 0 <= k ->
  forall s, for_each body (py_range 1 (k + 1)) inicio = Ok s -> P k s.
Proof.
  intros H0 Hstep. apply (meses_ind (fun k => forall s, _ -> P k s)).
  - intros s Hs. cbn in Hs. injection Hs as <-. exact H0.
  - intros k Hk IH s Hs. rewrite py_range_snoc, for_each_app in Hs by exact Hk.
    destruct (for_each body (py_range 1 (k + 1)) inicio) as [sk|e]; [|discriminate].
    cbn [bind for_each] in Hs.
    destruct (body sk (k + 1)) as [s'|e] eqn:Hb; [|discriminate].
    cbn [bind] in Hs. injection Hs as <-.
    exact (Hstep k sk s' Hk (IH sk eq_refl) Hb).
Qed.

(** The same for a loop that cannot raise. *)
Lemma fold_range_ind {S : Type} (f : S -> Z -> S) (P : Z -> S -> Prop) (inicio : S) :
  P 0 inicio ->
  (forall k s, 0 <= k -> P k s -> P (k + 1) (f s (k + 1))) ->
  forall k, 0 <= k -> P k (fold_left f (py_range 1 (k + 1)) inicio).
Proof.
  intros H0 Hstep. apply meses_ind; [exact H0|].
  intros k Hk IH. rewrite py_range_snoc, fold_left_app by exact Hk.
  apply Hstep; assumption.
Qed.

Lemma py_range_1_nth (k : Z) (i : nat) (mes : Z) :
  nth_error (py_range 1 (k + 1)) i = Some mes -> mes = Z.of_nat i + 1.
Proof.
  unfold py_range. intros H. rewrite nth_error_map in H.
  destruct (nth_error (seq 0 (Z.to_nat (k + 1 - 1))) i) as [j|] eqn:Hj; [|discriminate].
  cbn [option_map] in H.
  assert (Hmes : mes = 1 + Z.of_nat j) by congruence.
  assert (Hi : (i < length (seq 0 (Z.to_nat (k + 1 - 1))))%nat)
    by (apply nth_error_Some; rewrite Hj; discriminate).
  rewrite length_seq in Hi.
  rewrite nth_error_nth' with (d := 0%nat) in Hj by (rewrite length_seq; exact Hi).
  rewrite seq_nth in Hj by exact Hi.
  assert (j = i) by (cbn in Hj; congruence). lia.
Qed.

(* ================================================================== *)
(** ** The ledger of the simulator, for every arithmetic *)

Section Livro.

Variable A : Arith.

Lemma simular_mes_inv (tipo_aporte : string) (base variacao : num A)
    (custom : list (Z * num A)) (drift : num A) (st st' : Estado (num A)) (mes : Z) :
  simular_mes A tipo_aporte base variacao custom drift st mes = Ok st' ->
  exists aporte,
    aporte_do_mes A tipo_aporte base variacao custom mes = Ok aporte /\
    st' = {| saldo := add (saldo st) (add (mul (saldo st) (taxa_mensal st)) aporte);
             capital_total := add (capital_total st) aporte;
             taxa_mensal := mul (taxa_mensal st) (add (of_Z 1) drift);
             dados_mensais := dados_mensais st ++
               [ {| Mes := mes; Aporte := aporte;
                    Juros := mul (saldo st) (taxa_mensal st);
                    Saldo_Bruto := add (saldo st)
                                     (add (mul (saldo st) (taxa_mensal st)) aporte);
                    Capital_Acumulado := add (capital_total st) aporte |} ] |}.
Proof.
  unfold simular_mes. intros H.
  destruct (aporte_do_mes A tipo_aporte base variacao custom mes) as [a|e];
    [|discriminate].
  cbn [bind] in H. injection H as <-. exists a. split; reflexivity.
Qed.

(** What the simulator returns, read back from its three steps. *)
Lemma simular_inv (valor_inicial : num A) (tipo_aporte : string) (base variacao : num A)
    (custom : list (Z * num A)) (taxa_anual_base drift : num A) (meses : Z)
    (incide_ir : bool) (r : Simulacao (num A)) :
  simular_investimento_detalhado A valor_inicial tipo_aporte base variacao custom
    taxa_anual_base drift meses incide_ir = Ok r ->
  exists raiz fim ultimo,
    pow (add (of_Z 1) taxa_anual_base) (dec (1 # 12)) = Ok raiz /\
    for_each (simular_mes A tipo_aporte base variacao custom drift)
      (py_range 1 (meses + 1))
      {| saldo := valor_inicial; capital_total := valor_inicial;
         taxa_mensal := sub raiz (of_Z 1); dados_mensais := [] |} = Ok fim /\
    0 < meses /\
    nth_error (dados_mensais fim) (Z.to_nat (meses - 1)) = Some ultimo /\
    df_detalhado r = dados_mensais fim /\
    saldo_bruto r = Saldo_Bruto ultimo /\
    capital_investido r = add valor_inicial (col_sum A Aporte (dados_mensais fim)) /\
    ir_pago r = (if incide_ir
                 then calcular_ir_regressivo A meses
                        (sub (saldo_bruto r) (capital_investido r))
                 else dec 0) /\
    saldo_liquido r = sub (saldo_bruto r) (ir_pago r).
Proof.
  unfold simular_investimento_detalhado. intros H.
  destruct (pow (add (of_Z 1) taxa_anual_base) (dec (1 # 12))) as [raiz|e];
    [|discriminate].
  cbn [bind] in H.
  destruct (for_each _ _ _) as [fim|e] eqn:Hlaco; [|discriminate].
  cbn [bind] in H. unfold df_loc in H.
  destruct (meses - 1 <? 0) eqn:Hneg; [discriminate|].
  destruct (nth_error (dados_mensais fim) (Z.to_nat (meses - 1))) as [ultimo|] eqn:Hn;
    [|discriminate].
  cbn [bind] in H. injection H as <-.
  exists raiz, fim, ultimo. cbn [df_detalhado saldo_bruto capital_investido ir_pago
    saldo_liquido].
  apply Z.ltb_ge in Hneg.
  repeat split; try reflexivity; try assumption. lia.
Qed.

(** The rows a loop has written: their months are [1 .. k] in order, and
    each carries the contribution its policy gives for its month. *)
Lemma simular_laco_linhas (tipo_aporte : string) (base variacao : num A)
    (custom : list (Z * num A)) (drift : num A) (inicio : Estado (num A)) (k : Z) :
  dados_mensais inicio = [] ->
  0 <= k ->
  forall fim,
    for_each (simular_mes A tipo_aporte base variacao custom drift)
      (py_range 1 (k + 1)) inicio = Ok fim ->
    map Mes (dados_mensais fim) = py_range 1 (k + 1) /\
    Forall (fun reg => aporte_do_mes A tipo_aporte base variacao custom (Mes reg)
                       = Ok (Aporte reg)) (dados_mensais fim).
Proof.
  intros Hini. apply (for_each_range_ind _
    (fun k st => map Mes (dados_mensais st) = py_range 1 (k + 1) /\
                 Forall (fun reg => aporte_do_mes A tipo_aporte base variacao custom
                                      (Mes reg) = Ok (Aporte reg)) (dados_mensais st))).
  - rewrite Hini. split; [reflexivity | constructor].
  - intros j s s' Hj [Hm Hf] Hs.
    apply simular_mes_inv in Hs. destruct Hs as [a [Ha ->]].
    cbn [dados_mensais]. rewrite map_app, Hm, py_range_snoc by exact Hj.
    split; [reflexivity|].
    apply Forall_app. split; [exact Hf|]. constructor; [exact Ha | constructor].
Qed.

Lemma simular_livro (valor_inicial : num A) (tipo_aporte : string)
    (base variacao : num A) (custom : list (Z * num A))
    (taxa_anual_base drift : num A) (meses : Z) (incide_ir : bool)
    (r : Simulacao (num A)) :
  simular_investimento_detalhado A valor_inicial tipo_aporte base variacao custom
    taxa_anual_base drift meses incide_ir = Ok r ->
  map Mes (df_detalhado r) = py_range 1 (meses + 1) /\
  Forall (fun reg => aporte_do_mes A tipo_aporte base variacao custom (Mes reg)
                     = Ok (Aporte reg)) (df_detalhado r) /\
  capital_investido r = add valor_inicial (col_sum A Aporte (df_detalhado r)).
Proof.
  intros H. apply simular_inv in H.
  destruct H as [raiz [fim [ultimo [_ [Hlaco [Hm [_ [Hdf [_ [Hcap _]]]]]]]]]].
  apply simular_laco_linhas in Hlaco; [|reflexivity|lia].
  rewrite Hdf. destruct Hlaco as [Hmes Hap]. repeat split; assumption.
Qed.

(** X1.  When the simulator returns, its ledger has one row per month, the
    months are numbered 1, 2, ..., [meses] in this order, and the
    contribution recorded in a row is the one the contribution policy gives
    for the month of that row. *)
Theorem simular_livro_um_registro_por_mes
    (valor_inicial : num A) (tipo_aporte : string) (base variacao : num A)
    (custom : list (Z * num A)) (taxa_anual_base drift : num A) (meses : Z)
    (incide_ir : bool) (r : Simulacao (num A)) :
  simular_investimento_detalhado A valor_inicial tipo_aporte base variacao custom
    taxa_anual_base drift meses incide_ir = Ok r ->
  length (df_detalhado r) = Z.to_nat meses /\
  map Mes (df_detalhado r) = py_range 1 (meses + 1) /\
  Forall (fun reg => aporte_do_mes A tipo_aporte base variacao custom (Mes reg)
                     = Ok (Aporte reg)) (df_detalhado r).
Proof.
  intros H. destruct (simular_livro _ _ _ _ _ _ _ _ _ _ H) as [Hmes [Hap _]].
  split; [|split; assumption].
  rewrite <- (length_map Mes), Hmes. apply py_range_length.
Qed.

Lemma col_sum_map {R : Type} (col : R -> num A) (df : list R) :
  col_sum A col df = fold_left (fun acc x => add acc x) (map col df) (of_Z 0).
Proof.
  unfold col_sum. generalize (of_Z (a:=A) 0). induction df as [|r df IH]; intros z.
  - reflexivity.
  - cbn [map fold_left]. apply IH.
Qed.

(** Two ledgers of the same policy over the same months carry the same
    contributions. *)
Lemma aportes_determinados (tipo_aporte : string) (base variacao : num A)
    (custom : list (Z * num A)) (df1 df2 : list (Registro (num A))) :
  map Mes df1 = map Mes df2 ->
  Forall (fun reg => aporte_do_mes A tipo_aporte base variacao custom (Mes reg)
                     = Ok (Aporte reg)) df1 ->
  Forall (fun reg => aporte_do_mes A tipo_aporte base variacao custom (Mes reg)
                     = Ok (Aporte reg)) df2 ->
  map Aporte df1 = map Aporte df2.
Proof.
  revert df2. induction df1 as [|r1 df1 IH]; intros [|r2 df2] Hm H1 H2;
    try discriminate; [reflexivity|].
  cbn [map] in *. injection Hm as Hmes Hm.
  inversion H1 as [|? ? Hr1 H1']; subst. inversion H2 as [|? ? Hr2 H2']; subst.
  rewrite Hmes in Hr1. rewrite Hr1 in Hr2. injection Hr2 as ->.
  f_equal. apply IH; assumption.
Qed.

(** X2.  The invested capital and the contributions of the ledger do not
    depend on the interest rate, on its drift or on the tax flag: two runs
    that differ only in these return the same column of contributions and
    the same invested capital. *)
Theorem simular_capital_investido_independe_da_taxa
    (valor_inicial : num A) (tipo_aporte : string) (base variacao : num A)
    (custom : list (Z * num A)) (meses : Z)
    (taxa1 drift1 taxa2 drift2 : num A) (ir1 ir2 : bool)
    (r1 r2 : Simulacao (num A)) :
  simular_investimento_detalhado A valor_inicial tipo_aporte base variacao custom
    taxa1 drift1 meses ir1 = Ok r1 ->
  simular_investimento_detalhado A valor_inicial tipo_aporte base variacao custom
    taxa2 drift2 meses ir2 = Ok r2 ->
  map Aporte (df_detalhado r1) = map Aporte (df_detalhado r2) /\
  capital_investido r1 = capital_investido r2.
Proof.
  intros H1 H2.
  destruct (simular_livro _ _ _ _ _ _ _ _ _ _ H1) as [Hm1 [Ha1 Hc1]].
  destruct (simular_livro _ _ _ _ _ _ _ _ _ _ H2) as [Hm2 [Ha2 Hc2]].
  assert (Hap : map Aporte (df_detalhado r1) = map Aporte (df_detalhado r2)).
  { eapply aportes_determinados; [|exact Ha1|exact Ha2]. rewrite Hm1, Hm2. reflexivity. }
  split; [exact Hap|].
  rewrite Hc1, Hc2, !col_sum_map, Hap. reflexivity.
Qed.

End Livro.

(* ================================================================== *)
(** ** The ledger of the simulator in exact arithmetic *)

Lemma saldo_antes_app (valor_inicial : Q) (df l : list (Registro Q)) (i : nat) :
  (i <= length df)%nat ->
  saldo_antes valor_inicial (df ++ l) i = saldo_antes valor_inicial df i.
Proof.
  destruct i as [|j]; [reflexivity|]. intros Hj. cbn [saldo_antes].
  rewrite nth_error_app1 by lia. reflexivity.
Qed.

Lemma Qpower_succ (a : Q) (k : Z) : 0 <= k -> (a ^ (k + 1) == a ^ k * a)%Q.
Proof.
  intros Hk. rewrite Qpower_plus' by lia. reflexivity.
Qed.

Lemma simular_laco_em_dia (valor_inicial taxa0 : Q) (tipo_aporte : string)
    (base variacao : Q) (custom : list (Z * Q)) (drift : Q) (k : Z) :
  0 <= k ->
  forall fim,
    for_each (simular_mes QA tipo_aporte base variacao custom drift)
      (py_range 1 (k + 1))
      (Build_Estado valor_inicial valor_inicial taxa0 []) = Ok fim ->
    livro_em_dia valor_inicial taxa0 drift k fim.
Proof.
  apply (for_each_range_ind _ (livro_em_dia valor_inicial taxa0 drift)).
  - unfold livro_em_dia. cbn [dados_mensais saldo capital_total taxa_mensal length
      Z.to_nat saldo_antes col_sum fold_left of_Z QA].
    change (inject_Z 0) with 0%Q.
    repeat split; try reflexivity; try ring.
    + intros r Hr. destruct (Z.to_nat (0 - 1)); discriminate.
    + destruct i; discriminate.
    + destruct i; discriminate.
  - intros j st st' Hj [Hlen [Hcap [Hsal [Htx [Hant [Hult Hrows]]]]]] Hst.
    apply (simular_mes_inv QA) in Hst. destruct Hst as [a [_ ->]].
    change (num QA) with Q in *. unfold livro_em_dia.
    cbn [dados_mensais saldo capital_total taxa_mensal add mul of_Z num QA].
    rewrite !col_sum_snoc. cbn [Aporte Juros].
    split; [rewrite length_app, Hlen; cbn [length]; lia|]. split; [rewrite Hcap; ring|].
    split; [rewrite Hsal, Hcap; ring|].
    split; [rewrite Htx, Qpower_succ by exact Hj; change (inject_Z 1) with 1%Q; ring|].
    split.
    { replace (Z.to_nat (j + 1)) with (S (Z.to_nat j)) by lia. cbn [saldo_antes].
      rewrite nth_error_app2 by lia. rewrite Hlen, Nat.sub_diag. reflexivity. }
    split.
    { intros r Hr _. replace (Z.to_nat (j + 1 - 1)) with (Z.to_nat j) in Hr by lia.
      rewrite nth_error_app2 in Hr by lia. rewrite Hlen, Nat.sub_diag in Hr.
      cbn in Hr. injection Hr as <-. reflexivity. }
    intros i r Hr.
    destruct (Nat.lt_ge_cases i (length (dados_mensais st))) as [Hi|Hi].
    + rewrite nth_error_app1 in Hr by exact Hi.
      rewrite saldo_antes_app by lia. exact (Hrows i r Hr).
    + rewrite nth_error_app2 in Hr by exact Hi.
      destruct (i - length (dados_mensais st))%nat as [|n] eqn:Hn;
        [|destruct n; discriminate].
      cbn in Hr. injection Hr as <-. cbn [Juros Saldo_Bruto Aporte].
      assert (Hij : i = Z.to_nat j) by lia. subst i.
      rewrite saldo_antes_app by lia. rewrite Hant, Z2Nat.id by exact Hj.
      split; [rewrite Htx; reflexivity | reflexivity].
Qed.

(** In exact arithmetic the simulator returns for every horizon of at
    least one month and every annual rate from -100 % up, and its result
    is read off a ledger whose books are in order. *)
Lemma simular_QA_em_dia (valor_inicial : Q) (tipo_aporte : string) (base variacao : Q)
    (custom : list (Z * Q)) (taxa_anual_base drift : Q) (meses : Z) (incide_ir : bool) :
  0 < meses ->
  (-1 <= taxa_anual_base)%Q ->
  exists raiz fim ultimo r,
    Q_pow (1 + taxa_anual_base) (1 # 12) = Ok raiz /\
    livro_em_dia valor_inicial (raiz - 1) drift meses fim /\
    nth_error (dados_mensais fim) (Z.to_nat (meses - 1)) = Some ultimo /\
    simular_investimento_detalhado QA valor_inicial tipo_aporte base variacao
      custom taxa_anual_base drift meses incide_ir = Ok r /\
    df_detalhado r = dados_mensais fim /\
    saldo_bruto r = Saldo_Bruto ultimo /\
    capital_investido r
    = (valor_inicial + col_sum QA Aporte (dados_mensais fim))%Q /\
    ir_pago r = (if incide_ir
                 then calcular_ir_regressivo QA meses
                        (saldo_bruto r - capital_investido r)%Q
                 else 0%Q) /\
    saldo_liquido r = (saldo_bruto r - ir_pago r)%Q.
Proof.
  intros Hm Htaxa.
  destruct (Q_pow_twelfth (1 + taxa_anual_base)%Q) as [raiz Hpow]; [lra|].
  destruct (simular_laco_total QA tipo_aporte base variacao custom drift
              (py_range 1 (meses + 1))
              (fun mes Hin => aporte_do_mes_QA_total tipo_aporte base variacao
                                custom mes (py_range_desde_1 _ _ Hin))
              (Build_Estado valor_inicial valor_inicial (raiz - 1)%Q []))
    as [fim [Hlaco Hlen]].
  cbn [dados_mensais length] in Hlen. rewrite py_range_length in Hlen.
  destruct (simular_apos_laco QA valor_inicial tipo_aporte base variacao custom
              taxa_anual_base drift meses incide_ir raiz fim Hm Hpow Hlaco Hlen)
    as [ultimo [Hult Hr]].
  exists raiz, fim, ultimo. eexists.
  split; [exact Hpow|].
  split; [apply (simular_laco_em_dia valor_inicial (raiz - 1)%Q tipo_aporte base
                   variacao custom drift meses); [lia | exact Hlaco]|].
  split; [exact Hult|]. split; [exact Hr|].
  cbn [df_detalhado saldo_bruto capital_investido ir_pago saldo_liquido].
  repeat split; reflexivity.
Qed.

Lemma col_sum_zero {R : Type} (col : R -> Q) (df : list R) :
  Forall (fun r => (col r == 0)%Q) df -> (col_sum QA col df == 0)%Q.
Proof.
  induction df as [|r df IH] using rev_ind; intros H.
  - reflexivity.
  - apply Forall_app in H. destruct H as [Hdf Hr]. inversion Hr as [|? ? Hr0 _]; subst.
    rewrite col_sum_snoc, (IH Hdf), Hr0. reflexivity.
Qed.

Lemma col_sum_nonneg {R : Type} (col : R -> Q) (df : list R) :
  Forall (fun r => (0 <= col r)%Q) df -> (0 <= col_sum QA col df)%Q.
Proof.
  induction df as [|r df IH] using rev_ind; intros H.
  - apply Qle_refl.
  - apply Forall_app in H. destruct H as [Hdf Hr]. inversion Hr as [|? ? Hr0 _]; subst.
    rewrite col_sum_snoc. specialize (IH Hdf). lra.
Qed.

(** X3.  The accounting identity of the simulator, in exact arithmetic: the
    run returns, the gross balance is the balance of the last row, the
    invested capital (initial amount plus the column of contributions) is
    the accumulated capital of the last row, and the gross balance is the
    invested capital plus the column of interest. *)
Theorem simular_identidade_contabil
    (valor_inicial : Q) (tipo_aporte : string) (base variacao : Q)
    (custom : list (Z * Q)) (taxa_anual_base drift : Q) (meses : Z)
    (incide_ir : bool) :
  0 < meses ->
  (-1 <= taxa_anual_base)%Q ->
  exists r ultimo,
    simular_investimento_detalhado QA valor_inicial tipo_aporte base variacao
      custom taxa_anual_base drift meses incide_ir = Ok r /\
    nth_error (df_detalhado r) (Z.to_nat (meses - 1)) = Some ultimo /\
    saldo_bruto r = Saldo_Bruto ultimo /\
    (capital_investido r == Capital_Acumulado ultimo)%Q /\
    (saldo_bruto r == capital_investido r + col_sum QA Juros (df_detalhado r))%Q.
Proof.
  intros Hm Htaxa.
  destruct (simular_QA_em_dia valor_inicial tipo_aporte base variacao custom
              taxa_anual_base drift meses incide_ir Hm Htaxa)
    as [raiz [fim [ultimo [r [_ [Hlivro [Hult [Hr [Hdf [Hbruto [Hcap _]]]]]]]]]]].
  destruct Hlivro as [_ [Hct [Hsal [_ [Hant [Hca _]]]]]].
  exists r, ultimo. change (num QA) with Q in *. rewrite Hdf, Hbruto, Hcap.
  split; [exact Hr|]. split; [exact Hult|]. split; [reflexivity|].
  rewrite (Hca ultimo Hult Hm).
  replace (Z.to_nat meses) with (S (Z.to_nat (meses - 1))) in Hant by lia.
  cbn [saldo_antes] in Hant. rewrite Hult in Hant. rewrite Hant.
  split; [rewrite Hct; reflexivity | rewrite Hsal, Hct; reflexivity].
Qed.

(** X4.  The recurrence of the ledger, in exact arithmetic. With [raiz] the
    twelfth root computed from the annual rate, the interest of the row of
    month [m] is the balance before that month times the monthly rate
    [raiz - 1] times [(1 + drift) ^ (m - 1)], and the balance of the row is
    the balance before it plus that interest plus the contribution. *)
Theorem simular_juros_e_saldo_de_cada_mes
    (valor_inicial : Q) (tipo_aporte : string) (base variacao : Q)
    (custom : list (Z * Q)) (taxa_anual_base drift : Q) (meses : Z)
    (incide_ir : bool) :
  0 < meses ->
  (-1 <= taxa_anual_base)%Q ->
  exists raiz r,
    Q_pow (1 + taxa_anual_base) (1 # 12) = Ok raiz /\
    simular_investimento_detalhado QA valor_inicial tipo_aporte base variacao
      custom taxa_anual_base drift meses incide_ir = Ok r /\
    forall i reg, nth_error (df_detalhado r) i = Some reg ->
      Mes reg = Z.of_nat i + 1 /\
      (Juros reg == saldo_antes valor_inicial (df_detalhado r) i
                    * ((raiz - 1) * (1 + drift) ^ (Mes reg - 1)))%Q /\
      (Saldo_Bruto reg == saldo_antes valor_inicial (df_detalhado r) i
                          + (Juros reg + Aporte reg))%Q.
Proof.
  intros Hm Htaxa.
  destruct (simular_QA_em_dia valor_inicial tipo_aporte base variacao custom
              taxa_anual_base drift meses incide_ir Hm Htaxa)
    as [raiz [fim [ultimo [r [Hpow [Hlivro [_ [Hr [Hdf _]]]]]]]]].
  exists raiz, r. split; [exact Hpow|]. split; [exact Hr|].
  intros i reg Hreg.
  destruct (simular_livro QA _ _ _ _ _ _ _ _ _ _ Hr) as [Hmes _].
  assert (Hi : Mes reg = Z.of_nat i + 1).
  { apply (py_range_1_nth meses). rewrite <- Hmes, nth_error_map, Hreg. reflexivity. }
  split; [exact Hi|]. rewrite Hdf in *.
  destruct Hlivro as [_ [_ [_ [_ [_ [_ Hrows]]]]]].
  destruct (Hrows i reg Hreg) as [Hj Hs].
  replace (Mes reg - 1) with (Z.of_nat i) by lia. split; assumption.
Qed.

(** X5.  A zero annual rate earns nothing, whatever the contribution policy
    and the drift: every row has zero interest, the gross balance is the
    invested capital, the tax is zero and the net balance is the gross
    balance (exact arithmetic). *)
Theorem simular_taxa_zero_sem_rendimento
    (valor_inicial : Q) (tipo_aporte : string) (base variacao : Q)
    (custom : list (Z * Q)) (drift : Q) (meses : Z) (incide_ir : bool) :
  0 < meses ->
  exists r,
    simular_investimento_detalhado QA valor_inicial tipo_aporte base variacao
      custom 0%Q drift meses incide_ir = Ok r /\
    Forall (fun reg : Registro Q => (Juros reg == 0)%Q) (df_detalhado r) /\
    (saldo_bruto r == capital_investido r)%Q /\
    (ir_pago r == 0)%Q /\
    (saldo_liquido r == saldo_bruto r)%Q.
Proof.
  intros Hm.
  destruct (simular_QA_em_dia valor_inicial tipo_aporte base variacao custom
              0%Q drift meses incide_ir Hm) as
    [raiz [fim [ultimo [r [Hpow [Hlivro [Hult [Hr [Hdf [Hbruto [Hcap [Hir Hliq]]]]]]]]]]]];
    [lra|].
  assert (Hraiz : raiz = 1%Q).
  { pose proof Q_pow_um as H1. change (inject_Z 1 + 0)%Q with (1 + 0)%Q in H1.
    rewrite H1 in Hpow. injection Hpow as <-. reflexivity. }
  subst raiz.
  destruct Hlivro as [_ [Hct [Hsal [_ [Hant [_ Hrows]]]]]].
  assert (Hjuros : Forall (fun reg : Registro Q => (Juros reg == 0)%Q) (dados_mensais fim)).
  { apply Forall_forall. intros reg Hin. apply In_nth_error in Hin.
    destruct Hin as [i Hi]. destruct (Hrows i reg Hi) as [Hj _].
    rewrite Hj. ring. }
  assert (Hrend : (saldo_bruto r == capital_investido r)%Q).
  { rewrite Hbruto, Hcap.
    replace (Z.to_nat meses) with (S (Z.to_nat (meses - 1))) in Hant by lia.
    cbn [saldo_antes] in Hant. rewrite Hult in Hant. rewrite Hant, Hsal, Hct.
    rewrite (col_sum_zero Juros _ Hjuros). ring. }
  assert (Hzero : (ir_pago r == 0)%Q).
  { rewrite Hir. destruct incide_ir; [|reflexivity].
    unfold calcular_ir_regressivo. cbn [mul dec QA]. rewrite Hrend. ring. }
  exists r. split; [exact Hr|]. rewrite Hdf. split; [exact Hjuros|].
  split; [exact Hrend|]. split; [exact Hzero|]. rewrite Hliq, Hzero. ring.
Qed.

(* ================================================================== *)
(** ** The root of the exact power *)

Lemma Zroot_bits_ge (k : positive) (a : Z) (bits : nat) (r : Z) :
  r <= Zroot_bits k a bits r.
Proof.
  revert r. induction bits as [|b IH]; intros r; cbn [Zroot_bits]; [lia|].
  assert (0 < 2 ^ Z.of_nat b) by (apply Z.pow_pos_nonneg; lia).
  destruct (_ <=? a); [etransitivity; [|apply IH] | apply IH]. lia.
Qed.

Lemma Zroot_bits_lower (k : positive) (a : Z) (bits : nat) :
  forall r s, 0 <= r -> r <= s < r + 2 ^ Z.of_nat bits -> s ^ Zpos k <= a ->
  s <= Zroot_bits k a bits r.
Proof.
  induction bits as [|b IH]; intros r s Hr Hs Hsa; cbn [Zroot_bits].
  - change (2 ^ Z.of_nat 0) with 1 in Hs. lia.
  - assert (Hp : 0 < 2 ^ Z.of_nat b) by (apply Z.pow_pos_nonneg; lia).
    assert (Hpp : 2 ^ Z.of_nat (S b) = 2 * 2 ^ Z.of_nat b).
    { rewrite Nat2Z.inj_succ, Z.pow_succ_r by lia. reflexivity. }
    destruct (Z.leb_spec ((r + 2 ^ Z.of_nat b) ^ Zpos k) a) as [Hle|Hgt].
    + destruct (Z.le_gt_cases (r + 2 ^ Z.of_nat b) s) as [Hge|Hlt].
      * apply IH; [lia | lia | exact Hsa].
      * pose proof (Zroot_bits_ge k a b (r + 2 ^ Z.of_nat b)). lia.
    + apply IH; [exact Hr | | exact Hsa].
      destruct (Z.le_gt_cases (r + 2 ^ Z.of_nat b) s) as [Hge|Hlt]; [|lia].
      assert ((r + 2 ^ Z.of_nat b) ^ Zpos k <= s ^ Zpos k)
        by (apply Z.pow_le_mono_l; lia).
      lia.
Qed.

(** [Zroot k a] is at least every [s >= 0] whose [k]-th power is at most
    [a]. *)
Lemma Zroot_lower (k : positive) (a s : Z) :
  0 <= s -> s ^ Zpos k <= a -> s <= Zroot k a.
Proof.
  intros Hs Hsa. unfold Zroot.
  destruct (Z.eq_dec s 0) as [->|Hs0]; [apply Zroot_bits_ge|].
  assert (Ha : 0 < a).
  { assert (0 < s ^ Zpos k) by (apply Z.pow_pos_nonneg; lia). lia. }
  pose proof (Z.log2_nonneg a) as Hl.
  pose proof (Z.log2_spec a Ha) as [_ Hlog].
  set (B := Z.log2 a / Zpos k + 1).
  assert (HB : 0 < B) by (unfold B; pose proof (Z.div_pos (Z.log2 a) (Zpos k)); lia).
  apply Zroot_bits_lower; [lia | | exact Hsa].
  rewrite Z2Nat.id by lia. split; [lia|]. cbn [Z.add].
  destruct (Z.lt_ge_cases s (2 ^ B)) as [Hlt|Hge]; [exact Hlt|exfalso].
  assert (H1 : (2 ^ B) ^ Zpos k <= s ^ Zpos k)
    by (apply Z.pow_le_mono_l; split; [apply Z.pow_nonneg; lia | exact Hge]).
  rewrite <- Z.pow_mul_r in H1 by lia.
  assert (H2 : Z.succ (Z.log2 a) <= B * Zpos k).
  { pose proof (Z.mul_succ_div_gt (Z.log2 a) (Zpos k) ltac:(lia)). unfold B. lia. }
  assert (H3 : 2 ^ Z.succ (Z.log2 a) <= 2 ^ (B * Zpos k))
    by (apply Z.pow_le_mono_r; lia).
  lia.
Qed.

(** The twelfth root of a rational that is at least 1 is at least 1. *)
Lemma Q_pow_twelfth_ge_1 (x : Q) :
  (1 <= x)%Q -> exists r, Q_pow x (1 # 12) = Ok r /\ (1 <= r)%Q.
Proof.
  intros Hx. unfold Q_pow.
  change (Qred (1 # 12)) with (1 # 12)%Q. cbn [Qden Qnum].
  assert (H0 : Qle_bool 0 x = true) by (apply Qle_bool_iff; lra).
  rewrite H0. cbn [negb]. unfold Q_powi. change (1 <? 0) with false.
  rewrite andb_false_r. cbn [bind]. eexists. split; [reflexivity|].
  rewrite Qred_correct.
  set (s := 10 ^ 15).
  assert (Hs : 0 < s) by (unfold s; lia).
  assert (Hroot : s <= Zroot 12 (Qfloor (Qred (x ^ 1) * inject_Z (s ^ 12)))).
  { apply Zroot_lower; [lia|].
    rewrite <- (Qfloor_Z (s ^ 12)) at 1. apply Qfloor_resp_le.
    rewrite Qred_correct. change (x ^ 1)%Q with x.
    assert (0 <= inject_Z (s ^ 12))%Q.
    { change 0%Q with (inject_Z 0). rewrite <- Zle_Qle. apply Z.pow_nonneg. lia. }
    setoid_replace (inject_Z (s ^ 12)) with (1 * inject_Z (s ^ 12))%Q at 1 by ring.
    apply Qmult_le_compat_r; assumption. }
  unfold Qle. cbn [Qnum Qden]. rewrite Z2Pos.id by exact Hs. lia.
Qed.

(* ================================================================== *)
(** ** The simulator on the inputs the forms allow *)

Lemma dict_get_nao_negativo (custom : list (Z * Q)) (mes : Z) :
  Forall (fun kv => (0 <= snd kv)%Q) custom ->
  (0 <= dict_get QA custom mes 0)%Q.
Proof.
  induction custom as [|[k v] custom IH]; intros H; cbn [dict_get].
  - apply Qle_refl.
  - inversion H as [|? ? Hv Hc]; subst. destruct (mes =? k); [exact Hv | exact (IH Hc)].
Qed.

(** With a non-negative base amount, a non-negative variation and
    non-negative custom entries, no policy asks for money back. *)
Lemma aporte_do_mes_nao_negativo (tipo_aporte : string) (base variacao : Q)
    (custom : list (Z * Q)) (mes : Z) (a : Q) :
  (0 <= base)%Q -> (0 <= variacao)%Q ->
  Forall (fun kv => (0 <= snd kv)%Q) custom ->
  1 <= mes ->
  aporte_do_mes QA tipo_aporte base variacao custom mes = Ok a ->
  (0 <= a)%Q.
Proof.
  intros Hb Hv Hc Hm. unfold aporte_do_mes. cbn [add mul of_Z powi QA].
  destruct (tipo_aporte =? "Fixo")%string; [intros [= <-]; exact Hb|].
  destruct (tipo_aporte =? "Variação Linear")%string.
  { intros [= <-].
    assert (0 <= inject_Z (mes - 1))%Q
      by (change 0%Q with (inject_Z 0); rewrite <- Zle_Qle; lia).
    assert (0 <= inject_Z (mes - 1) * variacao)%Q by (apply Qmult_le_0_compat; assumption).
    lra. }
  destruct (tipo_aporte =? "Variação Percentual")%string.
  { unfold Q_powi. destruct (_ && _); [discriminate|]. cbn [bind]. intros [= <-].
    apply Qmult_le_0_compat; [exact Hb|]. rewrite Qred_correct.
    apply Qpower_0_le. change (inject_Z 1) with 1%Q. lra. }
  destruct (tipo_aporte =? "Aportes Customizados")%string; intros [= <-]; [|exact Hb].
  pose proof (dict_get_nao_negativo custom mes Hc).
  change (inject_Z 0) with 0%Q. lra.
Qed.

Lemma aliquota_no_maximo_um (meses : Z) : (aliquota meses <= 1)%Q.
Proof.
  unfold aliquota.
  destruct (meses <=? 6); [discriminate|].
  destruct (meses <=? 12); [discriminate|].
  destruct (meses <=? 24); discriminate.
Qed.

(** X6.  On the inputs the forms allow (initial amount, base contribution,
    variation, custom entries and annual rate all non-negative, drift not
    below -100 %), the investor never ends with less than was put in: the
    run returns, every row has non-negative interest, the tax is not
    negative, and invested capital <= net balance <= gross balance (exact
    arithmetic). *)
Theorem simular_sem_perda
    (valor_inicial : Q) (tipo_aporte : string) (base variacao : Q)
    (custom : list (Z * Q)) (taxa_anual_base drift : Q) (meses : Z)
    (incide_ir : bool) :
  0 < meses ->
  (0 <= valor_inicial)%Q -> (0 <= base)%Q -> (0 <= variacao)%Q ->
  Forall (fun kv => (0 <= snd kv)%Q) custom ->
  (0 <= taxa_anual_base)%Q -> (-1 <= drift)%Q ->
  exists r,
    simular_investimento_detalhado QA valor_inicial tipo_aporte base variacao
      custom taxa_anual_base drift meses incide_ir = Ok r /\
    Forall (fun reg : Registro Q => (0 <= Juros reg)%Q) (df_detalhado r) /\
    (0 <= ir_pago r)%Q /\
    (capital_investido r <= saldo_liquido r)%Q /\
    (saldo_liquido r <= saldo_bruto r)%Q.
Proof.
  intros Hm Hv Hb Hvar Hc Htaxa Hdrift.
  destruct (simular_QA_em_dia valor_inicial tipo_aporte base variacao custom
              taxa_anual_base drift meses incide_ir Hm) as
    [raiz [fim [ultimo [r [Hpow [Hlivro [Hult [Hr [Hdf [Hbruto [Hcap [Hir Hliq]]]]]]]]]]]];
    [lra|].
  destruct (Q_pow_twelfth_ge_1 (1 + taxa_anual_base)%Q) as [raiz' [Hpow' Hraiz]]; [lra|].
  rewrite Hpow in Hpow'. injection Hpow' as <-.
  destruct (simular_livro QA _ _ _ _ _ _ _ _ _ _ Hr) as [Hmes [Hap _]].
  unfold livro_em_dia in Hlivro. change (num QA) with Q in *.
  rewrite Hdf in Hmes, Hap.
  destruct Hlivro as [_ [Hct [Hsal [_ [Hant [_ Hrows]]]]]].
  (* every row: month, contribution, interest and balance are not negative *)
  assert (Hlin : forall i reg, nth_error (dados_mensais fim) i = Some reg ->
            (0 <= Juros reg)%Q /\ (0 <= Saldo_Bruto reg)%Q).
  { induction i as [|i IH]; intros reg Hreg.
    - destruct (Hrows _ _ Hreg) as [Hj Hs]. cbn [saldo_antes Z.of_nat] in Hj, Hs.
      assert (Hmr : Mes reg = 1).
      { apply (py_range_1_nth meses 0). rewrite <- Hmes, nth_error_map, Hreg.
        reflexivity. }
      assert (Hin : In reg (dados_mensais fim)) by (eapply nth_error_In; exact Hreg).
      pose proof (proj1 (Forall_forall _ _) Hap reg Hin) as Hareg.
      apply aporte_do_mes_nao_negativo in Hareg; try assumption; [|lia].
      assert (0 <= Juros reg)%Q.
      { rewrite Hj. change ((1 + drift) ^ 0)%Q with 1%Q.
        apply Qmult_le_0_compat; [exact Hv | lra]. }
      split; [assumption | lra].
    - destruct (Hrows _ _ Hreg) as [Hj Hs]. cbn [saldo_antes] in Hj, Hs.
      destruct (nth_error (dados_mensais fim) i) as [ant|] eqn:Hant'.
      2:{ apply nth_error_None in Hant'.
          assert (S i < length (dados_mensais fim))%nat
            by (apply nth_error_Some; rewrite Hreg; discriminate). lia. }
      destruct (IH ant eq_refl) as [_ Hsa].
      assert (Hmr : Mes reg = Z.of_nat (S i) + 1).
      { apply (py_range_1_nth meses). rewrite <- Hmes, nth_error_map, Hreg.
        reflexivity. }
      assert (Hin : In reg (dados_mensais fim)) by (eapply nth_error_In; exact Hreg).
      pose proof (proj1 (Forall_forall _ _) Hap reg Hin) as Hareg.
      apply aporte_do_mes_nao_negativo in Hareg; try assumption; [|lia].
      assert (0 <= Juros reg)%Q.
      { rewrite Hj. apply Qmult_le_0_compat; [exact Hsa|].
        apply Qmult_le_0_compat; [lra|]. apply Qpower_0_le. lra. }
      split; [assumption | lra]. }
  assert (Hjuros : Forall (fun reg : Registro Q => (0 <= Juros reg)%Q)
                     (dados_mensais fim)).
  { apply Forall_forall. intros reg Hin. apply In_nth_error in Hin.
    destruct Hin as [i Hi]. exact (proj1 (Hlin i reg Hi)). }
  pose proof (col_sum_nonneg Juros _ Hjuros) as Hsum.
  assert (Hrend : (saldo_bruto r - capital_investido r
                   == col_sum QA Juros (dados_mensais fim))%Q).
  { rewrite Hbruto, Hcap.
    replace (Z.to_nat meses) with (S (Z.to_nat (meses - 1))) in Hant by lia.
    cbn [saldo_antes] in Hant. rewrite Hult in Hant. rewrite Hant, Hsal, Hct.
    change (num QA) with Q. ring. }
  pose proof (aliquota_positiva meses) as Hal0.
  pose proof (aliquota_no_maximo_um meses) as Hal1.
  exists r. split; [exact Hr|]. split; [rewrite Hdf; exact Hjuros|].
  set (rend := (saldo_bruto r - capital_investido r)%Q) in *.
  assert (Hrend0 : (0 <= rend)%Q) by (rewrite Hrend; exact Hsum).
  assert (Hir' : (ir_pago r == (if incide_ir then rend * aliquota meses else 0))%Q).
  { rewrite Hir. destruct incide_ir; reflexivity. }
  assert (Hprod : (0 <= rend * aliquota meses)%Q)
    by (apply Qmult_le_0_compat; [exact Hrend0 | lra]).
  assert (Hprod1 : (0 <= rend * (1 - aliquota meses))%Q)
    by (apply Qmult_le_0_compat; [exact Hrend0 | lra]).
  assert (Hdec : (rend * (1 - aliquota meses) == rend - rend * aliquota meses)%Q) by ring.
  rewrite Hliq. unfold rend in *.
  destruct incide_ir; rewrite Hir'; repeat split; lra.
Qed.

(* ================================================================== *)
(** ** A higher rate never yields less *)

(** Induction along two runs of the same loop. *)
Lemma for_each_range_ind2 {S : Type} (body : S -> Z -> result S)
    (P : Z -> S -> S -> Prop) (i1 i2 : S) :
  P 0 i1 i2 ->
  (forall k s1 s2 s1' s2', 0 <= k -> P k s1 s2 ->
     body s1 (k + 1) = Ok s1' -> body s2 (k + 1) = Ok s2' -> P (k + 1) s1' s2') ->
  forall k, 0 <= k ->
  forall s1 s2,
    for_each body (py_range 1 (k + 1)) i1 = Ok s1 ->
    for_each body (py_range 1 (k + 1)) i2 = Ok s2 -> P k s1 s2.
Proof.
  intros H0 Hstep. apply (meses_ind (fun k => forall s1 s2, _ -> _ -> P k s1 s2)).
  - intros s1 s2 H1 H2. cbn in H1, H2. injection H1 as <-. injection H2 as <-. exact H0.
  - intros k Hk IH s1 s2 H1 H2.
    rewrite py_range_snoc, for_each_app in H1, H2 by exact Hk.
    destruct (for_each body (py_range 1 (k + 1)) i1) as [a1|e]; [|discriminate].
    destruct (for_each body (py_range 1 (k + 1)) i2) as [a2|e]; [|discriminate].
    cbn [bind for_each] in H1, H2.
    destruct (body a1 (k + 1)) as [b1|e] eqn:Hb1; [|discriminate].
    destruct (body a2 (k + 1)) as [b2|e] eqn:Hb2; [|discriminate].
    cbn [bind] in H1, H2. injection H1 as <-. injection H2 as <-.
    exact (Hstep k a1 a2 b1 b2 Hk (IH a1 a2 eq_refl eq_refl) Hb1 Hb2).
Qed.

(** Two runs of the loop over the same contributions: the one that starts
    at the higher monthly rate keeps the higher rate and the higher
    balance. *)
Lemma simular_laco_monotono (valor_inicial t1 t2 : Q) (tipo_aporte : string)
    (base variacao : Q) (custom : list (Z * Q)) (drift : Q) (k : Z) :
  (0 <= valor_inicial)%Q -> (0 <= base)%Q -> (0 <= variacao)%Q ->
  Forall (fun kv => (0 <= snd kv)%Q) custom ->
  (-1 <= drift)%Q -> (0 <= t1)%Q -> (t1 <= t2)%Q ->
  0 <= k ->
  forall f1 f2,
    for_each (simular_mes QA tipo_aporte base variacao custom drift)
      (py_range 1 (k + 1)) (Build_Estado valor_inicial valor_inicial t1 []) = Ok f1 ->
    for_each (simular_mes QA tipo_aporte base variacao custom drift)
      (py_range 1 (k + 1)) (Build_Estado valor_inicial valor_inicial t2 []) = Ok f2 ->
    (0 <= saldo f1)%Q /\ (saldo f1 <= saldo f2)%Q /\
    (0 <= taxa_mensal f1)%Q /\ (taxa_mensal f1 <= taxa_mensal f2)%Q.
Proof.
  intros Hv Hb Hvar Hc Hd Ht1 Ht12.
  apply (for_each_range_ind2 _
    (fun (_ : Z) (s1 s2 : Estado Q) =>
       (0 <= saldo s1)%Q /\ (saldo s1 <= saldo s2)%Q /\
       (0 <= taxa_mensal s1)%Q /\ (taxa_mensal s1 <= taxa_mensal s2)%Q)).
  - cbn [saldo taxa_mensal]. repeat split; try assumption. apply Qle_refl.
  - intros j s1 s2 s1' s2' Hj [Hs1 [Hs12 [Hx1 Hx12]]] H1 H2.
    apply (simular_mes_inv QA) in H1. destruct H1 as [a1 [Ha1 ->]].
    apply (simular_mes_inv QA) in H2. destruct H2 as [a2 [Ha2 ->]].
    rewrite Ha1 in Ha2. injection Ha2 as <-.
    apply aporte_do_mes_nao_negativo in Ha1; try assumption; [|lia].
    cbn [saldo taxa_mensal add mul of_Z QA]. change (inject_Z 1) with 1%Q.
    change (num QA) with Q in *.
    assert (Hj1 : (0 <= saldo s1 * taxa_mensal s1)%Q)
      by (apply Qmult_le_0_compat; assumption).
    assert (Hj12 : (saldo s1 * taxa_mensal s1 <= saldo s2 * taxa_mensal s2)%Q)
      by (apply Qmult_le_compat_nonneg; split; assumption).
    assert (Hx1' : (0 <= taxa_mensal s1 * (1 + drift))%Q)
      by (apply Qmult_le_0_compat; [assumption | lra]).
    assert (Hx12' : (taxa_mensal s1 * (1 + drift) <= taxa_mensal s2 * (1 + drift))%Q)
      by (apply Qmult_le_compat_r; [assumption | lra]).
    repeat split; try assumption; lra.
Qed.

Lemma Zroot_bits_upper (k : positive) (a : Z) (bits : nat) :
  forall r, r ^ Zpos k <= a -> (Zroot_bits k a bits r) ^ Zpos k <= a.
Proof.
  induction bits as [|b IH]; intros r Hr; cbn [Zroot_bits]; [exact Hr|].
  destruct (Z.leb_spec ((r + 2 ^ Z.of_nat b) ^ Zpos k) a) as [Hle|Hgt];
    apply IH; assumption.
Qed.

(** The integer root is monotone. *)
Lemma Zroot_mono (k : positive) (a b : Z) :
  0 <= a -> a <= b -> Zroot k a <= Zroot k b.
Proof.
  intros Ha Hab. apply Zroot_lower.
  - unfold Zroot. apply Zroot_bits_ge.
  - etransitivity; [|exact Hab]. unfold Zroot. apply Zroot_bits_upper.
    rewrite Z.pow_0_l by lia. exact Ha.
Qed.

(** So is the twelfth root of the exact model. *)
Lemma Q_pow_twelfth_mono (x y r1 r2 : Q) :
  (0 <= x)%Q -> (x <= y)%Q ->
  Q_pow x (1 # 12) = Ok r1 -> Q_pow y (1 # 12) = Ok r2 -> (r1 <= r2)%Q.
Proof.
  intros Hx Hxy. unfold Q_pow.
  change (Qred (1 # 12)) with (1 # 12)%Q. cbn [Qden Qnum].
  assert (Hx0 : Qle_bool 0 x = true) by (apply Qle_bool_iff; exact Hx).
  assert (Hy0 : Qle_bool 0 y = true) by (apply Qle_bool_iff; lra).
  rewrite Hx0, Hy0. cbn [negb]. unfold Q_powi. change (1 <? 0) with false.
  rewrite !andb_false_r. cbn [bind].
  set (s := 10 ^ 15).
  intros H1 H2.
  match type of H1 with Ok ?v = _ => replace r1 with v by congruence end.
  match type of H2 with Ok ?v = _ => replace r2 with v by congruence end.
  clear H1 H2. rewrite (Qred_correct (_ # _)), (Qred_correct (_ # _)).
  assert (Hs : 0 < s) by (unfold s; lia).
  assert (Hesc : (0 <= inject_Z (s ^ 12))%Q).
  { change 0%Q with (inject_Z 0). rewrite <- Zle_Qle. apply Z.pow_nonneg. lia. }
  assert (Hroot : Zroot 12 (Qfloor (Qred (x ^ 1) * inject_Z (s ^ 12)))
                  <= Zroot 12 (Qfloor (Qred (y ^ 1) * inject_Z (s ^ 12)))).
  { apply Zroot_mono.
    - rewrite <- (Qfloor_Z 0). apply Qfloor_resp_le. rewrite Qred_correct.
      change (x ^ 1)%Q with x. change (inject_Z 0) with 0%Q.
      apply Qmult_le_0_compat; assumption.
    - apply Qfloor_resp_le. rewrite !Qred_correct.
      change (x ^ 1)%Q with x. change (y ^ 1)%Q with y.
      apply Qmult_le_compat_r; assumption. }
  unfold Qle. cbn [Qnum Qden]. apply Z.mul_le_mono_nonneg_r; [lia | exact Hroot].
Qed.

(** X7.  With the same money put in, a higher annual rate never ends with
    less: on the inputs the forms allow, the run at the higher rate returns
    a gross balance and a net balance at least as high, for the same
    invested capital (exact arithmetic). This is what the ranking of the
    comparative report rests on. *)
Theorem simular_taxa_maior_rende_mais
    (valor_inicial : Q) (tipo_aporte : string) (base variacao : Q)
    (custom : list (Z * Q)) (taxa1 taxa2 drift : Q) (meses : Z)
    (incide_ir : bool) :
  0 < meses ->
  (0 <= valor_inicial)%Q -> (0 <= base)%Q -> (0 <= variacao)%Q ->
  Forall (fun kv => (0 <= snd kv)%Q) custom ->
  (0 <= taxa1)%Q -> (taxa1 <= taxa2)%Q -> (-1 <= drift)%Q ->
  exists r1 r2,
    simular_investimento_detalhado QA valor_inicial tipo_aporte base variacao
      custom taxa1 drift meses incide_ir = Ok r1 /\
    simular_investimento_detalhado QA valor_inicial tipo_aporte base variacao
      custom taxa2 drift meses incide_ir = Ok r2 /\
    capital_investido r1 = capital_investido r2 /\
    (saldo_bruto r1 <= saldo_bruto r2)%Q /\
    (saldo_liquido r1 <= saldo_liquido r2)%Q.
Proof.
  intros Hm Hv Hb Hvar Hc Ht1 Ht12 Hd.
  destruct (simular_QA_em_dia valor_inicial tipo_aporte base variacao custom
              taxa1 drift meses incide_ir Hm) as [_ [_ [_ [r1 [_ [_ [_ [Hr1 _]]]]]]]];
    [lra|].
  destruct (simular_QA_em_dia valor_inicial tipo_aporte base variacao custom
              taxa2 drift meses incide_ir Hm) as [_ [_ [_ [r2 [_ [_ [_ [Hr2 _]]]]]]]];
    [lra|].
  exists r1, r2. split; [exact Hr1|]. split; [exact Hr2|].
  (* the same capital *)
  destruct (simular_livro QA _ _ _ _ _ _ _ _ _ _ Hr1) as [Hm1 [Ha1 Hc1]].
  destruct (simular_livro QA _ _ _ _ _ _ _ _ _ _ Hr2) as [Hm2 [Ha2 Hc2]].
  assert (Hcap : capital_investido r1 = capital_investido r2).
  { assert (Hap : map Aporte (df_detalhado r1) = map Aporte (df_detalhado r2)).
    { eapply aportes_determinados; [|exact Ha1|exact Ha2].
      rewrite Hm1, Hm2. reflexivity. }
    rewrite Hc1, Hc2, !col_sum_map, Hap. reflexivity. }
  split; [exact Hcap|].
  (* the two loops *)
  destruct (simular_inv QA _ _ _ _ _ _ _ _ _ _ Hr1)
    as [z1 [f1 [u1 [Hp1 [Hl1 [_ [Hu1 [_ [Hb1 [_ [Hi1 Hq1]]]]]]]]]]].
  destruct (simular_inv QA _ _ _ _ _ _ _ _ _ _ Hr2)
    as [z2 [f2 [u2 [Hp2 [Hl2 [_ [Hu2 [_ [Hb2 [_ [Hi2 Hq2]]]]]]]]]]].
  cbn [pow add sub of_Z dec QA] in Hp1, Hp2, Hl1, Hl2.
  change (inject_Z 1) with 1%Q in *.
  destruct (Q_pow_twelfth_ge_1 (1 + taxa1)%Q) as [z1' [Hp1' Hz1]]; [lra|].
  rewrite Hp1 in Hp1'. injection Hp1' as <-.
  assert (Hz12 : (z1 <= z2)%Q)
    by (apply (Q_pow_twelfth_mono (1 + taxa1) (1 + taxa2)); [lra | lra | exact Hp1 | exact Hp2]).
  destruct (simular_laco_monotono valor_inicial (z1 - 1) (z2 - 1) tipo_aporte base
              variacao custom drift meses Hv Hb Hvar Hc Hd ltac:(lra) ltac:(lra)
              ltac:(lia) f1 f2 Hl1 Hl2) as [_ [Hs12 _]].
  pose proof (simular_laco_em_dia valor_inicial (z1 - 1) tipo_aporte base variacao
                custom drift meses ltac:(lia) f1 Hl1) as [_ [_ [_ [_ [Hant1 _]]]]].
  pose proof (simular_laco_em_dia valor_inicial (z2 - 1) tipo_aporte base variacao
                custom drift meses ltac:(lia) f2 Hl2) as [_ [_ [_ [_ [Hant2 _]]]]].
  replace (Z.to_nat meses) with (S (Z.to_nat (meses - 1))) in Hant1, Hant2 by lia.
  cbn [saldo_antes] in Hant1, Hant2. change (num QA) with Q in *.
  rewrite Hu1 in Hant1. rewrite Hu2 in Hant2.
  assert (Hbruto : (saldo_bruto r1 <= saldo_bruto r2)%Q)
    by (rewrite Hb1, Hb2, Hant1, Hant2; exact Hs12).
  split; [exact Hbruto|].
  rewrite Hq1, Hq2, Hi1, Hi2. rewrite <- Hcap.
  cbn [sub QA]. destruct incide_ir; [|cbn [dec QA]; lra].
  unfold calcular_ir_regressivo. cbn [mul sub dec QA].
  pose proof (aliquota_no_maximo_um meses) as Hal1.
  change (num QA) with Q in *.
  set (c := capital_investido r1) in *.
  set (al := aliquota meses) in *.
  assert (H1 : (saldo_bruto r1 - (saldo_bruto r1 - c) * al
                == saldo_bruto r1 * (1 - al) + c * al)%Q) by ring.
  assert (H2 : (saldo_bruto r2 - (saldo_bruto r2 - c) * al
                == saldo_bruto r2 * (1 - al) + c * al)%Q) by ring.
  rewrite H1, H2.
  assert (saldo_bruto r1 * (1 - al) <= saldo_bruto r2 * (1 - al))%Q
    by (apply Qmult_le_compat_r; [exact Hbruto | lra]).
  lra.
Qed.

(* ================================================================== *)
(** ** Compound interest *)

(** The loop under the fixed policy and a rate that does not drift: with
    [q = 1 + t], after [k] months the balance is [V q^k] plus the value
    [c (q^k - 1) / t] of the contributions. *)
Lemma simular_laco_fixo_composto (valor_inicial c variacao : Q)
    (custom : list (Z * Q)) (drift t : Q) (k : Z) :
  (drift == 0)%Q -> 0 <= k ->
  forall fim,
    for_each (simular_mes QA "Fixo" c variacao custom drift) (py_range 1 (k + 1))
      (Build_Estado valor_inicial valor_inicial t []) = Ok fim ->
    (saldo fim * t
     == valor_inicial * (1 + t) ^ k * t + c * ((1 + t) ^ k - 1))%Q /\
    (taxa_mensal fim == t)%Q /\
    (capital_total fim == valor_inicial + inject_Z k * c)%Q.
Proof.
  intros Hdrift.
  apply (for_each_range_ind _
    (fun (k : Z) (st : Estado Q) =>
       (saldo st * t == valor_inicial * (1 + t) ^ k * t + c * ((1 + t) ^ k - 1))%Q /\
       (taxa_mensal st == t)%Q /\
       (capital_total st == valor_inicial + inject_Z k * c)%Q)).
  - cbn [saldo taxa_mensal capital_total]. change ((1 + t) ^ 0)%Q with 1%Q.
    change (inject_Z 0) with 0%Q. repeat split; ring.
  - intros j st st' Hj [Hs [Ht Hc]] Hst.
    apply (simular_mes_inv QA) in Hst. destruct Hst as [a [Ha ->]].
    assert (Hac : a = c).
    { unfold aporte_do_mes in Ha.
      change ("Fixo" =? "Fixo")%string with true in Ha. congruence. }
    subst a. cbn [saldo taxa_mensal capital_total add mul of_Z QA].
    change (inject_Z 1) with 1%Q. change (num QA) with Q in *.
    assert (HK : (inject_Z (j + 1) == inject_Z j + 1)%Q) by inj_Z.
    split; [|split].
    + rewrite Ht.
      assert (H1 : ((saldo st + (saldo st * t + c)) * t
                    == saldo st * t * (1 + t) + c * t)%Q) by ring.
      rewrite H1, Hs, Qpower_succ by exact Hj. ring.
    + rewrite Ht, Hdrift. ring.
    + rewrite Hc, HK. ring.
Qed.

(** X8.  Compound interest, as the simulator computes it: under the fixed
    policy and a rate that does not drift, with [raiz] the twelfth root the
    run starts from (so that the monthly rate is [raiz - 1]), the gross
    balance after [meses] months is the initial amount compounded,
    [V raiz^meses], plus the future value of the contributions,
    [c (raiz^meses - 1) / (raiz - 1)]; the invested capital is
    [V + meses * c] (exact arithmetic; the equation is stated multiplied by
    [raiz - 1], which may be zero). *)
Theorem simular_fixo_juros_compostos
    (valor_inicial c variacao : Q) (custom : list (Z * Q))
    (taxa_anual_base drift : Q) (meses : Z) (incide_ir : bool) :
  0 < meses -> (-1 <= taxa_anual_base)%Q -> (drift == 0)%Q ->
  exists raiz r,
    Q_pow (1 + taxa_anual_base) (1 # 12) = Ok raiz /\
    simular_investimento_detalhado QA valor_inicial "Fixo" c variacao custom
      taxa_anual_base drift meses incide_ir = Ok r /\
    (saldo_bruto r * (raiz - 1)
     == valor_inicial * raiz ^ meses * (raiz - 1) + c * (raiz ^ meses - 1))%Q /\
    (capital_investido r == valor_inicial + inject_Z meses * c)%Q.
Proof.
  intros Hm Htaxa Hdrift.
  destruct (simular_QA_em_dia valor_inicial "Fixo" c variacao custom
              taxa_anual_base drift meses incide_ir Hm Htaxa)
    as [raiz [_ [_ [r [Hpow [_ [_ [Hr _]]]]]]]].
  exists raiz, r. split; [exact Hpow|]. split; [exact Hr|].
  destruct (simular_inv QA _ _ _ _ _ _ _ _ _ _ Hr)
    as [raiz' [fim [ultimo [Hpow' [Hlaco [_ [Hult [_ [Hb [Hcap _]]]]]]]]]].
  cbn [pow add sub of_Z dec QA] in Hpow', Hlaco, Hcap.
  change (inject_Z 1) with 1%Q in *.
  rewrite Hpow in Hpow'. injection Hpow' as <-.
  destruct (simular_laco_fixo_composto valor_inicial c variacao custom drift
              (raiz - 1) meses Hdrift ltac:(lia) fim Hlaco) as [Hs [_ Hc]].
  pose proof (simular_laco_em_dia valor_inicial (raiz - 1) "Fixo" c variacao
                custom drift meses ltac:(lia) fim Hlaco)
    as [_ [Hct [_ [_ [Hant _]]]]].
  replace (Z.to_nat meses) with (S (Z.to_nat (meses - 1))) in Hant by lia.
  cbn [saldo_antes] in Hant. change (num QA) with Q in *.
  rewrite Hult in Hant.
  assert (Hq : (1 + (raiz - 1) == raiz)%Q) by ring.
  rewrite Hq in Hs.
  split.
  - rewrite Hb, Hant. exact Hs.
  - rewrite Hcap, <- Hct. exact Hc.
Qed.

(* ================================================================== *)
(** ** The caller of the simulator *)



(* ================================================================== *)
(** ** The rate converter *)

(** Bernoulli's inequality. *)
Lemma Qpower_bernoulli (x : Q) (k : Z) :
  (0 <= x)%Q -> 0 <= k -> (1 + inject_Z k * x <= (1 + x) ^ k)%Q.
Proof.
  intros Hx. revert k. apply meses_ind.
  - change ((1 + x) ^ 0)%Q with 1%Q. change (inject_Z 0) with 0%Q. lra.
  - intros k Hk IH. rewrite Qpower_succ by exact Hk.
    assert (HK : (inject_Z (k + 1) == inject_Z k + 1)%Q) by inj_Z.
    assert (HK0 : (0 <= inject_Z k)%Q)
      by (change 0%Q with (inject_Z 0); rewrite <- Zle_Qle; exact Hk).
    assert (H1 : ((1 + inject_Z k * x) * (1 + x) <= (1 + x) ^ k * (1 + x))%Q)
      by (apply Qmult_le_compat_r; [exact IH | lra]).
    assert (H2 : (0 <= inject_Z k * (x * x))%Q)
      by (apply Qmult_le_0_compat; [exact HK0 | apply Qmult_le_0_compat; exact Hx]).
    assert (H3 : ((1 + inject_Z k * x) * (1 + x)
                  == 1 + (inject_Z k + 1) * x + inject_Z k * (x * x))%Q) by ring.
    rewrite HK. lra.
Qed.

(** X10.  The converter from a monthly to an annual rate shows nothing for
    an input that is not positive, and for a positive one the compounded
    rate, which is always more than twelve times the monthly rate (exact
    arithmetic). *)
Theorem taxa_mensal_para_anual_acima_da_proporcional (taxa_mensal_input : Q) :
  ((taxa_mensal_input <= 0)%Q ->
   taxa_mensal_para_anual QA taxa_mensal_input = Ok None) /\
  ((0 < taxa_mensal_input)%Q ->
   exists taxa_anual_convertida,
     taxa_mensal_para_anual QA taxa_mensal_input = Ok (Some taxa_anual_convertida) /\
     (taxa_anual_convertida == (1 + taxa_mensal_input / 100) ^ 12 - 1)%Q /\
     (12 * (taxa_mensal_input / 100) < taxa_anual_convertida)%Q).
Proof.
  unfold taxa_mensal_para_anual. cbn [ltb of_Z div powi add sub QA].
  unfold Q_div, Q_powi. change (Qeq_bool (inject_Z 100) 0) with false.
  change (12 <? 0) with false.
  change (inject_Z 0) with 0%Q. change (inject_Z 1) with 1%Q.
  change (inject_Z 100) with 100%Q.
  split; intros H.
  - apply Qle_bool_iff in H. rewrite H. reflexivity.
  - assert (Hb : Qle_bool taxa_mensal_input 0 = false).
    { destruct (Qle_bool taxa_mensal_input 0) eqn:E; [|reflexivity].
      apply Qle_bool_iff in E. lra. }
    rewrite Hb. cbn [negb bind]. rewrite andb_false_r. cbn [bind].
    eexists. split; [reflexivity|].
    rewrite Qred_correct. split; [reflexivity|].
    set (x := (taxa_mensal_input / 100)%Q).
    assert (Hx : (0 < x)%Q) by (unfold x; apply Qlt_shift_div_l; lra).
    pose proof (Qpower_bernoulli x 11 ltac:(lra) ltac:(lia)) as Hb11.
    change (inject_Z 11) with 11%Q in Hb11.
    assert (Hs : ((1 + x) ^ 12 == (1 + x) ^ 11 * (1 + x))%Q)
      by (apply (Qpower_succ (1 + x) 11); lia).
    assert (H1 : ((1 + 11 * x) * (1 + x) <= (1 + x) ^ 11 * (1 + x))%Q)
      by (apply Qmult_le_compat_r; [exact Hb11 | lra]).
    assert (H2 : (0 < 11 * (x * x))%Q)
      by (apply Qmult_lt_0_compat; [reflexivity | apply Qmult_lt_0_compat; exact Hx]).
    assert (H3 : ((1 + 11 * x) * (1 + x) == 1 + 12 * x + 11 * (x * x))%Q) by ring.
    rewrite Hs. lra.
Qed.

(** X11.  The converter from an annual to a monthly rate shows nothing for
    an input that is not positive; for a positive one it shows a monthly
    rate that is not negative, and it is the very rate the simulator
    charges in its first month for that annual rate: the first row's
    interest is the initial amount times the converted rate (exact
    arithmetic). *)
Theorem taxa_anual_para_mensal_e_a_do_simulador
    (taxa_anual_input valor_inicial : Q) (tipo_aporte : string) (base variacao : Q)
    (custom : list (Z * Q)) (drift : Q) (meses : Z) (incide_ir : bool) :
  ((taxa_anual_input <= 0)%Q ->
   taxa_anual_para_mensal QA taxa_anual_input = Ok None) /\
  ((0 < taxa_anual_input)%Q -> 0 < meses ->
   exists taxa_mensal_convertida r reg,
     taxa_anual_para_mensal QA taxa_anual_input = Ok (Some taxa_mensal_convertida) /\
     (0 <= taxa_mensal_convertida)%Q /\
     simular_investimento_detalhado QA valor_inicial tipo_aporte base variacao
       custom (taxa_anual_input / 100)%Q drift meses incide_ir = Ok r /\
     nth_error (df_detalhado r) 0 = Some reg /\
     (Juros reg == valor_inicial * taxa_mensal_convertida)%Q).
Proof.
  unfold taxa_anual_para_mensal. cbn [ltb of_Z div pow add sub dec QA].
  unfold Q_div. change (Qeq_bool (inject_Z 100) 0) with false.
  change (inject_Z 0) with 0%Q. change (inject_Z 1) with 1%Q.
  change (inject_Z 100) with 100%Q.
  split.
  - intros H. apply Qle_bool_iff in H. rewrite H. reflexivity.
  - intros H Hm.
    assert (Hb : Qle_bool taxa_anual_input 0 = false).
    { destruct (Qle_bool taxa_anual_input 0) eqn:E; [|reflexivity].
      apply Qle_bool_iff in E. lra. }
    rewrite Hb. cbn [negb bind].
    assert (Hx : (0 < taxa_anual_input / 100)%Q) by (apply Qlt_shift_div_l; lra).
    destruct (simular_QA_em_dia valor_inicial tipo_aporte base variacao custom
                (taxa_anual_input / 100)%Q drift meses incide_ir Hm ltac:(lra))
      as [raiz [fim [_ [r [Hpow [Hlivro [_ [Hr [Hdf _]]]]]]]]].
    destruct (Q_pow_twelfth_ge_1 (1 + taxa_anual_input / 100)%Q ltac:(lra))
      as [raiz' [Hpow' Hraiz]].
    rewrite Hpow in Hpow'. injection Hpow' as <-.
    rewrite Hpow. cbn [bind].
    destruct Hlivro as [Hlen [_ [_ [_ [_ [_ Hrows]]]]]].
    destruct (nth_error (dados_mensais fim) 0) as [reg|] eqn:Hreg.
    2:{ apply nth_error_None in Hreg. lia. }
    exists (raiz - 1)%Q, r, reg. split; [reflexivity|]. split; [lra|].
    split; [exact Hr|]. split; [rewrite Hdf; exact Hreg|].
    destruct (Hrows 0%nat reg Hreg) as [Hj _]. cbn [saldo_antes Z.of_nat] in Hj.
    rewrite Hj. change ((1 + drift) ^ 0)%Q with 1%Q. ring.
Qed.

(* ================================================================== *)
(** ** The regressive table *)

Lemma aliquota_decresce (m1 m2 : Z) :
  m1 <= m2 -> (aliquota m2 <= aliquota m1)%Q.
Proof.
  intros H. unfold aliquota.
  destruct (Z.leb_spec m1 6), (Z.leb_spec m1 12), (Z.leb_spec m1 24),
           (Z.leb_spec m2 6), (Z.leb_spec m2 12), (Z.leb_spec m2 24);
    try lia; discriminate.
Qed.

Lemma aliquota_limites (m : Z) :
  ((15 # 100) <= aliquota m)%Q /\ (aliquota m <= (225 # 1000))%Q.
Proof.
  unfold aliquota.
  destruct (m <=? 6); [split; discriminate|].
  destruct (m <=? 12); [split; discriminate|].
  destruct (m <=? 24); split; discriminate.
Qed.

(** X12.  The tax on a yield that is not negative never grows with the
    holding period, and lies between 15 % and 22.5 % of the yield (exact
    arithmetic). *)
Theorem ir_regressivo_decresce_com_o_prazo (m1 m2 : Z) (rendimento : Q) :
  m1 <= m2 -> (0 <= rendimento)%Q ->
  (calcular_ir_regressivo QA m2 rendimento
   <= calcular_ir_regressivo QA m1 rendimento)%Q /\
  ((15 # 100) * rendimento <= calcular_ir_regressivo QA m2 rendimento)%Q /\
  (calcular_ir_regressivo QA m1 rendimento <= (225 # 1000) * rendimento)%Q.
Proof.
  intros Hm Hy. unfold calcular_ir_regressivo. cbn [mul dec QA].
  pose proof (aliquota_decresce m1 m2 Hm) as Hd.
  destruct (aliquota_limites m1) as [_ Hmax].
  destruct (aliquota_limites m2) as [Hmin _].
  rewrite (Qmult_comm rendimento (aliquota m1)), (Qmult_comm rendimento (aliquota m2)).
  repeat split; apply Qmult_le_compat_r; assumption.
Qed.

(* ================================================================== *)
(** ** The reference rates *)

(** In exact arithmetic [get_poupanca] always returns: above 8.5 % the
    compounded half per cent, a constant between 6.16 % and 6.17 %, and
    70 % of the Selic otherwise. *)
Lemma get_poupanca_QA (selic : Q) :
  exists p teto,
    get_poupanca QA selic = Ok p /\
    ((616 # 10000) < teto)%Q /\ (teto < (617 # 10000))%Q /\
    (teto == (1 + (5 # 1000)) ^ 12 - 1)%Q /\
    (((85 # 1000) < selic)%Q -> p = teto) /\
    ((selic <= (85 # 1000))%Q -> p = (selic * (70 # 100))%Q).
Proof.
  unfold get_poupanca. cbn [ltb dec powi add sub mul of_Z QA]. unfold Q_powi.
  change (Qeq_bool (inject_Z 1 + (5 # 1000)) 0 && (12 <? 0)) with false. cbn [bind].
  set (teto := (Qred ((inject_Z 1 + (5 # 1000)) ^ 12) - inject_Z 1)%Q).
  assert (H1 : ((616 # 10000) < teto)%Q) by (vm_compute; reflexivity).
  assert (H2 : (teto < (617 # 10000))%Q) by (vm_compute; reflexivity).
  assert (H3 : (teto == (1 + (5 # 1000)) ^ 12 - 1)%Q) by (vm_compute; reflexivity).
  destruct (Qle_bool selic (85 # 1000)) eqn:E; cbn [negb].
  - apply Qle_bool_iff in E. exists (selic * (70 # 100))%Q, teto.
    repeat split; try assumption; try reflexivity. intros H. lra.
  - exists teto, teto. repeat split; try assumption; try reflexivity.
    intros H. apply Qle_bool_iff in H. congruence.
Qed.

(** X13.  For every positive Selic the three reference rates of the
    comparative report are in strict order: savings below CDI below Selic
    (exact arithmetic). *)
Theorem taxas_de_referencia_em_ordem (selic : Q) :
  (0 < selic)%Q ->
  exists poupanca,
    get_poupanca QA selic = Ok poupanca /\
    (0 < poupanca)%Q /\
    (poupanca < get_cdi QA selic)%Q /\
    (get_cdi QA selic < selic)%Q.
Proof.
  intros Hs. destruct (get_poupanca_QA selic) as [p [teto [Hp [H1 [H2 [_ [Ha Hb]]]]]]].
  exists p. split; [exact Hp|].
  unfold get_cdi. cbn [mul dec QA].
  destruct (Qlt_le_dec (85 # 1000) selic) as [Hgt|Hle].
  - rewrite (Ha Hgt). repeat split; lra.
  - rewrite (Hb Hle). repeat split; lra.
Qed.

(** X14.  The savings rate never falls when the Selic rises, although it
    jumps at 8.5 %, and it never exceeds the compounded half per cent a
    month, about 6.17 % a year (exact arithmetic). *)
Theorem get_poupanca_monotona_com_teto (selic1 selic2 : Q) :
  (selic1 <= selic2)%Q ->
  exists p1 p2,
    get_poupanca QA selic1 = Ok p1 /\
    get_poupanca QA selic2 = Ok p2 /\
    (p1 <= p2)%Q /\
    (p2 <= (1 + (5 # 1000)) ^ 12 - 1)%Q.
Proof.
  intros H12.
  destruct (get_poupanca_QA selic1) as [p1 [teto [Hp1 [H1 [H2 [H3 [Ha1 Hb1]]]]]]].
  destruct (get_poupanca_QA selic2) as [p2 [teto' [Hp2 [_ [_ [H3' [Ha2 Hb2]]]]]]].
  exists p1, p2. split; [exact Hp1|]. split; [exact Hp2|].
  rewrite <- H3'.
  assert (Ht : (teto == teto')%Q) by (rewrite H3, H3'; reflexivity).
  destruct (Qlt_le_dec (85 # 1000) selic1) as [Hg1|Hl1];
    destruct (Qlt_le_dec (85 # 1000) selic2) as [Hg2|Hl2].
  - rewrite (Ha1 Hg1), (Ha2 Hg2). split; lra.
  - lra.
  - rewrite (Hb1 Hl1), (Ha2 Hg2). split; lra.
  - rewrite (Hb1 Hl1), (Hb2 Hl2). split; lra.
Qed.

(* ================================================================== *)
(** ** The two amortization tables, for every arithmetic *)

Section Tabelas.

Variable A : Arith.

Lemma sac_mes_passo (taxa fixa extra : num A) (lista : list Z) :
  passo_de_tabela A (sac_mes A taxa fixa extra lista).
Proof.
  intros st mes. unfold sac_mes.
  destruct (leb (saldo_devedor st) (of_Z 0)) eqn:Hab.
  - eexists. split; [reflexivity|]. split; [reflexivity|].
    split; [intros _; repeat split; reflexivity | discriminate].
  - match goal with |- context [if ltb ?x ?y then _ else _] =>
      destruct (ltb x y) eqn:Hneg end;
      (eexists; split; [reflexivity|]; split; [reflexivity|];
       split; [discriminate|]; intros _; cbn [saldo_devedor juros_total
         L_Saldo_Devedor L_Juros]; repeat split; try reflexivity).
    + left; reflexivity.
    + right; exact Hneg.
Qed.

Lemma price_mes_passo (taxa pf extra : num A) (lista : list Z) :
  passo_de_tabela A (price_mes A taxa pf extra lista).
Proof.
  intros st mes. unfold price_mes.
  destruct (leb (saldo_devedor st) (of_Z 0)) eqn:Hab.
  - eexists. split; [reflexivity|]. split; [reflexivity|].
    split; [intros _; repeat split; reflexivity | discriminate].
  - match goal with |- context [if ltb ?x ?y then _ else _] =>
      destruct (ltb x y) eqn:Hneg end;
      (eexists; split; [reflexivity|]; split; [reflexivity|];
       split; [discriminate|]; intros _; cbn [saldo_devedor juros_total
         L_Saldo_Devedor L_Juros]; repeat split; try reflexivity).
    + left; reflexivity.
    + right; exact Hneg.
Qed.

Variable f : Financiamento (num A) -> Z -> Financiamento (num A).
Hypothesis Hf : passo_de_tabela A f.
Variable principal : num A.

(** The state of the loop after the months [1 .. k]. *)
Let ate (k : Z) : Financiamento (num A) :=
  fold_left f (py_range 1 (k + 1)) (financiamento_inicial A principal).

Lemma ate_passo (k : Z) : 0 <= k -> ate (k + 1) = f (ate k) (k + 1).
Proof.
  intros Hk. unfold ate. rewrite py_range_snoc by exact Hk.
  apply fold_left_app.
Qed.

Lemma tabela_meses (k : Z) : 0 <= k -> map L_Mes (tabela (ate k)) = py_range 1 (k + 1).
Proof.
  revert k. apply meses_ind; [reflexivity|].
  intros k Hk IH. rewrite ate_passo by exact Hk.
  destruct (Hf (ate k) (k + 1)) as [l [Htab [Hmes _]]].
  rewrite Htab, map_app, IH, py_range_snoc by exact Hk. cbn [map]. rewrite Hmes.
  reflexivity.
Qed.

Lemma tabela_length (k : Z) : 0 <= k -> length (tabela (ate k)) = Z.to_nat k.
Proof.
  intros Hk. rewrite <- (length_map L_Mes), tabela_meses by exact Hk.
  apply py_range_length.
Qed.

(** Rows are only appended. *)
Lemma tabela_estavel (k : Z) (i : nat) (l : Linha (num A)) :
  0 <= k -> nth_error (tabela (ate k)) i = Some l ->
  forall d, 0 <= d -> nth_error (tabela (ate (k + d))) i = Some l.
Proof.
  intros Hk Hl. apply meses_ind.
  - rewrite Z.add_0_r. exact Hl.
  - intros d Hd IH. rewrite Z.add_assoc, ate_passo by lia.
    destruct (Hf (ate (k + d)) (k + d + 1)) as [l' [Htab _]].
    rewrite Htab, nth_error_app1; [exact IH|].
    apply nth_error_Some. rewrite IH. discriminate.
Qed.

(** The row of month [k + 1] is the one that month appends. *)
Lemma tabela_linha_do_mes (k : Z) (l : Linha (num A)) :
  0 <= k -> tabela (f (ate k) (k + 1)) = tabela (ate k) ++ [l] ->
  forall d, 0 <= d -> nth_error (tabela (ate (k + 1 + d))) (Z.to_nat k) = Some l.
Proof.
  intros Hk Htab. apply tabela_estavel; [lia|].
  rewrite ate_passo, Htab by exact Hk.
  rewrite nth_error_app2 by (rewrite tabela_length by exact Hk; lia).
  rewrite tabela_length, Nat.sub_diag by exact Hk. reflexivity.
Qed.

(** A closed balance stays as it is, and every later month gets the zero
    row. *)
Lemma fechado_fica_fechado (k : Z) :
  0 <= k -> leb (saldo_devedor (ate k)) (of_Z 0) = true ->
  forall d, 0 <= d ->
    saldo_devedor (ate (k + d)) = saldo_devedor (ate k) /\
    juros_total (ate (k + d)) = juros_total (ate k) /\
    parcela_total (ate (k + d)) = parcela_total (ate k) /\
    forall e, 0 <= e < d ->
      nth_error (tabela (ate (k + d))) (Z.to_nat (k + e))
      = Some (linha_zerada A (k + e + 1)).
Proof.
  intros Hk Hfe. apply meses_ind.
  - rewrite Z.add_0_r. repeat split; try reflexivity. intros e He. lia.
  - intros d Hd [Hs [Hj [Hp Hrows]]].
    rewrite Z.add_assoc, ate_passo by lia.
    destruct (Hf (ate (k + d)) (k + d + 1)) as [l [Htab [_ [Hzero _]]]].
    rewrite Hs in Hzero. destruct (Hzero Hfe) as [-> [Hs' [Hj' Hp']]].
    rewrite Hs', Hj', Hp'. repeat split; try assumption.
    intros e He. destruct (Z.eq_dec e d) as [->|Hne].
    + pose proof (tabela_linha_do_mes (k + d) _ ltac:(lia) Htab 0 ltac:(lia)) as H.
      rewrite Z.add_0_r, ate_passo in H by lia. exact H.
    + rewrite Htab, nth_error_app1.
      * apply Hrows. lia.
      * rewrite tabela_length by lia. lia.
Qed.

End Tabelas.

(** X15.  Both amortization tables have one row per month, numbered 1, 2,
    ..., [meses] in this order (and no row at all when [meses] is not
    positive), whatever the arithmetic. *)
Theorem tabelas_um_registro_por_mes (A : Arith) (principal taxa : num A)
    (meses : Z) (extra : num A) (lista : list Z) :
  (forall tab jt pt,
     calcular_sac A principal taxa meses extra lista = Ok (tab, jt, pt) ->
     map L_Mes tab = py_range 1 (meses + 1) /\
     length tab = Z.to_nat meses) /\
  (forall tab jt pt,
     calcular_price A principal taxa meses extra lista = Ok (tab, jt, pt) ->
     map L_Mes tab = py_range 1 (meses + 1) /\
     length tab = Z.to_nat meses).
Proof.
  assert (Hgen : forall f, passo_de_tabela A f ->
            map L_Mes (tabela (fold_left f (py_range 1 (meses + 1))
                                 (financiamento_inicial A principal)))
            = py_range 1 (meses + 1)).
  { intros f Hf. destruct (Z.le_gt_cases 0 meses) as [Hm|Hm].
    - apply (tabela_meses A f Hf principal meses Hm).
    - rewrite py_range_nil by lia. reflexivity. }
  assert (Hlen : forall tab : list (Linha (num A)),
            map L_Mes tab = py_range 1 (meses + 1) -> length tab = Z.to_nat meses).
  { intros tab H. rewrite <- (length_map L_Mes), H. apply py_range_length. }
  split; intros tab jt pt H.
  - unfold calcular_sac in H.
    destruct (div principal (of_Z meses)) as [fixa|e]; [|discriminate].
    cbn [bind] in H. injection H as <- _ _.
    pose proof (Hgen _ (sac_mes_passo A taxa fixa extra lista)) as Hm.
    split; [exact Hm | exact (Hlen _ Hm)].
  - unfold calcular_price in H.
    destruct (calcular_parcela_fixa A principal taxa meses) as [pf|e]; [|discriminate].
    cbn [bind] in H. injection H as <- _ _.
    pose proof (Hgen _ (price_mes_passo A taxa pf extra lista)) as Hm.
    split; [exact Hm | exact (Hlen _ Hm)].
Qed.

(* ================================================================== *)
(** ** The two amortization tables in exact arithmetic *)

Section TabelasExatas.

Variable f : Financiamento Q -> Z -> Financiamento Q.
Hypothesis Hf : passo_de_tabela QA f.
Variable principal : Q.

Let ate (k : Z) : Financiamento Q :=
  fold_left f (py_range 1 (k + 1)) (financiamento_inicial QA principal).

(** After [k] months: no recorded balance is negative, the total of
    interest is the sum of the interest column, and the running balance is
    at most the balance of the last row. *)
Lemma tabela_exata_em_dia (k : Z) :
  0 <= k ->
  Forall (fun l : Linha Q => (0 <= L_Saldo_Devedor l)%Q) (tabela (ate k)) /\
  (juros_total (ate k) == col_sum QA L_Juros (tabela (ate k)))%Q /\
  (forall l, 0 < k -> nth_error (tabela (ate k)) (Z.to_nat (k - 1)) = Some l ->
     (saldo_devedor (ate k) <= L_Saldo_Devedor l)%Q).
Proof.
  revert k. apply meses_ind.
  - split; [constructor|]. split; [reflexivity|]. intros l Hk. lia.
  - intros k Hk [Hpos [Hjt Hult]].
    assert (Hpasso : ate (k + 1) = f (ate k) (k + 1))
      by exact (ate_passo QA f principal k Hk).
    rewrite Hpasso.
    assert (Hlen : length (tabela (ate k)) = Z.to_nat k)
      by exact (tabela_length QA f Hf principal k Hk).
    destruct (Hf (ate k) (k + 1)) as [l [Htab [_ [Hzero Hopen]]]].
    change (num QA) with Q in *.
    rewrite Htab, col_sum_snoc.
    assert (Hlast : forall l', nth_error (tabela (ate k) ++ [l]) (Z.to_nat (k + 1 - 1))
                               = Some l' -> l' = l).
    { intros l' H. replace (Z.to_nat (k + 1 - 1)) with (Z.to_nat k) in H by lia.
      rewrite nth_error_app2 in H by lia. rewrite Hlen, Nat.sub_diag in H.
      cbn in H. congruence. }
    change (leb (a:=QA)) with Qle_bool in *.
    change (ltb (a:=QA)) with (fun x y => negb (Qle_bool y x)) in *.
    change (of_Z (a:=QA) 0) with 0%Q in *.
    change (add (a:=QA)) with Qplus in *.
    destruct (Qle_bool (saldo_devedor (ate k)) 0) eqn:Hab.
    + destruct (Hzero eq_refl) as [-> [Hs [Hj _]]].
      apply Qle_bool_iff in Hab. rewrite Hs, Hj.
      cbn [linha_zerada L_Juros L_Saldo_Devedor of_Z QA].
      change (inject_Z 0) with 0%Q.
      split; [apply Forall_app; split; [exact Hpos|]; constructor;
              [apply Qle_refl | constructor]|].
      split; [rewrite Hjt; symmetry; apply Qplus_0_r|].
      intros l' _ Hl'. rewrite (Hlast l' Hl'). exact Hab.
    + destruct (Hopen eq_refl) as [Hs [Hj Hl]]. rewrite Hs, Hj.
      assert (0 <= L_Saldo_Devedor l)%Q.
      { destruct Hl as [-> | Hl]; [apply Qle_refl|]. cbv beta in Hl.
        apply negb_false_iff, Qle_bool_iff in Hl. exact Hl. }
      split; [apply Forall_app; split; [exact Hpos|]; constructor;
              [assumption | constructor]|].
      split; [rewrite Hjt; reflexivity|].
      intros l' _ Hl'. rewrite (Hlast l' Hl'). apply Qle_refl.
Qed.

(** Early payoff: once a row shows a zero balance, every later row of the
    table is the zero row. *)
Lemma tabela_exata_quitada (n : Z) (i j : nat) (l l' : Linha Q) :
  0 <= n -> (i < j)%nat ->
  nth_error (tabela (ate n)) i = Some l ->
  (L_Saldo_Devedor l == 0)%Q ->
  nth_error (tabela (ate n)) j = Some l' ->
  l' = linha_zerada QA (Z.of_nat j + 1).
Proof.
  intros Hn Hij Hl Hzero Hl'.
  assert (Hlen : length (tabela (ate n)) = Z.to_nat n)
    by exact (tabela_length QA f Hf principal n Hn).
  assert (Hj : (j < Z.to_nat n)%nat)
    by (rewrite <- Hlen; apply nth_error_Some; rewrite Hl'; discriminate).
  set (k := Z.of_nat i + 1).
  assert (Hlenk : length (tabela (ate k)) = Z.to_nat k)
    by (apply (tabela_length QA f Hf principal k); lia).
  destruct (nth_error (tabela (ate k)) i) as [l0|] eqn:Hl0.
  2:{ apply nth_error_None in Hl0. lia. }
  assert (Hst : nth_error (tabela (ate (k + (n - k)))) i = Some l0)
    by (apply (tabela_estavel QA f Hf principal k i l0); [lia | exact Hl0 | lia]).
  replace (k + (n - k)) with n in Hst by lia.
  rewrite Hl in Hst. injection Hst as <-.
  destruct (tabela_exata_em_dia k ltac:(lia)) as [_ [_ Hult]].
  assert (Hfe : Qle_bool (saldo_devedor (ate k)) 0 = true).
  { apply Qle_bool_iff. rewrite <- Hzero. apply Hult; [lia|].
    replace (Z.to_nat (k - 1)) with i by lia. exact Hl0. }
  assert (Hrows : forall e, 0 <= e < n - k ->
            nth_error (tabela (ate (k + (n - k)))) (Z.to_nat (k + e))
            = Some (linha_zerada QA (k + e + 1)))
    by (apply (fechado_fica_fechado QA f Hf principal k); [lia | exact Hfe | lia]).
  specialize (Hrows (Z.of_nat j - k) ltac:(lia)).
  replace (k + (n - k)) with n in Hrows by lia.
  replace (Z.to_nat (k + (Z.of_nat j - k))) with j in Hrows by lia.
  replace (k + (Z.of_nat j - k) + 1) with (Z.of_nat j + 1) in Hrows by lia.
  rewrite Hl' in Hrows. congruence.
Qed.

End TabelasExatas.

(** In exact arithmetic [calcular_sac] returns exactly when [meses] is not
    zero. *)
Lemma calcular_sac_QA (principal taxa : Q) (meses : Z) (extra : Q) (lista : list Z) :
  meses <> 0 ->
  calcular_sac QA principal taxa meses extra lista
  = let fim := sac_ate QA principal taxa (principal / inject_Z meses)%Q
                 extra lista meses in
    Ok (tabela fim, juros_total fim, parcela_total fim).
Proof.
  intros Hm. unfold calcular_sac. cbn [div of_Z QA]. unfold Q_div.
  destruct (Qeq_bool (inject_Z meses) 0) eqn:E; [|reflexivity].
  apply Qeq_bool_iff in E. unfold Qeq in E. cbn in E. lia.
Qed.

(** X16.  No row of either table ever shows a negative balance, whatever
    the inputs (exact arithmetic): the clamp and the zero rows see to it. *)
Theorem tabelas_saldo_nunca_negativo
    (principal taxa : Q) (meses : Z) (extra : Q) (lista : list Z) :
  (meses <> 0 ->
   exists tab jt pt,
     calcular_sac QA principal taxa meses extra lista = Ok (tab, jt, pt) /\
     Forall (fun l : Linha Q => (0 <= L_Saldo_Devedor l)%Q) tab) /\
  (exists tab jt pt,
     calcular_price QA principal taxa meses extra lista = Ok (tab, jt, pt) /\
     Forall (fun l : Linha Q => (0 <= L_Saldo_Devedor l)%Q) tab).
Proof.
  assert (Hgen : forall f, passo_de_tabela QA f ->
            Forall (fun l : Linha Q => (0 <= L_Saldo_Devedor l)%Q)
              (tabela (fold_left f (py_range 1 (meses + 1))
                         (financiamento_inicial QA principal)))).
  { intros f Hf. destruct (Z.le_gt_cases 0 meses) as [Hm|Hm].
    - exact (proj1 (tabela_exata_em_dia f Hf principal meses Hm)).
    - rewrite py_range_nil by lia. constructor. }
  split.
  - intros Hm. rewrite calcular_sac_QA by exact Hm. cbv zeta.
    do 3 eexists. split; [reflexivity|].
    apply (Hgen _ (sac_mes_passo QA taxa _ extra lista)).
  - destruct (parcela_fixa_QA_total principal taxa meses) as [pf Hpf].
    unfold calcular_price. rewrite Hpf. cbn [bind].
    do 3 eexists. split; [reflexivity|].
    apply (Hgen _ (price_mes_passo QA taxa pf extra lista)).
Qed.

(** X17.  Early payoff in both tables (exact arithmetic): from the first
    row that shows a zero balance on, every row is the zero row of its
    month. *)
Theorem tabelas_quitadas_ficam_zeradas
    (principal taxa : Q) (meses : Z) (extra : Q) (lista : list Z) :
  (forall tab jt pt (i j : nat) (l l' : Linha Q),
     calcular_sac QA principal taxa meses extra lista = Ok (tab, jt, pt) ->
     (i < j)%nat -> nth_error tab i = Some l -> (L_Saldo_Devedor l == 0)%Q ->
     nth_error tab j = Some l' ->
     l' = linha_zerada QA (Z.of_nat j + 1)) /\
  (forall tab jt pt (i j : nat) (l l' : Linha Q),
     calcular_price QA principal taxa meses extra lista = Ok (tab, jt, pt) ->
     (i < j)%nat -> nth_error tab i = Some l -> (L_Saldo_Devedor l == 0)%Q ->
     nth_error tab j = Some l' ->
     l' = linha_zerada QA (Z.of_nat j + 1)).
Proof.
  assert (Hgen : forall f, passo_de_tabela QA f ->
            forall (i j : nat) (l l' : Linha Q),
              let tab := tabela (fold_left f (py_range 1 (meses + 1))
                                   (financiamento_inicial QA principal)) in
              (i < j)%nat -> nth_error tab i = Some l -> (L_Saldo_Devedor l == 0)%Q ->
              nth_error tab j = Some l' -> l' = linha_zerada QA (Z.of_nat j + 1)).
  { intros f Hf i j l l'. cbv zeta. destruct (Z.le_gt_cases 0 meses) as [Hm|Hm].
    - apply (tabela_exata_quitada f Hf principal meses i j l l' Hm).
    - rewrite py_range_nil by lia. cbn. intros _ H. destruct i; discriminate. }
  split; intros tab jt pt i j l l' H.
  - destruct (Z.eq_dec meses 0) as [->|Hm].
    + unfold calcular_sac in H. cbn in H. discriminate.
    + rewrite calcular_sac_QA in H by exact Hm. cbv zeta in H. injection H as <- _ _.
      apply (Hgen _ (sac_mes_passo QA taxa _ extra lista)).
  - unfold calcular_price in H.
    destruct (calcular_parcela_fixa QA principal taxa meses) as [pf|e]; [|discriminate].
    cbn [bind] in H. injection H as <- _ _.
    apply (Hgen _ (price_mes_passo QA taxa pf extra lista)).
Qed.

Lemma fold_left_inv {S T : Type} (f : S -> T -> S) (P : S -> Prop) :
  (forall s x, P s -> P (f s x)) ->
  forall (l : list T) (s : S), P s -> P (fold_left f l s).
Proof.
  intros Hstep l. induction l as [|x l IH]; intros s Hs; [exact Hs|].
  cbn [fold_left]. apply IH, Hstep, Hs.
Qed.

(** The SAC loop keeps its total of payments equal to the sum of the
    instalment column, and every row's instalment is its amortization plus
    its interest. *)
Lemma sac_mes_parcelas (taxa fixa extra : Q) (lista : list Z)
    (st : Financiamento Q) (mes : Z) :
  (parcela_total st == col_sum QA L_Parcela (tabela st))%Q /\
  Forall (fun l : Linha Q => (L_Parcela l == L_Amortizacao l + L_Juros l)%Q) (tabela st) ->
  let st' := sac_mes QA taxa fixa extra lista st mes in
  (parcela_total st' == col_sum QA L_Parcela (tabela st'))%Q /\
  Forall (fun l : Linha Q => (L_Parcela l == L_Amortizacao l + L_Juros l)%Q) (tabela st').
Proof.
  intros [Hpt Hrows]. cbv zeta. unfold sac_mes, extra_do_mes.
  cbn [leb ltb add sub mul of_Z QA]. change (inject_Z 0) with 0%Q.
  change (num QA) with Q.
  destruct (Qle_bool (saldo_devedor st) 0);
    [|destruct (py_in mes lista);
      match goal with |- context [Qle_bool 0 ?n] => destruct (Qle_bool 0 n) end];
    cbn [negb parcela_total tabela]; rewrite col_sum_snoc;
    cbn [linha_zerada L_Parcela L_Amortizacao L_Juros of_Z QA];
    change (inject_Z 0) with 0%Q;
    (split; [rewrite Hpt; try reflexivity; symmetry; apply Qplus_0_r
            |apply Forall_app; split; [exact Hrows|];
             constructor; [try reflexivity; symmetry; apply Qplus_0_r | constructor]]).
Qed.

(** The Price loop charges, in every open month, the fixed instalment plus
    the extra of the month to its total, but records the fixed instalment
    alone in the instalment column. *)
Lemma price_mes_parcelas (taxa pf extra : Q) (lista : list Z)
    (st : Financiamento Q) (mes : Z) :
  let st' := price_mes QA taxa pf extra lista st mes in
  ((0 <= extra)%Q ->
   (col_sum QA L_Parcela (tabela st) <= parcela_total st)%Q ->
   (col_sum QA L_Parcela (tabela st') <= parcela_total st')%Q) /\
  ((extra == 0)%Q \/ lista = [] ->
   (parcela_total st == col_sum QA L_Parcela (tabela st))%Q ->
   (parcela_total st' == col_sum QA L_Parcela (tabela st'))%Q).
Proof.
  cbv zeta. unfold price_mes, extra_do_mes.
  cbn [leb ltb add sub mul of_Z QA]. change (inject_Z 0) with 0%Q.
  change (num QA) with Q.
  split.
  - intros Hex Hle.
    assert (He : (0 <= (if py_in mes lista then extra else 0))%Q)
      by (destruct (py_in mes lista); [exact Hex | apply Qle_refl]).
    destruct (Qle_bool (saldo_devedor st) 0);
      [|match goal with |- context [Qle_bool 0 ?n] => destruct (Qle_bool 0 n) end];
      cbn [negb parcela_total tabela]; rewrite col_sum_snoc;
      cbn [linha_zerada L_Parcela of_Z QA]; change (inject_Z 0) with 0%Q;
      change (num QA) with Q in *; lra.
  - intros Hex Hpt. pose proof (sem_extra extra lista mes Hex) as He.
    destruct (Qle_bool (saldo_devedor st) 0);
      [|match goal with |- context [Qle_bool 0 ?n] => destruct (Qle_bool 0 n) end];
      cbn [negb parcela_total tabela]; rewrite col_sum_snoc;
      cbn [linha_zerada L_Parcela of_Z QA]; change (inject_Z 0) with 0%Q;
      change (num QA) with Q in *; lra.
Qed.

(** X18.  What the returned totals are, in exact arithmetic. In both tables
    the total of interest is the sum of the interest column. In the SAC
    table the total paid is the sum of the instalment column, and each
    instalment is the row's amortization plus its interest. In the Price
    table the total paid also counts the extra prepayments, which the
    instalment column leaves out: the total is at least the column's sum,
    and equals it when no extra applies. *)
Theorem tabelas_totais_e_colunas
    (principal taxa : Q) (meses : Z) (extra : Q) (lista : list Z) :
  (meses <> 0 ->
   exists tab jt pt,
     calcular_sac QA principal taxa meses extra lista = Ok (tab, jt, pt) /\
     (jt == col_sum QA L_Juros tab)%Q /\
     (pt == col_sum QA L_Parcela tab)%Q /\
     Forall (fun l : Linha Q => (L_Parcela l == L_Amortizacao l + L_Juros l)%Q) tab) /\
  (exists tab jt pt,
     calcular_price QA principal taxa meses extra lista = Ok (tab, jt, pt) /\
     (jt == col_sum QA L_Juros tab)%Q /\
     ((0 <= extra)%Q -> (col_sum QA L_Parcela tab <= pt)%Q) /\
     ((extra == 0)%Q \/ lista = [] -> (pt == col_sum QA L_Parcela tab)%Q)).
Proof.
  assert (Hjuros : forall f, passo_de_tabela QA f ->
            let fim := fold_left f (py_range 1 (meses + 1))
                         (financiamento_inicial QA principal) in
            (juros_total fim == col_sum QA L_Juros (tabela fim))%Q).
  { intros f Hf. cbv zeta. destruct (Z.le_gt_cases 0 meses) as [Hm|Hm].
    - exact (proj1 (proj2 (tabela_exata_em_dia f Hf principal meses Hm))).
    - rewrite py_range_nil by lia. reflexivity. }
  split.
  - intros Hm. rewrite calcular_sac_QA by exact Hm. cbv zeta.
    do 3 eexists. split; [reflexivity|].
    split; [apply (Hjuros _ (sac_mes_passo QA taxa _ extra lista))|].
    unfold sac_ate.
    apply (fold_left_inv _ (fun st : Financiamento Q =>
             (parcela_total st == col_sum QA L_Parcela (tabela st))%Q /\
             Forall (fun l : Linha Q => (L_Parcela l == L_Amortizacao l + L_Juros l)%Q)
               (tabela st))).
    + intros s x Hs. apply sac_mes_parcelas. exact Hs.
    + split; [reflexivity | constructor].
  - destruct (parcela_fixa_QA_total principal taxa meses) as [pf Hpf].
    unfold calcular_price. rewrite Hpf. cbn [bind].
    do 3 eexists. split; [reflexivity|].
    split; [apply (Hjuros _ (price_mes_passo QA taxa pf extra lista))|].
    unfold price_ate. split.
    + intros Hex.
      apply (fold_left_inv _ (fun st : Financiamento Q =>
               (col_sum QA L_Parcela (tabela st) <= parcela_total st)%Q)).
      * intros s x. apply price_mes_parcelas. exact Hex.
      * apply Qle_refl.
    + intros Hex.
      apply (fold_left_inv _ (fun st : Financiamento Q =>
               (parcela_total st == col_sum QA L_Parcela (tabela st))%Q)).
      * intros s x. apply price_mes_parcelas. exact Hex.
      * reflexivity.
Qed.

(* ================================================================== *)
(** ** Nothing to finance, and no months to finance it in *)

(** X19.  When there is nothing to finance (a principal that is zero or
    negative, as when the down payment covers the price), both tables
    consist of zero rows only and both totals are the initial zero,
    whatever the arithmetic. *)
Theorem tabelas_sem_divida (A : Arith) (principal taxa : num A) (meses : Z)
    (extra : num A) (lista : list Z) :
  leb principal (of_Z 0) = true ->
  (forall tab jt pt,
     calcular_sac A principal taxa meses extra lista = Ok (tab, jt, pt) ->
     tab = map (linha_zerada A) (py_range 1 (meses + 1)) /\
     jt = of_Z 0 /\ pt = of_Z 0) /\
  (forall tab jt pt,
     calcular_price A principal taxa meses extra lista = Ok (tab, jt, pt) ->
     tab = map (linha_zerada A) (py_range 1 (meses + 1)) /\
     jt = of_Z 0 /\ pt = of_Z 0).
Proof.
  intros Hfe.
  assert (Hgen : forall f, passo_de_tabela A f ->
            let fim := fold_left f (py_range 1 (meses + 1))
                         (financiamento_inicial A principal) in
            tabela fim = map (linha_zerada A) (py_range 1 (meses + 1)) /\
            juros_total fim = of_Z 0 /\ parcela_total fim = of_Z 0).
  { intros f Hf. cbv zeta. destruct (Z.le_gt_cases 0 meses) as [Hm|Hm].
    2:{ rewrite py_range_nil by lia. repeat split. }
    destruct (fechado_fica_fechado A f Hf principal 0 (Z.le_refl 0) Hfe meses Hm)
      as [_ [Hj [Hp Hrows]]].
    change (0 + meses) with meses in *.
    split; [|split; [exact Hj | exact Hp]].
    pose proof (tabela_length A f Hf principal meses Hm) as Hlen.
    apply nth_error_ext. intros n. rewrite nth_error_map.
    destruct (nth_error (py_range 1 (meses + 1)) n) as [mes|] eqn:Hn.
    - assert (Hlt : (n < Z.to_nat meses)%nat).
      { rewrite <- (py_range_length meses).
        apply nth_error_Some. rewrite Hn. discriminate. }
      apply py_range_1_nth in Hn. subst mes.
      specialize (Hrows (Z.of_nat n) ltac:(lia)).
      change (0 + Z.of_nat n) with (Z.of_nat n) in Hrows.
      rewrite Nat2Z.id in Hrows. exact Hrows.
    - apply nth_error_None. apply nth_error_None in Hn.
      rewrite py_range_length in Hn. lia. }
  split; intros tab jt pt H.
  - unfold calcular_sac in H.
    destruct (div principal (of_Z meses)) as [fixa|e]; [|discriminate].
    cbn [bind] in H. cbv zeta in H.
    destruct (Hgen _ (sac_mes_passo A taxa fixa extra lista)) as [Ht [Hj Hp]].
    unfold sac_ate in H. rewrite Ht, Hj, Hp in H. injection H as <- <- <-.
    repeat split.
  - unfold calcular_price in H.
    destruct (calcular_parcela_fixa A principal taxa meses) as [pf|e]; [|discriminate].
    cbn [bind] in H. cbv zeta in H.
    destruct (Hgen _ (price_mes_passo A taxa pf extra lista)) as [Ht [Hj Hp]].
    unfold price_ate in H. rewrite Ht, Hj, Hp in H. injection H as <- <- <-.
    repeat split.
Qed.

(** X20.  Asked for a loan over zero months, the two functions part ways,
    in exact arithmetic and in binary64 alike: [calcular_sac] raises
    [ZeroDivisionError] (it divides the principal by the number of months),
    while [calcular_price], whose own division by zero is caught, returns
    the empty table and zero totals. *)
Theorem tabelas_sem_meses :
  (forall (principal taxa extra : Q) (lista : list Z),
     calcular_sac QA principal taxa 0 extra lista = Raise ZeroDivisionError /\
     calcular_price QA principal taxa 0 extra lista = Ok ([], 0%Q, 0%Q)) /\
  (forall (principal taxa extra : PrimFloat.float) (lista : list Z),
     calcular_sac B64 principal taxa 0 extra lista = Raise ZeroDivisionError /\
     calcular_price B64 principal taxa 0 extra lista = Ok ([], 0%float, 0%float)).
Proof.
  split; intros principal taxa extra lista; (split; [reflexivity|]).
  - unfold calcular_price, calcular_parcela_fixa.
    cbn [powi add sub mul of_Z div QA]. unfold Q_powi, Q_div.
    change (0 <? 0) with false. rewrite andb_false_r. cbn [bind].
    reflexivity.
  - reflexivity.
Qed.

(* ================================================================== *)
(** ** The SAC table without extra prepayment *)

(** A regular SAC month: the balance covers the fixed amortization and no
    extra applies. *)
Lemma sac_mes_regular (taxa fixa extra : Q) (lista : list Z)
    (st : Financiamento Q) (mes : Z) :
  (0 < fixa)%Q -> (fixa <= saldo_devedor st)%Q ->
  (extra == 0)%Q \/ lista = [] ->
  exists am : Q, (am == fixa)%Q /\
    sac_mes QA taxa fixa extra lista st mes
    = {| saldo_devedor := (saldo_devedor st - am)%Q;
         juros_total := (juros_total st + saldo_devedor st * taxa)%Q;
         parcela_total := (parcela_total st + (am + saldo_devedor st * taxa))%Q;
         tabela := tabela st ++
           [ {| L_Mes := mes; L_Juros := (saldo_devedor st * taxa)%Q;
                L_Amortizacao := am;
                L_Parcela := (am + saldo_devedor st * taxa)%Q;
                L_Saldo_Devedor := (saldo_devedor st - am)%Q |} ] |}.
Proof.
  intros Hfixa Hs Hex. pose proof (sem_extra extra lista mes Hex) as Hsem.
  unfold sac_mes. cbn [leb ltb add sub mul of_Z QA]. change (inject_Z 0) with 0%Q.
  change (num QA) with Q.
  assert (Hab : Qle_bool (saldo_devedor st) 0 = false).
  { destruct (Qle_bool (saldo_devedor st) 0) eqn:E; [|reflexivity].
    apply Qle_bool_iff in E. lra. }
  rewrite Hab.
  destruct (py_in mes lista); cbv iota in Hsem.
  - exists (fixa + extra)%Q. split; [lra|].
    assert (Hpos : Qle_bool 0 (saldo_devedor st - (fixa + extra)) = true)
      by (apply Qle_bool_iff; lra).
    rewrite Hpos. reflexivity.
  - exists fixa. split; [reflexivity|].
    assert (Hpos : Qle_bool 0 (saldo_devedor st - fixa) = true)
      by (apply Qle_bool_iff; lra).
    rewrite Hpos. reflexivity.
Qed.

Lemma sac_ate_forma_fechada (principal taxa extra : Q) (lista : list Z) (meses k : Z) :
  (0 < principal)%Q ->
  0 < meses ->
  (extra == 0)%Q \/ lista = [] ->
  0 <= k -> k <= meses ->
  let fixa := (principal / inject_Z meses)%Q in
  let st := sac_ate QA principal taxa fixa extra lista k in
  Forall (linha_sac_regular meses fixa taxa) (tabela st) /\
  (2 * juros_total st
   == inject_Z k * inject_Z (2 * meses - k + 1) * fixa * taxa)%Q /\
  (parcela_total st == inject_Z k * fixa + juros_total st)%Q.
Proof.
  intros Hp Hmeses Hex Hk Hkm. cbv zeta. revert k Hk Hkm.
  assert (Hm : (0 < inject_Z meses)%Q).
  { change 0%Q with (inject_Z 0). rewrite <- Zlt_Qlt. exact Hmeses. }
  apply (meses_ind (fun k => k <= meses -> _)).
  - intros _.
    change (sac_ate QA principal taxa (principal / inject_Z meses)%Q extra lista 0)
      with (financiamento_inicial QA principal).
    cbn [financiamento_inicial juros_total parcela_total tabela of_Z QA].
    change (inject_Z 0) with 0%Q.
    split; [constructor|]. split; ring.
  - intros k Hk IH Hkm. destruct IH as [Hrows [Hjt Hpt]]; [lia|].
    destruct (sac_ate_sem_extra principal taxa extra lista meses k Hp Hmeses Hex Hk)
      as [Hs _]; [lia|].
    rewrite sac_ate_passo by exact Hk.
    set (fixa := (principal / inject_Z meses)%Q) in *.
    set (st := sac_ate QA principal taxa fixa extra lista k) in *.
    assert (Hfixa : (0 < fixa)%Q).
    { unfold fixa. apply Qlt_shift_div_l; [exact Hm | lra]. }
    assert (Hresto : (inject_Z (meses - k) == inject_Z (meses - (k + 1)) + 1)%Q) by inj_Z.
    assert (Hge : (0 <= inject_Z (meses - (k + 1)))%Q).
    { change 0%Q with (inject_Z 0). rewrite <- Zle_Qle. lia. }
    assert (Hprod : (0 <= inject_Z (meses - (k + 1)) * fixa)%Q).
    { apply Qmult_le_0_compat; [exact Hge | apply Qlt_le_weak; exact Hfixa]. }
    assert (Hcobre : (fixa <= saldo_devedor st)%Q).
    { rewrite Hs, Hresto.
      assert ((inject_Z (meses - (k + 1)) + 1) * fixa
              == inject_Z (meses - (k + 1)) * fixa + fixa)%Q by ring.
      lra. }
    destruct (sac_mes_regular taxa fixa extra lista st (k + 1) Hfixa Hcobre Hex)
      as [am [Ham ->]].
    cbn [juros_total parcela_total tabela]. change (num QA) with Q in *.
    assert (HK : (inject_Z (k + 1) == inject_Z k + 1)%Q) by inj_Z.
    assert (HM : (inject_Z (meses - k) == inject_Z meses - inject_Z k)%Q) by inj_Z.
    assert (HM1 : (inject_Z (meses - (k + 1)) == inject_Z meses - inject_Z k - 1)%Q)
      by inj_Z.
    assert (HM2 : (inject_Z (meses - (k + 1) + 1) == inject_Z meses - inject_Z k)%Q)
      by inj_Z.
    assert (HD : (inject_Z (2 * meses - k + 1)
                  == 2 * inject_Z meses - inject_Z k + 1)%Q) by inj_Z.
    assert (HD1 : (inject_Z (2 * meses - (k + 1) + 1)
                   == 2 * inject_Z meses - inject_Z k)%Q) by inj_Z.
    split; [|split].
    + apply Forall_app. split; [exact Hrows|]. constructor; [|constructor].
      unfold linha_sac_regular.
      cbn [L_Mes L_Juros L_Amortizacao L_Parcela L_Saldo_Devedor].
      split; [exact Ham|].
      split; [rewrite Hs, Ham, HM, HM1; ring|].
      split; [rewrite Hs, HM, HM2; ring|].
      rewrite Ham. reflexivity.
    + rewrite HK, HD1. rewrite HD in Hjt.
      assert (H2 : (2 * (juros_total st + saldo_devedor st * taxa)
                    == 2 * juros_total st + 2 * (saldo_devedor st * taxa))%Q) by ring.
      rewrite H2, Hjt, Hs, HM. ring.
    + rewrite Hpt, Ham, HK. ring.
Qed.

(** X22.  The SAC table without extra prepayment, in exact arithmetic, is
    the textbook one. Every month amortizes the share [principal / meses];
    month [m] leaves [meses - m] shares as balance and charges interest on
    the [meses - m + 1] shares open at its start; the instalment is the
    share plus that interest. The interest paid in all is
    [principal * taxa * (meses + 1) / 2] and the total paid is the
    principal plus that interest. *)
Theorem sac_sem_extra_forma_fechada
    (principal taxa : Q) (meses : Z) (extra : Q) (lista : list Z) :
  (0 < principal)%Q ->
  0 < meses ->
  (extra == 0)%Q \/ lista = [] ->
  exists tab jt pt,
    calcular_sac QA principal taxa meses extra lista = Ok (tab, jt, pt) /\
    Forall (linha_sac_regular meses (principal / inject_Z meses) taxa) tab /\
    (jt == principal * taxa * inject_Z (meses + 1) / 2)%Q /\
    (pt == principal + jt)%Q.
Proof.
  intros Hp Hm Hex.
  assert (Hne : ~ (inject_Z meses == 0)%Q).
  { intros H. unfold Qeq in H. cbn in H. lia. }
  destruct (sac_ate_forma_fechada principal taxa extra lista meses meses Hp Hm Hex)
    as [Hrows [Hjt Hpt]]; [lia | lia |].
  rewrite calcular_sac_QA by lia. cbv zeta.
  do 3 eexists. split; [reflexivity|].
  split; [exact Hrows|].
  set (st := sac_ate QA principal taxa (principal / inject_Z meses)%Q extra lista meses) in *.
  change (num QA) with Q in *.
  assert (HD : (inject_Z (2 * meses - meses + 1) == inject_Z meses + 1)%Q) by inj_Z.
  assert (HK : (inject_Z (meses + 1) == inject_Z meses + 1)%Q) by inj_Z.
  assert (Hj : (juros_total st == principal * taxa * inject_Z (meses + 1) / 2)%Q).
  { rewrite HD in Hjt. rewrite HK.
    assert (H2 : (juros_total st == (2 * juros_total st) / 2)%Q)
      by (change (num QA) with Q; field).
    rewrite H2, Hjt. field. exact Hne. }
  split; [exact Hj|].
  rewrite Hpt. 
  assert (Hshare : (inject_Z meses * (principal / inject_Z meses) == principal)%Q)
    by (field; exact Hne).
  rewrite Hshare. reflexivity.
Qed.

(* ================================================================== *)
(** ** The Price table without extra prepayment *)

(** At a positive rate the fixed instalment is the annuity formula. *)
Lemma parcela_fixa_QA_formula (principal taxa : Q) (meses : Z) :
  (0 < taxa)%Q -> 0 < meses ->
  exists pf, calcular_parcela_fixa QA principal taxa meses = Ok pf /\
    (pf * ((1 + taxa) ^ meses - 1) == principal * (1 + taxa) ^ meses * taxa)%Q.
Proof.
  intros Ht Hm.
  assert (Hq : (1 < (1 + taxa) ^ meses)%Q) by (apply Qpower_1_lt; [lra | exact Hm]).
  unfold calcular_parcela_fixa. cbn [powi add sub mul of_Z div QA].
  unfold Q_powi, Q_div. change (inject_Z 1) with 1%Q.
  assert (Hb : Qeq_bool (1 + taxa) 0 = false).
  { destruct (Qeq_bool (1 + taxa) 0) eqn:E; [|reflexivity].
    apply Qeq_bool_iff in E. lra. }
  rewrite Hb. cbn [andb bind].
  assert (Hd : Qeq_bool (Qred ((1 + taxa) ^ meses) - 1) 0 = false).
  { destruct (Qeq_bool (Qred ((1 + taxa) ^ meses) - 1) 0) eqn:E; [|reflexivity].
    apply Qeq_bool_iff in E. rewrite Qred_correct in E. lra. }
  rewrite Hd. eexists. split; [reflexivity|].
  rewrite Qred_correct. field. lra.
Qed.

(** A regular Price month: the balance is open, no extra applies, and the
    instalment does not exceed what is owed. *)
Lemma price_mes_regular (taxa pf extra : Q) (lista : list Z)
    (st : Financiamento Q) (mes : Z) :
  (0 < saldo_devedor st)%Q ->
  (0 <= saldo_devedor st - (pf - saldo_devedor st * taxa))%Q ->
  (extra == 0)%Q \/ lista = [] ->
  exists novo pago : Q,
    (novo == saldo_devedor st - (pf - saldo_devedor st * taxa))%Q /\
    (pago == pf)%Q /\
    price_mes QA taxa pf extra lista st mes
    = {| saldo_devedor := novo;
         juros_total := (juros_total st + saldo_devedor st * taxa)%Q;
         parcela_total := (parcela_total st + pago)%Q;
         tabela := tabela st ++
           [ {| L_Mes := mes; L_Juros := (saldo_devedor st * taxa)%Q;
                L_Amortizacao := (pf - saldo_devedor st * taxa)%Q;
                L_Parcela := pf;
                L_Saldo_Devedor := novo |} ] |}.
Proof.
  intros Hs Hn Hex. pose proof (sem_extra extra lista mes Hex) as Hsem.
  unfold price_mes, extra_do_mes. cbn [leb ltb add sub mul of_Z QA].
  change (inject_Z 0) with 0%Q. change (num QA) with Q.
  assert (Hab : Qle_bool (saldo_devedor st) 0 = false).
  { destruct (Qle_bool (saldo_devedor st) 0) eqn:E; [|reflexivity].
    apply Qle_bool_iff in E. lra. }
  rewrite Hab.
  destruct (py_in mes lista); cbv iota in Hsem.
  - assert (Hpos : Qle_bool 0 (saldo_devedor st - extra
                                - (pf - saldo_devedor st * taxa)) = true)
      by (apply Qle_bool_iff; lra).
    rewrite Hpos. cbn [negb]. do 2 eexists.
    split; [|split; [|reflexivity]]; lra.
  - assert (Hpos : Qle_bool 0 (saldo_devedor st
                                - (pf - saldo_devedor st * taxa)) = true)
      by (apply Qle_bool_iff; lra).
    rewrite Hpos. cbn [negb]. do 2 eexists.
    split; [|split; [|reflexivity]]; lra.
Qed.

Lemma price_ate_forma_fechada (principal taxa pf extra : Q) (lista : list Z)
    (meses k : Z) :
  (0 < principal)%Q -> (0 < taxa)%Q -> 0 < meses ->
  (extra == 0)%Q \/ lista = [] ->
  (pf * ((1 + taxa) ^ meses - 1) == principal * (1 + taxa) ^ meses * taxa)%Q ->
  0 <= k -> k <= meses ->
  let st := price_ate QA principal taxa pf extra lista k in
  (saldo_devedor st * ((1 + taxa) ^ meses - 1)
   == principal * ((1 + taxa) ^ meses - (1 + taxa) ^ k))%Q /\
  Forall (linha_price_regular principal taxa pf meses) (tabela st) /\
  (col_sum QA L_Amortizacao (tabela st) == principal - saldo_devedor st)%Q /\
  (parcela_total st == inject_Z k * pf)%Q /\
  (juros_total st == inject_Z k * pf - (principal - saldo_devedor st))%Q.
Proof.
  intros Hp Ht Hmeses Hex Hpf Hk Hkm. cbv zeta. revert k Hk Hkm.
  assert (Hq : (1 < 1 + taxa)%Q) by lra.
  assert (HD : (0 < (1 + taxa) ^ meses - 1)%Q).
  { pose proof (Qpower_1_lt (1 + taxa) meses Hq Hmeses). lra. }
  apply (meses_ind (fun k => k <= meses -> _)).
  - intros _.
    change (price_ate QA principal taxa pf extra lista 0)
      with (financiamento_inicial QA principal).
    cbn [financiamento_inicial saldo_devedor juros_total parcela_total tabela
         col_sum fold_left of_Z QA].
    change (inject_Z 0) with 0%Q. change ((1 + taxa) ^ 0)%Q with 1%Q.
    split; [reflexivity|]. split; [constructor|]. repeat split; ring.
  - intros k Hk IH Hkm. destruct IH as [Hs [Hrows [Ham [Hpt Hjt]]]]; [lia|].
    rewrite price_ate_passo by exact Hk.
    set (st := price_ate QA principal taxa pf extra lista k) in *.
    change (num QA) with Q in *.
    pose proof (Qpower_succ (1 + taxa) k Hk) as Hsucc.
    set (Qn := ((1 + taxa) ^ meses)%Q) in *.
    set (Qk := ((1 + taxa) ^ k)%Q) in *.
    assert (Hlt : (Qk < Qn)%Q) by (apply Qpower_lt_compat_l; [lia | exact Hq]).
    assert (Hle : ((1 + taxa) ^ (k + 1) <= Qn)%Q)
      by (apply Qpower_le_compat_l; [lia | lra]).
    assert (Hsaldo : (0 < saldo_devedor st)%Q).
    { apply (Qmult_lt_r _ _ (Qn - 1)%Q HD). rewrite Hs, Qmult_0_l.
      apply Qmult_lt_0_compat; lra. }
    assert (Hnovo : ((saldo_devedor st - (pf - saldo_devedor st * taxa)) * (Qn - 1)
                     == principal * (Qn - (1 + taxa) ^ (k + 1)))%Q).
    { assert (H1 : ((saldo_devedor st - (pf - saldo_devedor st * taxa)) * (Qn - 1)
                    == saldo_devedor st * (Qn - 1) * (1 + taxa) - pf * (Qn - 1))%Q)
        by ring.
      rewrite H1, Hs, Hpf, Hsucc. ring. }
    assert (Hcabe : (0 <= saldo_devedor st - (pf - saldo_devedor st * taxa))%Q).
    { apply (Qmult_le_r _ _ (Qn - 1)%Q HD). rewrite Hnovo, Qmult_0_l.
      apply Qmult_le_0_compat; lra. }
    destruct (price_mes_regular taxa pf extra lista st (k + 1) Hsaldo Hcabe Hex)
      as [novo [pago [Hn [Hpago ->]]]].
    cbn [saldo_devedor juros_total parcela_total tabela].
    assert (HK : (inject_Z (k + 1) == inject_Z k + 1)%Q) by inj_Z.
    assert (Hne : ~ (Qn - 1 == 0)%Q) by lra.
    split; [rewrite Hn; exact Hnovo|].
    split; [|split; [|split]].
    + apply Forall_app. split; [exact Hrows|]. constructor; [|constructor].
      unfold linha_price_regular.
      cbn [L_Mes L_Juros L_Amortizacao L_Parcela L_Saldo_Devedor].
      replace (k + 1 - 1) with k by lia. fold Qn Qk.
      split; [reflexivity|].
      split; [rewrite <- Hs; field; exact Hne|].
      split; [reflexivity|].
      rewrite Hn, <- Hnovo. field. exact Hne.
    + rewrite col_sum_snoc. cbn [L_Amortizacao]. rewrite Ham, Hn. ring.
    + rewrite Hpt, Hpago, HK. ring.
    + rewrite Hjt, Hn, HK. ring.
Qed.

(** X23.  The Price table at a positive rate and without extra prepayment,
    in exact arithmetic, is the textbook annuity. The instalment [pf] is
    the annuity formula; every row records it, splits it into the interest
    on the balance left by the month before and the amortization, and
    leaves the balance [principal * (q^meses - q^m) / (q^meses - 1)] with
    [q = 1 + taxa], which is zero in the last month. The amortizations sum
    to the principal, the total paid is [meses] instalments, and the
    interest paid is that total minus the principal. *)
Theorem price_sem_extra_quita_o_principal
    (principal taxa : Q) (meses : Z) (extra : Q) (lista : list Z) :
  (0 < principal)%Q -> (0 < taxa)%Q -> 0 < meses ->
  (extra == 0)%Q \/ lista = [] ->
  exists tab jt pt pf,
    calcular_price QA principal taxa meses extra lista = Ok (tab, jt, pt) /\
    (pf == principal * ((1 + taxa) ^ meses * taxa) / ((1 + taxa) ^ meses - 1))%Q /\
    Forall (linha_price_regular principal taxa pf meses) tab /\
    Forall (fun l : Linha Q => L_Mes l = meses -> (L_Saldo_Devedor l == 0)%Q) tab /\
    (col_sum QA L_Amortizacao tab == principal)%Q /\
    (pt == inject_Z meses * pf)%Q /\
    (jt == pt - principal)%Q.
Proof.
  intros Hp Ht Hm Hex.
  destruct (parcela_fixa_QA_formula principal taxa meses Ht Hm) as [pf [Hpf Hform]].
  destruct (price_ate_forma_fechada principal taxa pf extra lista meses meses
              Hp Ht Hm Hex Hform) as [Hs [Hrows [Ham [Hpt Hjt]]]]; [lia | lia |].
  assert (HD : (0 < (1 + taxa) ^ meses - 1)%Q).
  { pose proof (Qpower_1_lt (1 + taxa) meses ltac:(lra) Hm). lra. }
  assert (Hne : ~ ((1 + taxa) ^ meses - 1 == 0)%Q) by lra.
  unfold calcular_price. rewrite Hpf. cbn [bind].
  set (st := price_ate QA principal taxa pf extra lista meses) in *.
  change (num QA) with Q in *.
  assert (Hzero : (saldo_devedor st == 0)%Q).
  { assert (H0 : (saldo_devedor st * ((1 + taxa) ^ meses - 1) == 0)%Q)
      by (rewrite Hs; ring).
    apply Qmult_integral in H0. destruct H0 as [H0|H0]; [exact H0 | contradiction]. }
  exists (tabela st), (juros_total st), (parcela_total st), pf.
  split; [reflexivity|].
  split.
  { assert (H1 : (pf == pf * ((1 + taxa) ^ meses - 1) / ((1 + taxa) ^ meses - 1))%Q)
      by (field; exact Hne).
    rewrite H1, Hform. field. exact Hne. }
  split; [exact Hrows|].
  split.
  - eapply Forall_impl; [|exact Hrows].
    intros l [_ [_ [_ Hl]]] Hmes. rewrite Hl, Hmes. field. exact Hne.
  - split; [rewrite Ham, Hzero; ring|].
    split; [exact Hpt|].
    rewrite Hjt, Hpt, Hzero. ring.
Qed.

(* ================================================================== *)
(** ** SAC against Price *)

(** With [q = 1 + r] and [r > 0]: [q^k * (r k - 1) + 1] is never negative,
    and positive from [k = 1] on. *)
Lemma juros_h (r : Q) (k : Z) :
  (0 < r)%Q -> 0 <= k ->
  (0 <= (1 + r) ^ k * (r * inject_Z k - 1) + 1)%Q /\
  (0 < (1 + r) ^ (k + 1) * (r * inject_Z (k + 1) - 1) + 1)%Q.
Proof.
  intros Hr. revert k.
  assert (Hstep : forall k, 0 <= k ->
            (0 <= (1 + r) ^ k * (r * inject_Z k - 1) + 1)%Q ->
            (0 < (1 + r) ^ (k + 1) * (r * inject_Z (k + 1) - 1) + 1)%Q).
  { intros k Hk IH.
    assert (HK : (inject_Z (k + 1) == inject_Z k + 1)%Q) by inj_Z.
    assert (Hq : (0 < (1 + r) ^ k)%Q) by (apply Qpower_0_lt; lra).
    assert (HK0 : (0 <= inject_Z k)%Q)
      by (change 0%Q with (inject_Z 0); rewrite <- Zle_Qle; exact Hk).
    assert (Hpos : (0 < (1 + r) ^ k * (r * r * (inject_Z k + 1)))%Q).
    { apply Qmult_lt_0_compat; [exact Hq|].
      apply Qmult_lt_0_compat; [apply Qmult_lt_0_compat; exact Hr | lra]. }
    assert (Heq : ((1 + r) ^ (k + 1) * (r * inject_Z (k + 1) - 1) + 1
                   == ((1 + r) ^ k * (r * inject_Z k - 1) + 1)
                      + (1 + r) ^ k * (r * r * (inject_Z k + 1)))%Q).
    { rewrite Qpower_succ, HK by exact Hk. ring. }
    rewrite Heq. lra. }
  assert (Hall : forall k, 0 <= k -> (0 <= (1 + r) ^ k * (r * inject_Z k - 1) + 1)%Q).
  { apply meses_ind.
    - change ((1 + r) ^ 0)%Q with 1%Q. change (inject_Z 0) with 0%Q.
      assert (H : (1 * (r * 0 - 1) + 1 == 0)%Q) by ring. rewrite H. apply Qle_refl.
    - intros k Hk IH. apply Qlt_le_weak, Hstep; assumption. }
  intros k Hk. split; [apply Hall | apply Hstep; [|apply Hall]]; exact Hk.
Qed.

(** The gap between the interest of a Price loan and that of a SAC loan
    over [k] months, per unit of principal and scaled by [q^k - 1]: it is
    zero for a single month and positive from two months on. *)
Lemma juros_g (r : Q) (k : Z) :
  (0 < r)%Q -> 0 <= k ->
  let g := fun j : Z =>
    (inject_Z j * (1 + r) ^ j * r
     - (1 + r * (inject_Z j + 1) / 2) * ((1 + r) ^ j - 1))%Q in
  (0 <= g (k + 1)%Z)%Q /\ (0 < g (k + 2)%Z)%Q.
Proof.
  intros Hr Hk. cbv zeta beta.
  assert (Hsucc : forall j, 0 <= j ->
    (inject_Z (j + 1) * (1 + r) ^ (j + 1) * r
       - (1 + r * (inject_Z (j + 1) + 1) / 2) * ((1 + r) ^ (j + 1) - 1)
     == (inject_Z j * (1 + r) ^ j * r
           - (1 + r * (inject_Z j + 1) / 2) * ((1 + r) ^ j - 1))
        + (r * (1 # 2)) * ((1 + r) ^ j * (r * inject_Z j - 1) + 1))%Q).
  { intros j Hj.
    assert (HK : (inject_Z (j + 1) == inject_Z j + 1)%Q) by inj_Z.
    rewrite Qpower_succ, HK by exact Hj. field. }
  assert (Hall : forall j, 0 <= j ->
    (0 <= inject_Z j * (1 + r) ^ j * r
          - (1 + r * (inject_Z j + 1) / 2) * ((1 + r) ^ j - 1))%Q).
  { apply meses_ind.
    - change ((1 + r) ^ 0)%Q with 1%Q. change (inject_Z 0) with 0%Q.
      assert (H : (0 * 1 * r - (1 + r * (0 + 1) / 2) * (1 - 1) == 0)%Q) by field.
      rewrite H. apply Qle_refl.
    - intros j Hj IH. rewrite (Hsucc j Hj).
      destruct (juros_h r j Hr Hj) as [Hh _].
      assert (0 <= r * (1 # 2) * ((1 + r) ^ j * (r * inject_Z j - 1) + 1))%Q
        by (apply Qmult_le_0_compat; [lra | exact Hh]).
      lra. }
  split; [apply Hall; lia|].
  replace (k + 2) with (k + 1 + 1) by lia.
  rewrite (Hsucc (k + 1)) by lia.
  destruct (juros_h r k Hr Hk) as [_ Hh].
  assert (0 < r * (1 # 2) * ((1 + r) ^ (k + 1) * (r * inject_Z (k + 1) - 1) + 1))%Q
    by (apply Qmult_lt_0_compat; [lra | exact Hh]).
  pose proof (Hall (k + 1) ltac:(lia)). lra.
Qed.

(** X24.  The comparison the amortization tab is about, in exact
    arithmetic: for the same loan at a positive rate and without extra
    prepayment, the SAC table never pays more interest, nor more in all,
    than the Price table, and pays strictly less as soon as the loan runs
    for more than one month. *)
Theorem sac_paga_menos_juros_que_price
    (principal taxa : Q) (meses : Z) (extra : Q) (lista : list Z) :
  (0 < principal)%Q -> (0 < taxa)%Q -> 0 < meses ->
  (extra == 0)%Q \/ lista = [] ->
  exists tab_sac juros_sac parcelas_sac tab_price juros_price parcelas_price,
    calcular_sac QA principal taxa meses extra lista
    = Ok (tab_sac, juros_sac, parcelas_sac) /\
    calcular_price QA principal taxa meses extra lista
    = Ok (tab_price, juros_price, parcelas_price) /\
    (juros_sac <= juros_price)%Q /\
    (parcelas_sac <= parcelas_price)%Q /\
    (1 < meses -> (juros_sac < juros_price)%Q /\ (parcelas_sac < parcelas_price)%Q).
Proof.
  intros Hp Ht Hm Hex.
  assert (Hne : ~ (inject_Z meses == 0)%Q).
  { intros H. unfold Qeq in H. cbn in H. lia. }
  (* the SAC side *)
  destruct (sac_ate_forma_fechada principal taxa extra lista meses meses Hp Hm Hex)
    as [_ [Hjs Hps]]; [lia | lia |].
  rewrite calcular_sac_QA by lia. cbv zeta.
  set (ss := sac_ate QA principal taxa (principal / inject_Z meses)%Q extra lista meses) in *.
  (* the Price side *)
  destruct (parcela_fixa_QA_formula principal taxa meses Ht Hm) as [pf [Hpf Hform]].
  destruct (price_ate_forma_fechada principal taxa pf extra lista meses meses
              Hp Ht Hm Hex Hform) as [Hs [_ [_ [Hpp Hjp]]]]; [lia | lia |].
  unfold calcular_price. rewrite Hpf. cbn [bind].
  set (sp := price_ate QA principal taxa pf extra lista meses) in *.
  change (num QA) with Q in *.
  set (Qn := ((1 + taxa) ^ meses)%Q) in *.
  assert (HD : (0 < Qn - 1)%Q).
  { pose proof (Qpower_1_lt (1 + taxa) meses ltac:(lra) Hm). unfold Qn. lra. }
  assert (Hzero : (saldo_devedor sp == 0)%Q).
  { assert (H0 : (saldo_devedor sp * (Qn - 1) == 0)%Q) by (rewrite Hs; ring).
    apply Qmult_integral in H0. destruct H0 as [H0|H0]; [exact H0 | lra]. }
  assert (HDm : (inject_Z (2 * meses - meses + 1) == inject_Z meses + 1)%Q) by inj_Z.
  assert (Hshare : (inject_Z meses * (principal / inject_Z meses) == principal)%Q)
    by (field; exact Hne).
  assert (Hjs' : (juros_total ss == principal * taxa * (inject_Z meses + 1) / 2)%Q).
  { assert (H2 : (juros_total ss == (2 * juros_total ss) / 2)%Q)
      by (change (num QA) with Q; field).
    rewrite H2, Hjs, HDm. field. exact Hne. }
  assert (Hps' : (parcela_total ss == principal + juros_total ss)%Q)
    by (rewrite Hps, Hshare; reflexivity).
  assert (Hjp' : (juros_total sp == inject_Z meses * pf - principal)%Q)
    by (rewrite Hjp, Hzero; ring).
  assert (Hpp' : (parcela_total sp == principal + juros_total sp)%Q)
    by (rewrite Hpp, Hjp'; ring).
  (* the gap, scaled by q^meses - 1 *)
  assert (Hgap : ((juros_total sp - juros_total ss) * (Qn - 1)
                  == principal *
                     (inject_Z meses * Qn * taxa
                      - (1 + taxa * (inject_Z meses + 1) / 2) * (Qn - 1)))%Q).
  { rewrite Hjp', Hjs'.
    assert (H1 : ((inject_Z meses * pf - principal
                   - principal * taxa * (inject_Z meses + 1) / 2) * (Qn - 1)
                  == inject_Z meses * (pf * (Qn - 1))
                     - principal * (1 + taxa * (inject_Z meses + 1) / 2) * (Qn - 1))%Q)
      by field.
    rewrite H1, Hform. field. }
  assert (Hle : (0 <= juros_total sp - juros_total ss)%Q).
  { apply (Qmult_le_r _ _ (Qn - 1)%Q HD). rewrite Hgap, Qmult_0_l.
    apply Qmult_le_0_compat; [lra|].
    destruct (juros_g taxa (meses - 1) Ht ltac:(lia)) as [Hg _]. cbv zeta beta in Hg.
    replace (meses - 1 + 1) with meses in Hg by lia. exact Hg. }
  do 6 eexists. split; [reflexivity|]. split; [reflexivity|].
  split; [lra|]. split; [lra|].
  intros Hm1.
  assert (Hlt : (0 < juros_total sp - juros_total ss)%Q).
  { apply (Qmult_lt_r _ _ (Qn - 1)%Q HD). rewrite Hgap, Qmult_0_l.
    apply Qmult_lt_0_compat; [lra|].
    destruct (juros_g taxa (meses - 2) Ht ltac:(lia)) as [_ Hg]. cbv zeta beta in Hg.
    replace (meses - 2 + 2) with meses in Hg by lia. exact Hg. }
  split; lra.
Qed.

(* ================================================================== *)
(** ** The period converter *)

(** X25.  Whatever is entered, the converter returns, and the months it
    shows are twelve times the years it shows. The days are another matter:
    a period entered in years is given 365.25 days a year, one entered in
    months or days 30 days a month, that is 360 days a year. So twelve
    months and one year show the same years and months but different days
    (exact arithmetic). *)
Theorem conversor_de_periodos_anos_meses_dias (anos_input meses_input dias_input : Z) :
  exists anos_result meses_result dias_result,
    conversor_de_periodos QA anos_input meses_input dias_input
    = Ok (anos_result, meses_result, dias_result) /\
    (meses_result == 12 * anos_result)%Q /\
    (0 < anos_input -> (dias_result == (36525 # 100) * anos_result)%Q) /\
    (anos_input <= 0 -> (dias_result == 360 * anos_result)%Q).
Proof.
  unfold conversor_de_periodos. cbn [of_Z dec mul div QA]. unfold Q_div.
  change (Qeq_bool (inject_Z 12) 0) with false.
  change (Qeq_bool (inject_Z 30) 0) with false. cbn [bind].
  destruct (Z.gtb_spec anos_input 0) as [Ha|Ha].
  - do 3 eexists. split; [reflexivity|].
    split; [inj_Z|]. split; [intros _; ring | intros H; lia].
  - destruct (Z.gtb_spec meses_input 0) as [Hm|Hm].
    + do 3 eexists. split; [reflexivity|].
      split; [field|]. split; [intros H; lia|]. intros _.
      assert (H30 : (inject_Z (meses_input * 30) == inject_Z meses_input * 30)%Q) by inj_Z.
      rewrite H30. change (inject_Z 12) with 12%Q. field.
    + destruct (Z.gtb_spec dias_input 0) as [Hd|Hd].
      * do 3 eexists. split; [reflexivity|].
        split; [field|]. split; [intros H; lia|]. intros _.
        change (inject_Z 12) with 12%Q. change (inject_Z 30) with 30%Q. field.
      * do 3 eexists. split; [reflexivity|].
        split; [ring|]. split; [intros H; lia | intros _; ring].
Qed.

(** X26.  The order of the three inputs is a priority: a positive number of
    years hides the months and the days, and a positive number of months
    hides the days. And converting months to days and the days back gives
    the same period (exact arithmetic). *)
Theorem conversor_de_periodos_prioridade_e_volta
    (anos_input meses_input dias_input : Z) :
  (0 < anos_input ->
   conversor_de_periodos QA anos_input meses_input dias_input
   = conversor_de_periodos QA anos_input 0 0) /\
  (0 < meses_input ->
   conversor_de_periodos QA 0 meses_input dias_input
   = conversor_de_periodos QA 0 meses_input 0 /\
   exists a m d a' m' d',
     conversor_de_periodos QA 0 meses_input 0 = Ok (a, m, d) /\
     conversor_de_periodos QA 0 0 (meses_input * 30) = Ok (a', m', d') /\
     (a' == a)%Q /\ (m' == m)%Q /\ (d' == d)%Q).
Proof.
  split.
  - intros Ha. unfold conversor_de_periodos.
    destruct (Z.gtb_spec anos_input 0); [reflexivity | lia].
  - intros Hm. unfold conversor_de_periodos.
    change (0 >? 0) with false. cbv iota.
    destruct (Z.gtb_spec meses_input 0) as [_|H]; [|lia].
    destruct (Z.gtb_spec (meses_input * 30) 0) as [_|H]; [|lia].
    split; [reflexivity|].
    cbn [of_Z dec mul div QA]. unfold Q_div.
    change (Qeq_bool (inject_Z 12) 0) with false.
    change (Qeq_bool (inject_Z 30) 0) with false. cbn [bind].
    do 6 eexists. split; [reflexivity|]. split; [reflexivity|].
    assert (H30 : (inject_Z (meses_input * 30) == inject_Z meses_input * 30)%Q) by inj_Z.
    change (inject_Z 12) with 12%Q. change (inject_Z 30) with 30%Q.
    split; [rewrite H30; field|]. split; [rewrite H30; field | reflexivity].
Qed.

(* ================================================================== *)
(** ** Formatting money *)

Lemma replace_troca (s : string) :
  contem (car "X") s = false ->
  replace (car "X") (car ".") (replace (car ".") (car ",") (replace (car ",") (car "X") s))
  = mapear troca s.
Proof.
  induction s as [|c s IH]; [reflexivity|].
  cbn [contem replace mapear]. intros H. apply orb_false_iff in H.
  destruct H as [Hc Hs]. rewrite (IH Hs). f_equal.
  unfold troca.
  destruct (Ascii.eqb_spec c (car ",")) as [->|Hv]; [reflexivity|].
  destruct (Ascii.eqb_spec c (car ".")) as [->|Hp]; [reflexivity|].
  rewrite Hc. reflexivity.
Qed.

(** X27.  What [format_brl] does to the number the interpreter wrote: as
    long as that text has no letter X (and no number has), the result is
    "R$ " followed by the same text with every comma turned into a dot and
    every dot into a comma; the X of the three replacements leaves no
    trace. *)
Theorem format_brl_troca_os_separadores {N : Type} (formatar : N -> string) (val : N) :
  contem (car "X") (formatar val) = false ->
  format_brl formatar val = ("R$ " ++ mapear troca (formatar val))%string /\
  contem (car "X") (format_brl formatar val) = false.
Proof.
  intros H.
  assert (Hfmt : format_brl formatar val
                 = ("R$ " ++ mapear troca (formatar val))%string).
  { unfold format_brl.
    rewrite (replace_troca ("R$ " ++ formatar val)%string); [reflexivity|].
    cbn. exact H. }
  split; [exact Hfmt|]. rewrite Hfmt. cbn.
  revert H. generalize (formatar val). intros s.
  induction s as [|c s IH]; [reflexivity|].
  cbn [contem mapear]. intros H. apply orb_false_iff in H. destruct H as [Hc Hs].
  rewrite (IH Hs), orb_false_r. unfold troca.
  destruct (Ascii.eqb_spec c (car ",")) as [->|Hv]; [reflexivity|].
  destruct (Ascii.eqb_spec c (car ".")) as [->|Hp]; [reflexivity|].
  exact Hc.
Qed.

(* ================================================================== *)
(** ** Concrete runs of the further properties *)

Lemma simular_livro_um_registro_por_mes_witness :
  exists r,
    simular_investimento_detalhado QA 1000%Q "Variação Linear" 100%Q 10%Q []
      (1 # 10)%Q 0%Q 3 false = Ok r /\
    length (df_detalhado r) = Z.to_nat 3 /\
    map Mes (df_detalhado r) = py_range 1 (3 + 1) /\
    Forall (fun reg => aporte_do_mes QA "Variação Linear" 100%Q 10%Q [] (Mes reg)
                       = Ok (Aporte reg)) (df_detalhado r).
Proof.
  destruct (simular_QA_em_dia 1000%Q "Variação Linear" 100%Q 10%Q [] (1 # 10)%Q 0%Q
              3 false) as [_ [_ [_ [r [_ [_ [_ [Hr _]]]]]]]];
    [lia | vm_compute; discriminate |].
  exists r. split; [exact Hr|].
  exact (simular_livro_um_registro_por_mes QA 1000%Q "Variação Linear" 100%Q 10%Q []
           (1 # 10)%Q 0%Q 3 false r Hr).
Defined.

Lemma simular_capital_investido_independe_da_taxa_witness :
  exists r1 r2,
    simular_investimento_detalhado QA 1000%Q "Aportes Customizados" 100%Q 0%Q
      [(2, 500%Q)] (1 # 10)%Q 0%Q 3 true = Ok r1 /\
    simular_investimento_detalhado QA 1000%Q "Aportes Customizados" 100%Q 0%Q
      [(2, 500%Q)] (5 # 100)%Q (1 # 100)%Q 3 false = Ok r2 /\
    map Aporte (df_detalhado r1) = map Aporte (df_detalhado r2) /\
    capital_investido r1 = capital_investido r2.
Proof.
  destruct (simular_QA_em_dia 1000%Q "Aportes Customizados" 100%Q 0%Q [(2, 500%Q)]
              (1 # 10)%Q 0%Q 3 true) as [_ [_ [_ [r1 [_ [_ [_ [Hr1 _]]]]]]]];
    [lia | vm_compute; discriminate |].
  destruct (simular_QA_em_dia 1000%Q "Aportes Customizados" 100%Q 0%Q [(2, 500%Q)]
              (5 # 100)%Q (1 # 100)%Q 3 false) as [_ [_ [_ [r2 [_ [_ [_ [Hr2 _]]]]]]]];
    [lia | vm_compute; discriminate |].
  exists r1, r2. split; [exact Hr1|]. split; [exact Hr2|].
  exact (simular_capital_investido_independe_da_taxa QA 1000%Q "Aportes Customizados"
           100%Q 0%Q [(2, 500%Q)] 3 (1 # 10)%Q 0%Q (5 # 100)%Q (1 # 100)%Q true false
           r1 r2 Hr1 Hr2).
Defined.

Lemma simular_identidade_contabil_witness :
  0 < 12 /\ (-1 <= 1 # 10)%Q /\
  exists r ultimo,
    simular_investimento_detalhado QA 1000%Q "Variação Percentual" 100%Q (5 # 100)%Q []
      (1 # 10)%Q (1 # 100)%Q 12 true = Ok r /\
    nth_error (df_detalhado r) (Z.to_nat (12 - 1)) = Some ultimo /\
    saldo_bruto r = Saldo_Bruto ultimo /\
    (capital_investido r == Capital_Acumulado ultimo)%Q /\
    (saldo_bruto r == capital_investido r + col_sum QA Juros (df_detalhado r))%Q.
Proof.
  split; [lia|]. split; [vm_compute; discriminate|].
  apply (simular_identidade_contabil 1000%Q "Variação Percentual" 100%Q (5 # 100)%Q []
           (1 # 10)%Q (1 # 100)%Q 12 true).
  - lia.
  - vm_compute; discriminate.
Defined.

Lemma simular_juros_e_saldo_de_cada_mes_witness :
  0 < 12 /\ (-1 <= 1 # 10)%Q /\
  exists raiz r,
    Q_pow (1 + (1 # 10)) (1 # 12) = Ok raiz /\
    simular_investimento_detalhado QA 1000%Q "Fixo" 100%Q 0%Q []
      (1 # 10)%Q (1 # 100)%Q 12 false = Ok r /\
    forall i reg, nth_error (df_detalhado r) i = Some reg ->
      Mes reg = Z.of_nat i + 1 /\
      (Juros reg == saldo_antes 1000 (df_detalhado r) i
                    * ((raiz - 1) * (1 + (1 # 100)) ^ (Mes reg - 1)))%Q /\
      (Saldo_Bruto reg == saldo_antes 1000 (df_detalhado r) i
                          + (Juros reg + Aporte reg))%Q.
Proof.
  split; [lia|]. split; [vm_compute; discriminate|].
  apply (simular_juros_e_saldo_de_cada_mes 1000%Q "Fixo" 100%Q 0%Q []
           (1 # 10)%Q (1 # 100)%Q 12 false).
  - lia.
  - vm_compute; discriminate.
Defined.

Lemma simular_taxa_zero_sem_rendimento_witness :
  0 < 12 /\
  exists r,
    simular_investimento_detalhado QA 1000%Q "Variação Linear" 100%Q 10%Q []
      0%Q (1 # 100)%Q 12 true = Ok r /\
    Forall (fun reg : Registro Q => (Juros reg == 0)%Q) (df_detalhado r) /\
    (saldo_bruto r == capital_investido r)%Q /\
    (ir_pago r == 0)%Q /\
    (saldo_liquido r == saldo_bruto r)%Q.
Proof.
  split; [lia|].
  apply (simular_taxa_zero_sem_rendimento 1000%Q "Variação Linear" 100%Q 10%Q []
           (1 # 100)%Q 12 true).
  lia.
Defined.

Lemma simular_sem_perda_witness :
  0 < 12 /\ (0 <= 1000)%Q /\ (0 <= 100)%Q /\ (0 <= 0)%Q /\
  Forall (fun kv : Z * Q => (0 <= snd kv)%Q) [(6, 500%Q)] /\
  (0 <= 1 # 10)%Q /\ (-1 <= 0)%Q /\
  exists r,
    simular_investimento_detalhado QA 1000%Q "Aportes Customizados" 100%Q 0%Q
      [(6, 500%Q)] (1 # 10)%Q 0%Q 12 true = Ok r /\
    Forall (fun reg : Registro Q => (0 <= Juros reg)%Q) (df_detalhado r) /\
    (0 <= ir_pago r)%Q /\
    (capital_investido r <= saldo_liquido r)%Q /\
    (saldo_liquido r <= saldo_bruto r)%Q.
Proof.
  assert (Hc : Forall (fun kv : Z * Q => (0 <= snd kv)%Q) [(6, 500%Q)])
    by (constructor; [vm_compute; discriminate | constructor]).
  split; [lia|]. do 3 (split; [vm_compute; discriminate|]).
  split; [exact Hc|]. do 2 (split; [vm_compute; discriminate|]).
  apply (simular_sem_perda 1000%Q "Aportes Customizados" 100%Q 0%Q [(6, 500%Q)]
           (1 # 10)%Q 0%Q 12 true);
    [lia | vm_compute; discriminate | vm_compute; discriminate
     | vm_compute; discriminate | exact Hc | vm_compute; discriminate
     | vm_compute; discriminate].
Defined.

Lemma simular_taxa_maior_rende_mais_witness :
  0 < 12 /\ (0 <= 1000)%Q /\ (0 <= 100)%Q /\ (0 <= 0)%Q /\
  Forall (fun kv : Z * Q => (0 <= snd kv)%Q) [] /\
  (0 <= 6 # 100)%Q /\ (6 # 100 <= 13 # 100)%Q /\ (-1 <= 0)%Q /\
  exists r1 r2,
    simular_investimento_detalhado QA 1000%Q "Fixo" 100%Q 0%Q []
      (6 # 100)%Q 0%Q 12 true = Ok r1 /\
    simular_investimento_detalhado QA 1000%Q "Fixo" 100%Q 0%Q []
      (13 # 100)%Q 0%Q 12 true = Ok r2 /\
    capital_investido r1 = capital_investido r2 /\
    (saldo_bruto r1 <= saldo_bruto r2)%Q /\
    (saldo_liquido r1 <= saldo_liquido r2)%Q.
Proof.
  split; [lia|]. do 3 (split; [vm_compute; discriminate|]).
  split; [constructor|]. do 3 (split; [vm_compute; discriminate|]).
  apply (simular_taxa_maior_rende_mais 1000%Q "Fixo" 100%Q 0%Q []
           (6 # 100)%Q (13 # 100)%Q 0%Q 12 true);
    [lia | vm_compute; discriminate | vm_compute; discriminate
     | vm_compute; discriminate | constructor | vm_compute; discriminate
     | vm_compute; discriminate | vm_compute; discriminate].
Defined.

Lemma simular_fixo_juros_compostos_witness :
  0 < 12 /\ (-1 <= 1 # 10)%Q /\ (0 == 0)%Q /\
  exists raiz r,
    Q_pow (1 + (1 # 10)) (1 # 12) = Ok raiz /\
    simular_investimento_detalhado QA 1000%Q "Fixo" 100%Q 0%Q []
      (1 # 10)%Q 0%Q 12 false = Ok r /\
    (saldo_bruto r * (raiz - 1)
     == 1000 * raiz ^ 12 * (raiz - 1) + 100 * (raiz ^ 12 - 1))%Q /\
    (capital_investido r == 1000 + inject_Z 12 * 100)%Q.
Proof.
  split; [lia|]. split; [vm_compute; discriminate|]. split; [reflexivity|].
  apply (simular_fixo_juros_compostos 1000%Q 100%Q 0%Q [] (1 # 10)%Q 0%Q 12 false);
    [lia | vm_compute; discriminate | reflexivity].
Defined.


Lemma taxa_mensal_para_anual_acima_da_proporcional_witness :
  (0 < 1)%Q /\
  exists taxa_anual_convertida,
    taxa_mensal_para_anual QA 1%Q = Ok (Some taxa_anual_convertida) /\
    (taxa_anual_convertida == (1 + 1 / 100) ^ 12 - 1)%Q /\
    (12 * (1 / 100) < taxa_anual_convertida)%Q.
Proof.
  assert (H : (0 < 1)%Q) by reflexivity.
  split; [exact H|].
  exact (proj2 (taxa_mensal_para_anual_acima_da_proporcional 1%Q) H).
Defined.

Lemma taxa_anual_para_mensal_e_a_do_simulador_witness :
  (0 < 10)%Q /\ 0 < 12 /\
  exists taxa_mensal_convertida r reg,
    taxa_anual_para_mensal QA 10%Q = Ok (Some taxa_mensal_convertida) /\
    (0 <= taxa_mensal_convertida)%Q /\
    simular_investimento_detalhado QA 1000%Q "Fixo" 100%Q 0%Q []
      (10 / 100)%Q 0%Q 12 false = Ok r /\
    nth_error (df_detalhado r) 0 = Some reg /\
    (Juros reg == 1000 * taxa_mensal_convertida)%Q.
Proof.
  assert (H : (0 < 10)%Q) by reflexivity.
  assert (Hm : 0 < 12) by lia.
  split; [exact H|]. split; [exact Hm|].
  exact (proj2 (taxa_anual_para_mensal_e_a_do_simulador 10%Q 1000%Q "Fixo" 100%Q 0%Q
                  [] 0%Q 12 false) H Hm).
Defined.

Lemma ir_regressivo_decresce_com_o_prazo_witness :
  6 <= 30 /\ (0 <= 1000)%Q /\
  (calcular_ir_regressivo QA 30 1000 <= calcular_ir_regressivo QA 6 1000)%Q /\
  ((15 # 100) * 1000 <= calcular_ir_regressivo QA 30 1000)%Q /\
  (calcular_ir_regressivo QA 6 1000 <= (225 # 1000) * 1000)%Q.
Proof.
  assert (Hm : 6 <= 30) by lia.
  assert (Hy : (0 <= 1000)%Q) by (vm_compute; discriminate).
  split; [exact Hm|]. split; [exact Hy|].
  exact (ir_regressivo_decresce_com_o_prazo 6 30 1000%Q Hm Hy).
Defined.

Lemma taxas_de_referencia_em_ordem_witness :
  (0 < 13 # 100)%Q /\
  exists poupanca,
    get_poupanca QA (13 # 100)%Q = Ok poupanca /\
    (0 < poupanca)%Q /\
    (poupanca < get_cdi QA (13 # 100))%Q /\
    (get_cdi QA (13 # 100) < 13 # 100)%Q.
Proof.
  assert (Hs : (0 < 13 # 100)%Q) by reflexivity.
  split; [exact Hs|].
  exact (taxas_de_referencia_em_ordem (13 # 100)%Q Hs).
Defined.

Lemma get_poupanca_monotona_com_teto_witness :
  (8 # 100 <= 9 # 100)%Q /\
  exists p1 p2,
    get_poupanca QA (8 # 100)%Q = Ok p1 /\
    get_poupanca QA (9 # 100)%Q = Ok p2 /\
    (p1 <= p2)%Q /\
    (p2 <= (1 + (5 # 1000)) ^ 12 - 1)%Q.
Proof.
  assert (H : (8 # 100 <= 9 # 100)%Q) by (vm_compute; discriminate).
  split; [exact H|].
  exact (get_poupanca_monotona_com_teto (8 # 100)%Q (9 # 100)%Q H).
Defined.

Lemma tabelas_um_registro_por_mes_witness :
  exists tab jt pt,
    calcular_sac QA 1200%Q (1 # 100)%Q 3 300%Q [1] = Ok (tab, jt, pt) /\
    map L_Mes tab = py_range 1 (3 + 1) /\
    length tab = Z.to_nat 3.
Proof.
  do 3 eexists. split; [vm_compute; reflexivity|].
  eapply (proj1 (tabelas_um_registro_por_mes QA 1200%Q (1 # 100)%Q 3 300%Q [1])).
  vm_compute; reflexivity.
Defined.

Lemma tabelas_saldo_nunca_negativo_witness :
  3 <> 0 /\
  exists tab jt pt,
    calcular_sac QA 1200%Q (1 # 100)%Q 3 5000%Q [1; 2] = Ok (tab, jt, pt) /\
    Forall (fun l : Linha Q => (0 <= L_Saldo_Devedor l)%Q) tab.
Proof.
  assert (H : 3 <> 0) by discriminate.
  split; [exact H|].
  exact (proj1 (tabelas_saldo_nunca_negativo 1200%Q (1 # 100)%Q 3 5000%Q [1; 2]) H).
Defined.

Lemma tabelas_quitadas_ficam_zeradas_witness :
  exists tab jt pt l l',
    calcular_sac QA 1200%Q (1 # 100)%Q 3 1000%Q [1] = Ok (tab, jt, pt) /\
    nth_error tab 0 = Some l /\ (L_Saldo_Devedor l == 0)%Q /\
    nth_error tab 2 = Some l' /\
    l' = linha_zerada QA (Z.of_nat 2 + 1).
Proof.
  do 5 eexists. split; [vm_compute; reflexivity|].
  split; [reflexivity|]. split; [reflexivity|]. split; [reflexivity|].
  eapply (proj1 (tabelas_quitadas_ficam_zeradas 1200%Q (1 # 100)%Q 3 1000%Q [1])
            _ _ _ 0%nat 2%nat);
    [vm_compute; reflexivity | lia | reflexivity | reflexivity | reflexivity].
Defined.

Lemma tabelas_totais_e_colunas_witness :
  exists tab jt pt,
    calcular_price QA 1200%Q (1 # 100)%Q 3 300%Q [1] = Ok (tab, jt, pt) /\
    (jt == col_sum QA L_Juros tab)%Q /\
    ((0 <= 300)%Q -> (col_sum QA L_Parcela tab <= pt)%Q) /\
    ((300 == 0)%Q \/ [1] = [] -> (pt == col_sum QA L_Parcela tab)%Q).
Proof.
  exact (proj2 (tabelas_totais_e_colunas 1200%Q (1 # 100)%Q 3 300%Q [1])).
Defined.

Lemma tabelas_sem_divida_witness :
  leb (a:=QA) (-500)%Q (of_Z (a:=QA) 0) = true /\
  exists tab jt pt,
    calcular_price QA (-500)%Q (1 # 100)%Q 3 0%Q [] = Ok (tab, jt, pt) /\
    tab = map (linha_zerada QA) (py_range 1 (3 + 1)) /\
    jt = of_Z (a:=QA) 0 /\ pt = of_Z (a:=QA) 0.
Proof.
  split; [reflexivity|].
  do 3 eexists. split; [vm_compute; reflexivity|].
  eapply (proj2 (tabelas_sem_divida QA (-500)%Q (1 # 100)%Q 3 0%Q [] eq_refl)).
  vm_compute; reflexivity.
Defined.

Lemma sac_sem_extra_quita_o_principal_witness :
  (0 < 120000)%Q /\ 0 < 12 /\ ((500 == 0)%Q \/ @nil Z = []) /\
  exists tab jt pt,
    calcular_sac QA 120000%Q (1 # 100)%Q 12 500%Q [] = Ok (tab, jt, pt) /\
    length tab = Z.to_nat 12 /\
    (col_sum QA L_Amortizacao tab == 120000)%Q /\
    (saldo_devedor (sac_ate QA 120000%Q (1 # 100)%Q (120000 / inject_Z 12)%Q
                      500%Q [] 12) == 0)%Q.
Proof.
  assert (Hp : (0 < 120000)%Q) by reflexivity.
  assert (Hm : 0 < 12) by lia.
  assert (Hex : (500 == 0)%Q \/ @nil Z = []) by (right; reflexivity).
  split; [exact Hp|]. split; [exact Hm|]. split; [exact Hex|].
  exact (sac_sem_extra_quita_o_principal 120000%Q (1 # 100)%Q 12 500%Q [] Hp Hm Hex).
Defined.

Lemma sac_sem_extra_forma_fechada_witness :
  (0 < 120000)%Q /\ 0 < 12 /\ ((0 == 0)%Q \/ [3; 6] = []) /\
  exists tab jt pt,
    calcular_sac QA 120000%Q (1 # 100)%Q 12 0%Q [3; 6] = Ok (tab, jt, pt) /\
    Forall (linha_sac_regular 12 (120000 / inject_Z 12) (1 # 100)) tab /\
    (jt == 120000 * (1 # 100) * inject_Z (12 + 1) / 2)%Q /\
    (pt == 120000 + jt)%Q.
Proof.
  assert (Hp : (0 < 120000)%Q) by reflexivity.
  assert (Hm : 0 < 12) by lia.
  assert (Hex : (0 == 0)%Q \/ [3; 6] = []) by (left; reflexivity).
  split; [exact Hp|]. split; [exact Hm|]. split; [exact Hex|].
  exact (sac_sem_extra_forma_fechada 120000%Q (1 # 100)%Q 12 0%Q [3; 6] Hp Hm Hex).
Defined.

Lemma price_sem_extra_quita_o_principal_witness :
  (0 < 120000)%Q /\ (0 < 1 # 100)%Q /\ 0 < 12 /\ ((0 == 0)%Q \/ [3; 6] = []) /\
  exists tab jt pt pf,
    calcular_price QA 120000%Q (1 # 100)%Q 12 0%Q [3; 6] = Ok (tab, jt, pt) /\
    (pf == 120000 * ((1 + (1 # 100)) ^ 12 * (1 # 100)) / ((1 + (1 # 100)) ^ 12 - 1))%Q /\
    Forall (linha_price_regular 120000 (1 # 100) pf 12) tab /\
    Forall (fun l : Linha Q => L_Mes l = 12 -> (L_Saldo_Devedor l == 0)%Q) tab /\
    (col_sum QA L_Amortizacao tab == 120000)%Q /\
    (pt == inject_Z 12 * pf)%Q /\
    (jt == pt - 120000)%Q.
Proof.
  assert (Hp : (0 < 120000)%Q) by reflexivity.
  assert (Ht : (0 < 1 # 100)%Q) by reflexivity.
  assert (Hm : 0 < 12) by lia.
  assert (Hex : (0 == 0)%Q \/ [3; 6] = []) by (left; reflexivity).
  split; [exact Hp|]. split; [exact Ht|]. split; [exact Hm|]. split; [exact Hex|].
  exact (price_sem_extra_quita_o_principal 120000%Q (1 # 100)%Q 12 0%Q [3; 6]
           Hp Ht Hm Hex).
Defined.

Lemma sac_paga_menos_juros_que_price_witness :
  (0 < 120000)%Q /\ (0 < 1 # 100)%Q /\ 0 < 12 /\ ((500 == 0)%Q \/ @nil Z = []) /\
  exists tab_sac juros_sac parcelas_sac tab_price juros_price parcelas_price,
    calcular_sac QA 120000%Q (1 # 100)%Q 12 500%Q []
    = Ok (tab_sac, juros_sac, parcelas_sac) /\
    calcular_price QA 120000%Q (1 # 100)%Q 12 500%Q []
    = Ok (tab_price, juros_price, parcelas_price) /\
    (juros_sac <= juros_price)%Q /\
    (parcelas_sac <= parcelas_price)%Q /\
    (1 < 12 -> (juros_sac < juros_price)%Q /\ (parcelas_sac < parcelas_price)%Q).
Proof.
  assert (Hp : (0 < 120000)%Q) by reflexivity.
  assert (Ht : (0 < 1 # 100)%Q) by reflexivity.
  assert (Hm : 0 < 12) by lia.
  assert (Hex : (500 == 0)%Q \/ @nil Z = []) by (right; reflexivity).
  split; [exact Hp|]. split; [exact Ht|]. split; [exact Hm|]. split; [exact Hex|].
  exact (sac_paga_menos_juros_que_price 120000%Q (1 # 100)%Q 12 500%Q []
           Hp Ht Hm Hex).
Defined.

Lemma conversor_de_periodos_anos_meses_dias_witness :
  exists anos_result meses_result dias_result,
    conversor_de_periodos QA 0 18 45 = Ok (anos_result, meses_result, dias_result) /\
    (meses_result == 12 * anos_result)%Q /\
    (0 < 0 -> (dias_result == (36525 # 100) * anos_result)%Q) /\
    (0 <= 0 -> (dias_result == 360 * anos_result)%Q).
Proof.
  exact (conversor_de_periodos_anos_meses_dias 0 18 45).
Defined.

Lemma conversor_de_periodos_prioridade_e_volta_witness :
  0 < 18 /\
  conversor_de_periodos QA 0 18 45 = conversor_de_periodos QA 0 18 0 /\
  exists a m d a' m' d',
    conversor_de_periodos QA 0 18 0 = Ok (a, m, d) /\
    conversor_de_periodos QA 0 0 (18 * 30) = Ok (a', m', d') /\
    (a' == a)%Q /\ (m' == m)%Q /\ (d' == d)%Q.
Proof.
  assert (H : 0 < 18) by lia.
  split; [exact H|].
  exact (proj2 (conversor_de_periodos_prioridade_e_volta 2 18 45) H).
Defined.

Lemma format_brl_troca_os_separadores_witness :
  contem (car "X") "1,234,567.89" = false /\
  format_brl (fun _ : Q => "1,234,567.89"%string) (123456789 # 100)%Q
  = "R$ 1.234.567,89"%string.
Proof.
  split; [reflexivity|].
  exact (proj1 (format_brl_troca_os_separadores (fun _ : Q => "1,234,567.89"%string)
                  (123456789 # 100)%Q eq_refl)).
Defined.
